(** * pdf2text-converter: the extraction-and-cleanup pipeline

    A shallow embedding of
      - [backend/app/utils/chunking.py]        (class [PDFChunker]),
      - [backend/app/utils/text_normalizer.py] (class [TextNormalizer]),
      - [backend/app/utils/text_filter.py]     (class [TextFilter]),
      - [backend/app/services/pdf_processor.py] (class [PDFProcessor]),
      - [backend/app/api/routes.py]            (the endpoint [/extract]),
    followed by the properties of the specification that concern them.

    Python values are modelled as follows.
      - [str] is a list of Unicode code points ([N]); [len] is [length].
      - [int] is [Z]; [float] is IEEE 754 binary64, computed with the
        reference implementation [SpecFloat] of the standard library.
      - [set] and [Counter] are stdpp's [gset] and [gmap].
      - exceptions are the [Raise] case of [res]; log records and calls to
        the OCR engine are events collected next to the result.
      - a file is what the program can ask of it: its size and what
        [fitz.open] returns or raises on it.
      - the tables of the Unicode database that Python consults (NFKC,
        lower case, digits) are parameters: class [UnicodeData]. *)

From Stdlib Require Import ZArith NArith Lia SpecFloat Zpower Ascii String DecimalString.
From stdpp Require Import gmap list.

Local Open Scope Z_scope.

(* ================================================================== *)
(** * Part I: the embedding *)
(* ================================================================== *)

(** ** Outcomes of a computation *)

Inductive exn : Type :=
  | ZeroDivisionError
  | OverflowError
  | ValueError
  | IndexError
  | EmptyFileError    (* PyMuPDF: the file has no bytes *)
  | FileDataError.    (* PyMuPDF: the file is no document *)

(** A value, an exception, or a loop that was still running when the
    iterations allotted to it were used up. *)
Inductive res (A : Type) : Type :=
  | Ok (a : A)
  | Raise (e : exn)
  | Unfinished.
Arguments Ok {A} a.
Arguments Raise {A} e.
Arguments Unfinished {A}.

Definition res_bind {A B} (x : res A) (f : A -> res B) : res B :=
  match x with
  | Ok a => f a
  | Raise e => Raise e
  | Unfinished => Unfinished
  end.

Declare Scope res_scope.
Delimit Scope res_scope with res.
Notation "'let?' x ':=' e 'in' k" := (res_bind e (fun x => k))
  (at level 10, x name, e at level 100, k at level 200) : res_scope.

(** ** Python strings *)

Module PyStr.

(** A Python [str] is a sequence of code points. *)
Abbreviation char := N (only parsing).
Abbreviation str := (list N) (only parsing).

(** An ASCII literal as a [str]. *)
Definition py (s : string) : str := map N_of_ascii (list_ascii_of_string s).

Definition NL : char := 10%N.

(** [str.isspace] on one character, which is also the class [\s] of [re]
    for [str] patterns: the code points U+0009-000D, U+001C-001F, U+0020,
    U+0085, U+00A0, U+1680, U+2000-200A, U+2028, U+2029, U+202F, U+205F
    and U+3000. *)
Definition isspace (c : char) : bool :=
  ((9 <=? c) && (c <=? 13) || (28 <=? c) && (c <=? 32) || (c =? 133)
   || (c =? 160) || (c =? 5760) || (8192 <=? c) && (c <=? 8202)
   || (c =? 8232) || (c =? 8233) || (c =? 8239) || (c =? 8287)
   || (c =? 12288))%N.

Fixpoint lstrip (s : str) : str :=
  match s with
  | c :: t => if isspace c then lstrip t else s
  | [] => []
  end.

Definition rstrip (s : str) : str := rev (lstrip (rev s)).

Definition strip (s : str) : str := rstrip (lstrip s).

(** [s.split(sep)] for a one-character separator: never the empty list. *)
Fixpoint split (sep : char) (s : str) : list str :=
  match s with
  | [] => [[]]
  | c :: t =>
      if (c =? sep)%N then [] :: split sep t
      else match split sep t with
           | l :: ls => (c :: l) :: ls
           | [] => [[c]]
           end
  end.

(** [sep.join(parts)]. *)
Fixpoint join (sep : str) (parts : list str) : str :=
  match parts with
  | [] => []
  | [p] => p
  | p :: ps => p ++ sep ++ join sep ps
  end.

Fixpoint startswith (s pre : str) : bool :=
  match pre, s with
  | [], _ => true
  | p :: pre', c :: s' => (c =? p)%N && startswith s' pre'
  | _ :: _, [] => false
  end.

(** [text.replace(old, new)] for a non-empty [old]: the occurrences are
    taken from the left and do not overlap.  [skip] counts the characters
    of an occurrence that are still to be passed over. *)
Fixpoint replace_from (old new text : str) (skip : nat) : str :=
  match text with
  | [] => []
  | c :: t =>
      match skip with
      | S k => replace_from old new t k
      | O =>
          if startswith text old
          then new ++ replace_from old new t (length old - 1)
          else c :: replace_from old new t 0
      end
  end.

(** With an empty [old], Python puts [new] around every character. *)
Definition replace (old new text : str) : str :=
  match old with
  | [] => new ++ concat (map (fun c => c :: new) text)
  | _ :: _ => replace_from old new text 0
  end.

(** What [join] puts after the first part. *)
Definition join_tail (ps : list str) : str :=
  match ps with [] => [] | _ :: _ => NL :: join [NL] ps end.


(** [str(n)] for an [int]. *)
Definition str_of_int (n : Z) : str := py (NilZero.string_of_int (Z.to_int n)).

(** Truth value of a [str]: non-empty. *)
Definition truthy (s : str) : bool :=
  match s with [] => false | _ :: _ => true end.

(** A string of white space only (the empty string is one). *)
Definition blank (s : str) : Prop := Forall (fun c => isspace c = true) s.

End PyStr.
Import PyStr.

(** ** Python numbers *)

Module PyNum.

(** Binary64. *)
Definition prec : Z := 53.
Definition emax : Z := 1024.
Definition emin : Z := SpecFloat.emin prec emax.

Abbreviation float := spec_float (only parsing).

(** The value of an arithmetic expression: an [int] or a [float]. *)
Inductive num : Type :=
  | Int (z : Z)
  | Float (f : float).

(** An integer as an unrounded binary number (exponent 0). *)
Definition exact (z : Z) : float :=
  match z with
  | Z0 => S754_zero false
  | Zpos p => S754_finite false p 0
  | Zneg p => S754_finite true p 0
  end.

(** [float(z)]: rounded to nearest even; too large an [int] raises. *)
Definition float_of_int (z : Z) : res float :=
  match binary_normalize prec emax z 0 false with
  | S754_infinity _ => Raise OverflowError
  | f => Ok f
  end.

(** [a / b] on two [int]s: the correctly rounded quotient. *)
Definition int_truediv (a b : Z) : res float :=
  if b =? 0 then Raise ZeroDivisionError
  else match SFdiv prec emax (exact a) (exact b) with
       | S754_infinity _ => Raise OverflowError
       | f => Ok f
       end.

Definition is_zero (f : float) : bool :=
  match f with S754_zero _ => true | _ => false end.

(** [x / y] on two [float]s. *)
Definition float_truediv (x y : float) : res float :=
  if is_zero y then Raise ZeroDivisionError else Ok (SFdiv prec emax x y).

Definition to_float (x : num) : res float :=
  match x with
  | Int z => float_of_int z
  | Float f => Ok f
  end.

(** The operator [/]. *)
Definition truediv (x y : num) : res float :=
  match x, y with
  | Int a, Int b => int_truediv a b
  | _, _ =>
      (let? fx := to_float x in
       let? fy := to_float y in
       float_truediv fx fy)%res
  end.

(** The operator [*]. *)
Definition mul (x y : num) : res num :=
  match x, y with
  | Int a, Int b => Ok (Int (a * b))
  | _, _ =>
      (let? fx := to_float x in
       let? fy := to_float y in
       Ok (Float (SFmul prec emax fx fy)))%res
  end.

(** [int(f)]: truncation toward zero. *)
Definition int_of_float (f : float) : res Z :=
  match f with
  | S754_zero _ => Ok 0
  | S754_finite s m e =>
      let a := match e with
               | Zneg p => Z.pos m / 2 ^ Z.pos p
               | _ => Z.pos m * 2 ^ e
               end in
      Ok (if s then - a else a)
  | S754_infinity _ => Raise OverflowError
  | S754_nan => Raise ValueError
  end.

(** Exact order between an [int] and a [float] ([None] for a NaN). *)
Definition compare_int_float (z : Z) (f : float) : option comparison :=
  match f with
  | S754_nan => None
  | S754_infinity s => Some (if s then Gt else Lt)
  | S754_zero _ => Some (z ?= 0)
  | S754_finite s m e =>
      let v := if s then Z.neg m else Z.pos m in
      Some match e with
           | Zneg p => (z * 2 ^ Z.pos p ?= v)
           | _ => (z ?= v * 2 ^ e)
           end
  end.

Definition compare (x y : num) : option comparison :=
  match x, y with
  | Int a, Int b => Some (a ?= b)
  | Int a, Float g => compare_int_float a g
  | Float f, Int b => option_map CompOpp (compare_int_float b f)
  | Float f, Float g => SFcompare f g
  end.

(** The operators [>] and [>=]. *)
Definition gt (x y : num) : bool :=
  match compare x y with Some Gt => true | _ => false end.
Definition ge (x y : num) : bool :=
  match compare x y with Some (Gt | Eq) => true | _ => false end.

(** [max(a, b)]: [b] when [b > a], otherwise [a]. *)
Definition max2 (a b : num) : num := if gt b a then b else a.

(** [float(n)] for the length of a list: a length is below 2^63, so the
    conversion cannot overflow. *)
Definition float_of_len (n : nat) : float :=
  binary_normalize prec emax (Z.of_nat n) 0 false.

(** The literal [0.05]: 0x1999999999999A * 2^-57. *)
Definition f0_05 : float := S754_finite false 7205759403792794 (-57).

End PyNum.

(** ** What the program gets from PyMuPDF and from the OCR engine *)

Module Fitz.

(** A page of an open document: its embedded text layer, [page.get_text()],
    and what rendering it and running Tesseract on the image gives for a
    language; [None] when either step raises. *)
Record Page := {
  get_text : str;
  ocr : str -> option str
}.

(** An open document. *)
Record Document := {
  doc_pages : list Page
}.

Definition page_count (doc : Document) : Z := Z.of_nat (length (doc_pages doc)).

(** [doc[i]]: a negative index counts from the end. *)
Definition getitem (doc : Document) (i : Z) : res Page :=
  if i <? page_count doc then
    match doc_pages doc !! Z.to_nat (i mod page_count doc) with
    | Some page => Ok page
    | None => Raise IndexError
    end
  else Raise IndexError.

(** The file at [file_path], which exists: its size,
    [os.path.getsize(file_path)], and what PyMuPDF makes of it, a document
    or an exception. *)
Record File := {
  getsize : Z;
  opens_as : Document + exn
}.

(** [fitz.open(file_path)] *)
Definition fitz_open (file_path : File) : res Document :=
  match opens_as file_path with
  | inl doc => Ok doc
  | inr e => Raise e
  end.


End Fitz.

(** ** chunking.py: class PDFChunker *)

Module PDFChunker.
Import PyNum.

Record t := { chunk_size_mb : Z; chunk_size_bytes : Z }.

(** [__init__] *)
Definition init (chunk_size_mb : Z) : t :=
  {| chunk_size_mb := chunk_size_mb;
     chunk_size_bytes := chunk_size_mb * 1024 * 1024 |}.

(** One entry of the list returned by [create_chunks]. *)
Record Chunk := {
  start_page : Z;
  end_page : Z;
  page_count : Z;
  estimated_size_mb : float
}.

(** The [while current_page < total_pages] loop, run for at most [fuel]
    iterations. *)
Fixpoint chunk_loop (fuel : nat) (total_pages pages_per_chunk : Z)
    (avg_page_size : num) (current_page : Z) (chunks : list Chunk)
    : res (list Chunk) :=
  if current_page <? total_pages then
    match fuel with
    | O => Unfinished
    | S fuel' =>
        let end_page := Z.min (current_page + pages_per_chunk - 1) (total_pages - 1) in
        (let? size := mul (Int (end_page - current_page + 1)) avg_page_size in
         let? mb := truediv size (Int (1024 * 1024)) in
         chunk_loop fuel' total_pages pages_per_chunk avg_page_size
           (end_page + 1)
           (chunks ++ [ {| start_page := current_page;
                           end_page := end_page;
                           page_count := end_page - current_page + 1;
                           estimated_size_mb := mb |} ]))%res
    end
  else Ok chunks.

(** [avg_page_size = file_size / total_pages if total_pages > 0 else file_size] *)
Definition avg_page_size (total_pages file_size : Z) : res num :=
  if total_pages >? 0
  then (let? q := truediv (Int file_size) (Int total_pages) in Ok (Float q))%res
  else Ok (Int file_size).

(** [pages_per_chunk = max(1, int(self.chunk_size_bytes / avg_page_size))] *)
Definition pages_per_chunk (self : t) (avg : num) : res Z :=
  (let? q := truediv (Int (chunk_size_bytes self)) avg in
   let? n := int_of_float q in
   Ok (Z.max 1 n))%res.

(** [create_chunks] from line 38 on, on the two values it has read from
    the file: [doc.page_count] and [os.path.getsize(file_path)].  Every
    iteration of the loop moves [current_page] forward when
    [pages_per_chunk >= 1], so [total_pages] iterations are given. *)
Definition create_chunks (self : t) (total_pages file_size : Z)
    : res (list Chunk) :=
  (let? avg := avg_page_size total_pages file_size in
   let? ppc := pages_per_chunk self avg in
   chunk_loop (Z.to_nat total_pages) total_pages ppc avg 0 [])%res.

(** [create_chunks(file_path)] from its first line: the file is opened,
    the two values are read, and the chunks are computed from them. *)
Definition create_chunks_of_file (self : t) (file_path : Fitz.File)
    : res (list Chunk) :=
  (let? doc := Fitz.fitz_open file_path in
   let total_pages := Fitz.page_count doc in
   let file_size := Fitz.getsize file_path in
   create_chunks self total_pages file_size)%res.

(** *** Vocabulary of the specification *)

(** The chunks [cs] follow one another from page [first] up to page [last]. *)
Fixpoint tiles (first : Z) (cs : list Chunk) (last : Z) : Prop :=
  match cs with
  | [] => first = last + 1
  | c :: rest =>
      start_page c = first /\ first <= end_page c
      /\ page_count c = end_page c - first + 1
      /\ tiles (end_page c + 1) rest last
  end.

(** The property of the specification: every page in exactly one chunk. *)
Definition exact_cover (P : Z) (chunks : list Chunk) : Prop :=
  (forall i c, chunks !! i = Some c ->
     start_page c <= end_page c /\ page_count c = end_page c - start_page c + 1)
  /\ (forall i c d, chunks !! i = Some c -> chunks !! S i = Some d ->
        start_page d = end_page c + 1)
  /\ (exists c, head chunks = Some c /\ start_page c = 0)
  /\ (exists c, last chunks = Some c /\ end_page c = P - 1)
  /\ foldr (fun c n => page_count c + n) 0 chunks = P.

(** The chunk that the loop appends when it is at [current_page]. *)
Definition chunk_at (total_pages pages_per_chunk : Z) (avg_page_size : num)
    (current_page : Z) (c : Chunk) : Prop :=
  start_page c = current_page
  /\ end_page c = Z.min (current_page + pages_per_chunk - 1) (total_pages - 1)
  /\ page_count c = end_page c - current_page + 1
  /\ (let? size := mul (Int (page_count c)) avg_page_size in
      truediv size (Int (1024 * 1024)))%res = Ok (estimated_size_mb c).

(** [get_page_count] *)
Definition get_page_count (file_path : Fitz.File) : res Z :=
  (let? doc := Fitz.fitz_open file_path in Ok (Fitz.page_count doc))%res.

End PDFChunker.

(** ** The regular expressions of module [re] that the program uses *)

Module Re.

(** The patterns of the program repeat single characters or character
    classes only, so [Star] takes a class. *)
Inductive re : Type :=
  | Eps
  | Chr (p : char -> bool)      (* a character of the class [p] *)
  | Star (p : char -> bool)     (* [p*], greedy *)
  | Cat (r1 r2 : re)
  | Bol                         (* [^] *)
  | Eol.                        (* [$] *)

Definition only (c : char) : char -> bool := fun x => (x =? c)%N.
(** [.] matches everything but a newline. *)
Definition dot : char -> bool := fun x => negb (x =? NL)%N.

(** [p+] *)
Definition Plus (p : char -> bool) : re := Cat (Chr p) (Star p).

Fixpoint seq (rs : list re) : re :=
  match rs with
  | [] => Eps
  | [r] => r
  | r :: rs' => Cat r (seq rs')
  end.

(** A literal string. *)
Definition lit (s : str) : re := seq (map (fun c => Chr (only c)) s).

Section Matcher.
Context {A : Type}.

(** Greedy repetition with backtracking: the longest run first.  [bol]
    tells whether the cursor is at index 0 of the subject. *)
Fixpoint star (p : char -> bool) (bol : bool) (s : str)
    (k : bool -> str -> option A) : option A :=
  match s with
  | c :: t =>
      if p c then
        match star p false t k with
        | Some a => Some a
        | None => k bol s
        end
      else k bol s
  | [] => k bol s
  end.

(** [run r bol s k] matches [r] at the head of [s] and hands the rest of
    the subject to [k]; the alternatives are tried in the order of the
    backtracking matcher of [re]. *)
Fixpoint run (r : re) (bol : bool) (s : str)
    (k : bool -> str -> option A) : option A :=
  match r with
  | Eps => k bol s
  | Chr p =>
      match s with
      | c :: t => if p c then k false t else None
      | [] => None
      end
  | Star p => star p bol s k
  | Cat r1 r2 => run r1 bol s (fun b s' => run r2 b s' k)
  | Bol => if bol then k bol s else None
  | Eol =>
      match s with
      | [] => k bol s
      | [c] => if (c =? NL)%N then k bol s else None
      | _ => None
      end
  end.
End Matcher.

(** What is left of the subject after the match at its head. *)
Definition match_rest (r : re) (bol : bool) (s : str) : option str :=
  run r bol s (fun _ rest => Some rest).

Definition match_len (r : re) (bol : bool) (s : str) : option nat :=
  option_map (fun rest => (length s - length rest)%nat) (match_rest r bol s).

(** [re.match(r, s)] as a truth value. *)
Definition matches (r : re) (s : str) : bool :=
  match match_rest r true s with Some _ => true | None => false end.

(** [re.search(r, s)] as a truth value. *)
Fixpoint search_from (r : re) (bol : bool) (s : str) : bool :=
  match match_rest r bol s with
  | Some _ => true
  | None =>
      match s with
      | [] => false
      | _ :: t => search_from r false t
      end
  end.
Definition search (r : re) (s : str) : bool := search_from r true s.

(** [re.sub(r, repl, s)] for a replacement without group references.
    [skip] counts the characters of the last match still to be passed
    over.  An empty match puts [repl] in front of the character it
    precedes, as [re] does since Python 3.7. *)
Fixpoint sub_from (r : re) (repl : str) (bol : bool) (s : str) (skip : nat) : str :=
  match s with
  | [] =>
      match skip, match_len r bol [] with
      | O, Some _ => repl
      | _, _ => []
      end
  | c :: t =>
      match skip with
      | S n => sub_from r repl false t n
      | O =>
          match match_len r bol s with
          | Some (S n) => repl ++ sub_from r repl false t n
          | Some O => repl ++ c :: sub_from r repl false t 0
          | None => c :: sub_from r repl false t 0
          end
      end
  end.
Definition sub (r : re) (repl : str) (s : str) : str := sub_from r repl true s 0.

(** What a pattern matches.  [den r bol w rest bol']: the pattern [r]
    matches the characters [w] when they are followed by [rest], the
    cursor being at index 0 of the subject exactly when [bol] holds;
    [bol'] tells the same of the cursor after [w]. *)
Inductive den : re -> bool -> str -> str -> bool -> Prop :=
  | den_eps bol rest : den Eps bol [] rest bol
  | den_chr p c bol rest : p c = true -> den (Chr p) bol [c] rest false
  | den_star_nil p bol rest : den (Star p) bol [] rest bol
  | den_star_cons p c w bol rest :
      p c = true -> Forall (fun x => p x = true) w -> den (Star p) bol (c :: w) rest false
  | den_cat r1 r2 bol w1 w2 rest b1 b2 :
      den r1 bol w1 (w2 ++ rest) b1 -> den r2 b1 w2 rest b2 ->
      den (Cat r1 r2) bol (w1 ++ w2) rest b2
  | den_bol rest : den Bol true [] rest true
  | den_eol bol rest : rest = [] \/ rest = [NL] -> den Eol bol [] rest bol.

End Re.

(** ** The Unicode tables consulted by the program *)

(** They belong to the Python runtime, not to the program. *)
Class UnicodeData := {
  (** [unicodedata.normalize('NFKC', s)] *)
  nfkc : str -> str;
  nfkc_empty : nfkc [] = [];
  (** [s.lower()] *)
  lower : str -> str;
  (** the class [\d] of [re] *)
  isdecimal : char -> bool;
  (** [c.isdigit()] for one character *)
  isdigit : char -> bool;
  (** [ieq c x]: the pattern character [c] matches [x] under [re.IGNORECASE] *)
  ieq : char -> char -> bool
}.

(** ** text_normalizer.py: class TextNormalizer *)

Module TextNormalizer.
Import Re.

(** The dictionary [LIGATURES], in insertion order.  The literal lists every
    key twice, once escaped and once verbatim; a repeated key keeps its
    first position. *)
Definition LIGATURES : list (str * str) :=
  [ ([64256%N], py "ff");
    ([64257%N], py "fi");
    ([64258%N], py "fl");
    ([64259%N], py "ffi");
    ([64260%N], py "ffl");
    ([64261%N], py "ft");
    ([64262%N], py "st") ].

(** The characters that [LIGATURES] replaces. *)
Definition ligature_chars : list N := map (fun kv => default 0%N (head kv.1)) LIGATURES.

Definition normalize_ligatures (text : str) : str :=
  fold_left (fun text '(ligature, replacement) => replace ligature replacement text)
    LIGATURES text.

Definition normalize_unicode `{UnicodeData} (text : str) : str := nfkc text.

(** [r' +'] *)
Definition re_spaces : re := Plus (only 32%N).
(** [r'\n\s*\n\s*\n+'] *)
Definition re_blank_lines : re :=
  seq [Chr (only NL); Star isspace; Chr (only NL); Star isspace; Plus (only NL)].
(** [r'-\s*\n\s*'] *)
Definition re_hyphen_break : re :=
  seq [Chr (only 45%N); Star isspace; Chr (only NL); Star isspace].

Definition clean_whitespace (text : str) : str :=
  let text := sub re_spaces (py " ") text in
  let text := sub re_blank_lines [NL; NL] text in
  let lines := map rstrip (split NL text) in
  let text := join [NL] lines in
  strip text.

Definition remove_soft_hyphens (text : str) : str :=
  let text := sub re_hyphen_break [] text in
  let text := replace [173%N] [] text in
  text.

(** The loop over [fixes] is commented out in the source. *)
Definition fix_common_ocr_errors (text : str) : str := text.

Definition normalize `{UnicodeData} (text : str)
    (ligatures unicode_norm whitespace soft_hyphens ocr_errors : bool) : str :=
  let text := if ligatures then normalize_ligatures text else text in
  let text := if unicode_norm then normalize_unicode text else text in
  let text := if soft_hyphens then remove_soft_hyphens text else text in
  let text := if whitespace then clean_whitespace text else text in
  let text := if ocr_errors then fix_common_ocr_errors text else text in
  text.

(** The text after the first two steps of [normalize]: the ligatures are
    expanded, then the text is put in the form NFKC. *)
Definition expanded `{UnicodeData} (text : str) (ligatures unicode_norm : bool) : str :=
  let text := if ligatures then normalize_ligatures text else text in
  if unicode_norm then normalize_unicode text else text.

(** *** Vocabulary of the properties of [clean_whitespace] *)

(** No two spaces in a row. *)
Fixpoint nodouble (s : str) : Prop :=
  match s with
  | c :: t => (c = 32%N -> head t <> Some 32%N) /\ nodouble t
  | [] => True
  end.

(** The number of newlines in the white space that [t] starts with. *)
Fixpoint lead_nl (t : str) : nat :=
  match t with
  | c :: t' =>
      if (c =? NL)%N then S (lead_nl t')
      else if isspace c then lead_nl t' else O
  | [] => O
  end.

(** No newline is followed by white space with two more newlines. *)
Fixpoint norun3 (s : str) : Prop :=
  match s with
  | c :: t => (c = NL -> (lead_nl t < 2)%nat) /\ norun3 t
  | [] => True
  end.

(** The rest of the line is white space. *)
Fixpoint eol_blank (t : str) : bool :=
  match t with
  | c :: t' => if (c =? NL)%N then true else isspace c && eol_blank t'
  | [] => true
  end.

(** [rstrip] applied to every line, character by character. *)
Fixpoint rstrip_lines (s : str) : str :=
  match s with
  | c :: t =>
      if (c =? NL)%N then NL :: rstrip_lines t
      else if isspace c && eol_blank t then rstrip_lines t
      else c :: rstrip_lines t
  | [] => []
  end.

(** No line ends with white space. *)
Fixpoint trailfree (s : str) : Prop :=
  match s with
  | c :: t => (c <> NL -> isspace c = true -> eol_blank t = false) /\ trailfree t
  | [] => True
  end.

(** The texts that [clean_whitespace] leaves unchanged. *)
Definition clean (s : str) : Prop :=
  nodouble s /\ norun3 s /\ trailfree s /\ strip s = s.

(** The continuations of the matcher inside [re_blank_lines]: what
    follows the first newline, the first white space, the second newline
    and the second white space. *)
Definition kend : bool -> str -> option str := fun _ rest => Some rest.
(** [\n+], then [\s*\n+], then [\n\s*\n+], then [\s*\n\s*\n+] *)
Definition K3 (b : bool) (x : str) : option str := run (Plus (only NL)) b x kend.
Definition P2 (b : bool) (x : str) : option str := star isspace b x K3.
Definition K1 (b : bool) (x : str) : option str :=
  run (Chr (only NL)) b x (fun b' y => P2 b' y).
Definition P1 (b : bool) (x : str) : option str := star isspace b x K1.

(** [re.sub(r'\n\s*\n\s*\n+', '\n\n', s)] *)
Abbreviation squeeze s := (sub_from re_blank_lines [NL; NL] false s 0).

(** *** Vocabulary of the properties of [remove_soft_hyphens] *)

(** No hyphen is followed by white space with a newline. *)
Fixpoint nobreak (s : str) : Prop :=
  match s with
  | c :: t => (c = 45%N -> lead_nl t = O) /\ nobreak t
  | [] => True
  end.

(** [\n\s*], at the end of [re_hyphen_break]. *)
Definition K_break (b : bool) (x : str) : option str :=
  run (Cat (Chr (only NL)) (Star isspace)) b x kend.

(** [re.sub(r'-\s*\n\s*', '', s)] *)
Abbreviation unbreak s := (sub_from re_hyphen_break [] false s 0).

(** The text starts with a visible character, or is empty. *)
Definition starts_visible (s : str) : Prop :=
  forall c, head s = Some c -> isspace c = false.


(** The characters of a text that are not white space, in order. *)
Definition visible (s : str) : str := List.filter (fun c => negb (isspace c)) s.

(** The characters that [remove_soft_hyphens] never deletes. *)
Definition solid (c : char) : bool :=
  negb (isspace c || (c =? 45)%N || (c =? 173)%N).

(** [d.get(k)] on a dictionary given by its items. *)
Fixpoint dict_get (d : list (str * str)) (k : str) : option str :=
  match d with
  | (k', v) :: d' => if decide (k' = k) then Some v else dict_get d' k
  | [] => None
  end.

(** [LIGATURES.get(c, c)] *)
Definition expand_ligature (c : char) : str := default [c] (dict_get LIGATURES [c]).

(** Every character that a match of [r] consumes is of the class [q]. *)
Fixpoint consumes_only (q : char -> bool) (r : re) : Prop :=
  match r with
  | Chr p | Star p => forall c, p c = true -> q c = true
  | Cat r1 r2 => consumes_only q r1 /\ consumes_only q r2
  | Eps | Bol | Eol => True
  end.

End TextNormalizer.

(** ** text_filter.py: class TextFilter *)

Module TextFilter.
Import Re PyNum.

Record t := { min_repetition_threshold : Z }.

(** [__init__] *)
Definition init (min_repetition_threshold : Z) : t :=
  {| min_repetition_threshold := min_repetition_threshold |}.

(** The body of [for line in unique_lines]. *)
Definition count_line (line : str) (line_counter : gmap str nat) : gmap str nat :=
  let line_stripped := strip line in
  if truthy line_stripped && (length line_stripped <? 200)%nat
  then <[ line_stripped := S (default O (line_counter !! line_stripped)) ]> line_counter
  else line_counter.

(** The body of [for page in pages]. *)
Definition count_page (line_counter : gmap str nat) (page : str) : gmap str nat :=
  let lines := split NL page in
  let unique_lines : gset str := list_to_set lines in
  set_fold count_line line_counter unique_lines.

(** [max(self.min_repetition_threshold, total_pages * 0.05)] *)
Definition threshold (self : t) (total_pages : nat) : num :=
  max2 (Int (min_repetition_threshold self))
       (Float (SFmul prec emax (float_of_len total_pages) f0_05)).

Definition detect_repetitive_lines (self : t) (pages : list str) : gset str :=
  let line_counter := foldl count_page ∅ pages in
  let total_pages := length pages in
  let threshold := threshold self total_pages in
  dom (filter (fun '(line, count) => ge (Int (Z.of_nat count)) threshold = true)
         line_counter).

(** A trimmed line that [detect_repetitive_lines] counts: not empty and
    shorter than 200 characters. *)
Definition counted (k : str) : bool := truthy k && (length k <? 200)%nat.

(** The number of distinct lines of [page] that are [k] once trimmed. *)
Definition variants (k : str) (page : str) : nat :=
  size (filter (fun l => strip l = k) (list_to_set (split NL page) : gset str)).

(** The same over the pages of a document. *)
Definition occurrences (k : str) (pages : list str) : nat :=
  sum_list (variants k <$> pages).

(** The number of pages that have a line whose trimmed form is [k]. *)
Definition pages_with (k : str) (pages : list str) : nat :=
  length (filter (fun page => k ∈ strip <$> split NL page) pages).

(** [total_pages * 0.05] *)
Definition five_percent (total_pages : Z) : float :=
  SFmul prec emax (binary_normalize prec emax total_pages 0 false) f0_05.

(** Whether the integers that are [>= total_pages * 0.05] are those from
    the twentieth of [total_pages], rounded up. *)
Definition five_percent_exact (total_pages : Z) : bool :=
  let c := (total_pages + 19) / 20 in
  ge (Int c) (Float (five_percent total_pages))
  && negb (ge (Int (c - 1)) (Float (five_percent total_pages))).

(** The same for the [n] page counts from [total_pages] on. *)
Fixpoint five_percent_exact_from (n : nat) (total_pages : Z) : bool :=
  match n with
  | O => true
  | S n' => five_percent_exact total_pages && five_percent_exact_from n' (total_pages + 1)
  end.

(** A line that [filter_page] keeps: a line of the page, with a visible
    character. *)
Definition kept_line (l : str) : Prop := (NL ∉ l) /\ ~ blank l.

Section WithUnicode.
Context `{UnicodeData}.

Definition digits4 : list re :=
  [Chr isdecimal; Chr isdecimal; Chr isdecimal; Chr isdecimal].

Definition copyright_patterns : list re :=
  [ seq ([Chr (only 169%N); Star dot] ++ digits4);        (* ©.*\d{4} *)
    seq ([lit (py "copyright"); Star dot] ++ digits4);     (* copyright.*\d{4} *)
    lit (py "all rights reserved");
    lit (py "tutti i diritti riservati");
    lit (py "tous droits r" ++ [233%N] ++ py "serv" ++ [233%N] ++ py "s");
    lit (py "alle rechte vorbehalten");
    lit (py "todos los derechos reservados") ].

Definition is_copyright_line (line : str) : bool :=
  let line_lower := strip (lower line) in
  existsb (fun pattern => search pattern line_lower) copyright_patterns.

(** A literal under [re.IGNORECASE]. *)
Definition lit_i (s : str) : re := seq (map (fun c => Chr (ieq c)) s).

Definition page_patterns : list re :=
  [ seq [Bol; lit_i (py "page"); Plus isspace; Plus isdecimal; Eol];
    seq [Bol; lit_i (py "pagina"); Plus isspace; Plus isdecimal; Eol];
    seq [Bol; Plus isdecimal; Star isspace; Chr (only 47%N); Star isspace;
         Plus isdecimal; Eol];
    seq [Bol; Chr (only 45%N); Star isspace; Plus isdecimal; Star isspace;
         Chr (only 45%N); Eol] ].

(** [s.isdigit()] *)
Definition str_isdigit (s : str) : bool := truthy s && forallb isdigit s.

Definition is_page_number (line : str) : bool :=
  let line_stripped := strip line in
  if str_isdigit line_stripped then true
  else existsb (fun pattern => matches pattern line_stripped) page_patterns.

(** The phrases of [copyright_patterns]. *)
Definition copyright_phrases : list str :=
  [ py "all rights reserved";
    py "tutti i diritti riservati";
    py "tous droits r" ++ [233%N] ++ py "serv" ++ [233%N] ++ py "s";
    py "alle rechte vorbehalten";
    py "todos los derechos reservados" ].

Definition decimals (w : str) : Prop := Forall (fun c => isdecimal c = true) w.

(** Anything without a newline, then four decimal digits: [.*\d{4}]. *)
Definition ends_in_year (w : str) : Prop :=
  exists b d, w = b ++ d /\ (NL ∉ b) /\ length d = 4%nat /\ decimals d.

(** [w] is [s] up to case, as [re.IGNORECASE] has it. *)
Definition same_letters (s w : str) : Prop :=
  Forall2 (fun c x => ieq c x = true) s w.

(** The body of [for line in lines] in [filter_page]. *)
Definition keep_line (repetitive_lines : gset str) (remove_copyright : bool)
    (filtered_lines : list str) (line : str) : list str :=
  let line_stripped := strip line in
  if negb (truthy line_stripped) then filtered_lines
  else if bool_decide (line_stripped ∈ repetitive_lines) then filtered_lines
  else if remove_copyright && is_copyright_line line then filtered_lines
  else if is_page_number line then filtered_lines
  else filtered_lines ++ [line].

Definition filter_page (page_text : str) (repetitive_lines : gset str)
    (remove_copyright : bool) : str :=
  let lines := split NL page_text in
  let filtered_lines := foldl (keep_line repetitive_lines remove_copyright) [] lines in
  let result := join [NL] filtered_lines in
  let result := sub TextNormalizer.re_blank_lines [NL; NL] result in
  strip result.

(** [filter_document] returns the filtered pages; the second component
    is [self] after the call, whose threshold [min_threshold] overrides
    when it is given and not 0. *)
Definition filter_document (self : t) (pages : list str)
    (remove_repetitive remove_copyright : bool) (min_threshold : option Z)
    : list str * t :=
  let self :=
    match min_threshold with
    | Some n => if n =? 0 then self else {| min_repetition_threshold := n |}
    | None => self
    end in
  let repetitive_lines : gset str :=
    if remove_repetitive then detect_repetitive_lines self pages else ∅ in
  let filtered_pages :=
    foldl (fun filtered_pages page =>
             let filtered := filter_page page repetitive_lines remove_copyright in
             if truthy filtered then filtered_pages ++ [filtered] else filtered_pages)
          [] pages in
  (filtered_pages, self).

(** The test of the loop of [filter_page]: the line is appended. *)
Definition passes (repetitive_lines : gset str) (remove_copyright : bool)
    (line : str) : bool :=
  truthy (strip line)
  && negb (bool_decide (strip line ∈ repetitive_lines))
  && negb (remove_copyright && is_copyright_line line)
  && negb (is_page_number line).

Definition publisher_markers : list str :=
  [ [169%N] ++ py " erickson";
    [169%N] ++ py " edizioni";
    py "www.";
    py "http://";
    py "https://" ].

(** [marker in text] *)
Fixpoint contains (text marker : str) : bool :=
  startswith text marker
  || match text with
     | _ :: text' => contains text' marker
     | [] => false
     end.

Definition is_header_footer_candidate (line : str) : bool :=
  let line_stripped := strip line in
  if (length line_stripped <? 3)%nat then true
  else if is_page_number line_stripped then true
  else if is_copyright_line line_stripped then true
  else
    let line_lower := lower line_stripped in
    existsb (fun marker => contains line_lower marker) publisher_markers.

(** The body of [for line in unique_lines] in [get_repetitive_patterns]. *)
Definition count_candidate (line : str) (line_counter : gmap str nat) : gmap str nat :=
  let line_stripped := strip line in
  if truthy line_stripped && (length line_stripped <? 200)%nat
  then if is_header_footer_candidate line_stripped
       then <[ line_stripped := S (default O (line_counter !! line_stripped)) ]> line_counter
       else line_counter
  else line_counter.

Definition get_repetitive_patterns (self : t) (pages : list str) : gmap str nat :=
  let line_counter :=
    foldl (fun line_counter page =>
             let lines := split NL page in
             let unique_lines : gset str := list_to_set lines in
             set_fold count_candidate line_counter unique_lines)
          ∅ pages in
  filter (fun '(line, count) => min_repetition_threshold self <= Z.of_nat count)
         line_counter.

End WithUnicode.
End TextFilter.

(** ** pdf_processor.py: class PDFProcessor *)

Module PDFProcessor.
Import PyNum.
Export Fitz.

(** [range(a, b)] *)
Definition range (a b : Z) : list Z := seqZ a (b - a).

(** [enumerate(l)] *)
Definition enumerate {A} (l : list A) : list (Z * A) :=
  zip (seqZ 0 (Z.of_nat (length l))) l.

(** *** Effects: what the processor does besides returning *)

Inductive event : Type :=
  | OcrCall (language : str)   (* the OCR engine was run on a page *)
  | LogError.                  (* [logger.error] *)

Definition M (A : Type) : Type := (res A * list event)%type.

Definition ret {A} (a : A) : M A := (Ok a, []).
Definition lift {A} (r : res A) : M A := (r, []).
Definition emit (e : event) : M unit := (Ok tt, [e]).
Definition bind {A B} (x : M A) (f : A -> M B) : M B :=
  match x with
  | (Ok a, l) => let '(r, l') := f a in (r, l ++ l')
  | (Raise e, l) => (Raise e, l)
  | (Unfinished, l) => (Unfinished, l)
  end.

Declare Scope proc_scope.
Delimit Scope proc_scope with proc.
Notation "x <- e ;; k" := (bind e (fun x => k))
  (at level 100, e at next level, right associativity) : proc_scope.
Notation "e ;;; k" := (bind e (fun _ => k))
  (at level 100, right associativity) : proc_scope.
Local Open Scope proc_scope.

(** *** The result dictionaries *)

Record Metadata := {
  file_size_mb : float;
  chunked : bool
}.

(** The keys [chunks_processed] and [metadata] are absent from some of the
    dictionaries. *)
Record Result := {
  text : str;
  pages : Z;
  total_chars : Z;
  chunks_processed : option Z;
  metadata : option Metadata
}.

(** *** Vocabulary of the specification *)

(** Whether the OCR engine was run. *)
Definition ocr_invoked {A} (x : M A) : bool :=
  existsb (fun e => match e with OcrCall _ => true | LogError => false end) x.2.

(** The [text] of the result that is returned, if one is. *)
Definition returned_text (x : M Result) : option str :=
  match x.1 with
  | Ok r => Some (text r)
  | _ => None
  end.

(** The text that [_extract_page_text] settles on before normalizing it. *)
Definition chosen_text (page : Page) (use_ocr : bool) (language : str) : str :=
  if use_ocr && (length (strip (get_text page)) <? 50)%nat
  then default [] (ocr page language)
  else get_text page.
(** *** The processor *)

Record t := {
  chunk_size_mb : Z;
  chunker : PDFChunker.t;
  text_filter : TextFilter.t
}.

(** [__init__]; [chunk_size_mb] is read from the environment. *)
Definition init (chunk_size_mb : Z) : t :=
  {| chunk_size_mb := chunk_size_mb;
     chunker := PDFChunker.init chunk_size_mb;
     text_filter := TextFilter.init 3 |}.

Section WithUnicode.
Context `{UnicodeData}.

Definition _ocr_page (page : Page) (language : str) : M str :=
  emit (OcrCall language) ;;;
  match ocr page language with
  | Some text => ret text
  | None => emit LogError ;;; ret []
  end.

Definition _extract_page_text (page : Page) (use_ocr : bool) (language : str)
    : M str :=
  let text := get_text page in
  text <- (if use_ocr && (length (strip text) <? 50)%nat
           then _ocr_page page language
           else ret text) ;;
  ret (TextNormalizer.normalize text true true true true false).

(** [for page_num in ...: page = doc[page_num]; text = ...;
    page_texts.append(text)] *)
Fixpoint extract_pages (doc : Document) (page_nums : list Z)
    (use_ocr : bool) (language : str) (page_texts : list str) : M (list str) :=
  match page_nums with
  | [] => ret page_texts
  | page_num :: rest =>
      page <- lift (getitem doc page_num) ;;
      text <- _extract_page_text page use_ocr language ;;
      extract_pages doc rest use_ocr language (page_texts ++ [text])
  end.

(** [f"--- Page {n} ---\n{text}"] *)
Definition page_marker (n : Z) (text : str) : str :=
  py "--- Page " ++ str_of_int n ++ py " ---" ++ [NL] ++ text.

Definition apply_filter (self : t) (page_texts : list str)
    (remove_repetitive remove_copyright : bool) : list str :=
  if remove_repetitive || remove_copyright
  then (TextFilter.filter_document (text_filter self) page_texts
          remove_repetitive remove_copyright None).1
  else page_texts.

Definition _extract_text_sync (self : t) (file_path : File) (use_ocr : bool)
    (language : str) (remove_repetitive remove_copyright : bool) : M Result :=
  doc <- lift (fitz_open file_path) ;;
  let total_pages := page_count doc in
  page_texts <- extract_pages doc (range 0 total_pages) use_ocr language [] ;;
  let page_texts := apply_filter self page_texts remove_repetitive remove_copyright in
  let all_text :=
    foldl (fun all_text '(idx, text) =>
             if truthy (strip text)
             then all_text ++ [page_marker (idx + 1) text]
             else all_text)
          [] (enumerate page_texts) in
  let combined_text := join [NL; NL] all_text in
  mb <- lift (truediv (Int (getsize file_path)) (Int (1024 * 1024))) ;;
  ret {| text := combined_text;
         pages := total_pages;
         total_chars := Z.of_nat (length combined_text);
         chunks_processed := None;
         metadata := Some {| file_size_mb := mb; chunked := false |} |}.

Definition _extract_text_range_sync (self : t) (file_path : File)
    (start_page end_page : Z) (use_ocr : bool) (language : str)
    (remove_repetitive remove_copyright : bool) : M Result :=
  doc <- lift (fitz_open file_path) ;;
  page_texts <- extract_pages doc
                  (range start_page (Z.min (end_page + 1) (page_count doc)))
                  use_ocr language [] ;;
  let page_texts := apply_filter self page_texts remove_repetitive remove_copyright in
  let all_text :=
    foldl (fun all_text '(idx, text) =>
             if truthy (strip text)
             then let page_num := start_page + idx in
                  all_text ++ [page_marker (page_num + 1) text]
             else all_text)
          [] (enumerate page_texts) in
  let combined_text := join [NL; NL] all_text in
  ret {| text := combined_text;
         pages := end_page - start_page + 1;
         total_chars := Z.of_nat (length combined_text);
         chunks_processed := None;
         metadata := None |}.

(** The worker pool runs one call at a time for a request, so
    [_process_whole] and [_process_page_range] are the calls they wrap. *)
Definition _process_whole := _extract_text_sync.
Definition _process_page_range := _extract_text_range_sync.

(** [for chunk_info in chunks] with its three accumulators; the file is
    opened again for every chunk. *)
Fixpoint process_chunks (self : t) (file_path : File)
    (chunks : list PDFChunker.Chunk) (use_ocr : bool) (language : str)
    (remove_repetitive remove_copyright : bool)
    (all_text : list str) (total_pages chunks_processed : Z)
    : M (list str * Z * Z) :=
  match chunks with
  | [] => ret (all_text, total_pages, chunks_processed)
  | chunk_info :: rest =>
      result <- _process_page_range self file_path
                  (PDFChunker.start_page chunk_info)
                  (PDFChunker.end_page chunk_info)
                  use_ocr language remove_repetitive remove_copyright ;;
      process_chunks self file_path rest use_ocr language
        remove_repetitive remove_copyright
        (all_text ++ [text result]) (total_pages + pages result)
        (chunks_processed + 1)
  end.

Definition _process_chunked (self : t) (file_path : File) (use_ocr : bool)
    (language : str) (remove_repetitive remove_copyright : bool) : M Result :=
  chunks <- lift (PDFChunker.create_chunks_of_file (chunker self) file_path) ;;
  acc <- process_chunks self file_path chunks use_ocr language
           remove_repetitive remove_copyright [] 0 0 ;;
  let '(all_text, total_pages, chunks_processed) := acc in
  let combined_text := join [NL; NL] all_text in
  mb <- lift (truediv (Int (getsize file_path)) (Int (1024 * 1024))) ;;
  ret {| text := combined_text;
         pages := total_pages;
         total_chars := Z.of_nat (length combined_text);
         chunks_processed := Some chunks_processed;
         metadata := Some {| file_size_mb := mb; chunked := true |} |}.

Definition process_pdf (self : t) (file_path : File) (use_ocr chunk_processing : bool)
    (language : str) (remove_repetitive remove_copyright : bool) : M Result :=
  file_size_mb <- lift (truediv (Int (getsize file_path)) (Int (1024 * 1024))) ;;
  if chunk_processing && gt (Float file_size_mb) (Int (chunk_size_mb self))
  then _process_chunked self file_path use_ocr language remove_repetitive remove_copyright
  else _process_whole self file_path use_ocr language remove_repetitive remove_copyright.

(** What [_extract_page_text] does besides returning: the OCR engine is
    run on a page whose text layer is short, and its failure is logged. *)
Definition page_events (page : Page) (use_ocr : bool) (language : str) : list event :=
  if use_ocr && (length (strip (get_text page)) <? 50)%nat
  then OcrCall language :: match ocr page language with
                           | Some _ => []
                           | None => [LogError]
                           end
  else [].

(** The text that [_extract_page_text] returns. *)
Definition page_text (page : Page) (use_ocr : bool) (language : str) : str :=
  TextNormalizer.normalize (chosen_text page use_ocr language) true true true true false.

(** The texts with their markers, the first one being numbered [n]; a
    blank text takes a number and gives no entry. *)
Fixpoint marked (n : Z) (page_texts : list str) : list str :=
  match page_texts with
  | [] => []
  | text :: rest =>
      (if truthy (strip text) then [page_marker n text] else []) ++ marked (n + 1) rest
  end.

(** The pages that a range of page numbers covers. *)
Definition pages_in (doc : Document) (start_page end_page : Z) : list Page :=
  take (Z.to_nat (Z.min (end_page + 1) (page_count doc) - start_page))
       (drop (Z.to_nat start_page) (doc_pages doc)).

(** The result of [_extract_text_range_sync] for a chunk. *)
Definition range_text (self : t) (doc : Document) (start_page end_page : Z)
    (use_ocr : bool) (language : str) (remove_repetitive remove_copyright : bool) : str :=
  join [NL; NL]
    (marked (start_page + 1)
       (apply_filter self
          ((fun p => page_text p use_ocr language) <$> pages_in doc start_page end_page)
          remove_repetitive remove_copyright)).

End WithUnicode.
End PDFProcessor.

(** ** api/routes.py: the endpoint [/extract] *)

Module Routes.
Import PDFProcessor.

Abbreviation bytes := (list N) (only parsing).

(** [s.endswith(suffix)] *)
Definition endswith (s suffix : str) : bool := startswith (rev s) (rev suffix).

(** What is raised in the endpoint: an [HTTPException], whose [detail] may
    quote the exception that was caught, or an exception of the
    processor. *)
Inductive error : Type :=
  | HTTPException (status_code : Z) (detail : detail)
  | PythonError (e : exn)
with detail : Type :=
  | OnlyPdf                      (* "Only PDF files are supported" *)
  | TooLarge (max_mb : Z)        (* f"File too large. Maximum size is {..}MB" *)
  | ProcessingError (e : error). (* f"Error processing PDF: {str(e)}" *)

(** The content of the [JSONResponse]. *)
Record Json := {
  success : bool;
  json_file_id : str;
  json_filename : str;
  json_pages : Z;
  json_total_chars : Z;
  json_chunks_processed : Z;
  json_text : str;
  json_metadata : option Metadata
}.

(** How a request ends. *)
Inductive outcome : Type :=
  | Returns (content : Json)
  | Raises (e : error)
  | Hangs.

(** The file at [file_path] in the upload directory: its content, or
    [None] when there is no such file.  Writing and removing a file are
    taken to succeed. *)
Definition disk := option bytes.

(** [file_path.exists()] and [file_path.unlink()] *)
Definition file_exists (d : disk) : bool :=
  match d with Some _ => true | None => false end.
Definition unlink (d : disk) : disk := None.

(** The loop [while content := await file.read(1024 * 1024)] on what the
    successive reads return: an empty read ends it, as does the end of
    the list.  [Some] is the content written; [None] stands for the branch
    that closes the file, unlinks it and raises. *)
Fixpoint save (reads : list bytes) (max_size total_size : Z) (written : bytes)
    : option bytes :=
  match reads with
  | [] => Some written
  | content :: reads' =>
      if truthy content then
        let total_size := total_size + Z.of_nat (length content) in
        if total_size >? max_size then None
        else save reads' max_size total_size (written ++ content)
      else Some written
  end.

(** The bytes of the upload: the reads up to the first empty one. *)
Fixpoint upload_data (reads : list bytes) : bytes :=
  match reads with
  | [] => []
  | content :: reads' => if truthy content then content ++ upload_data reads' else []
  end.

Section Endpoint.
Context `{UnicodeData}.
(** The processor of the module, and what [fitz.open] makes of a file with
    a given content: a document, or an exception. *)
Variable pdf_processor : PDFProcessor.t.
Variable fitz : bytes -> Document + exn.
(** [MAX_FILE_SIZE_MB] and the identifier drawn for the request. *)
Variable max_file_size_mb : Z.
Variable file_id : str.

(** The file that the loop has written, as the processor finds it. *)
Definition saved (content : bytes) : File :=
  {| getsize := Z.of_nat (length content);
     opens_as := fitz content |}.

(** The body of the [try] statement. *)
Definition try_body (filename : str) (reads : list bytes)
    (use_ocr chunk_processing : bool) (language : str)
    (remove_repetitive remove_copyright : bool) (max_size : Z)
    : outcome * disk * list event :=
  match save reads max_size 0 [] with
  | None =>
      (* [await out_file.close(); file_path.unlink(); raise HTTPException(413)] *)
      (Raises (HTTPException 413 (TooLarge (max_size / (1024 * 1024)))), unlink (Some []), [])
  | Some content =>
      let d := Some content in
      match process_pdf pdf_processor (saved content) use_ocr chunk_processing
              language remove_repetitive remove_copyright with
      | (Ok result, ev) =>
          (Returns {| success := true;
                      json_file_id := file_id;
                      json_filename := filename;
                      json_pages := pages result;
                      json_total_chars := total_chars result;
                      json_chunks_processed := default 1 (chunks_processed result);
                      json_text := text result;
                      json_metadata := metadata result |},
           unlink d, ev)
      | (Raise e, ev) => (Raises (PythonError e), d, ev)
      | (Unfinished, ev) => (Hangs, d, ev)
      end
  end.

(** [extract_text_from_pdf]: how the request ends, the upload directory
    after it, and what the processor did. *)
Definition extract_text_from_pdf (filename : str) (reads : list bytes)
    (use_ocr chunk_processing : bool) (language : str)
    (remove_repetitive remove_copyright : bool) (d : disk)
    : outcome * disk * list event :=
  if negb (endswith filename (py ".pdf"))
  then (Raises (HTTPException 400 OnlyPdf), d, [])
  else
    let max_size := max_file_size_mb * 1024 * 1024 in
    match try_body filename reads use_ocr chunk_processing language
            remove_repetitive remove_copyright max_size with
    | (Raises e, d, ev) =>
        (* [except Exception as e] *)
        let d := if file_exists d then unlink d else d in
        (Raises (HTTPException 500 (ProcessingError e)), d, ev)
    | finished => finished
    end.

End Endpoint.

(** The status of the response. *)
Definition status (o : outcome) : option Z :=
  match o with
  | Returns _ => Some 200
  | Raises (HTTPException status_code _) => Some status_code
  | Raises (PythonError _) => Some 500
  | Hangs => None
  end.

End Routes.

(** ** Unicode tables for the examples *)

Definition ascii_lower (c : char) : char :=
  if ((65 <=? c) && (c <=? 90))%N then (c + 32)%N else c.

Definition ascii_digit (c : char) : bool := ((48 <=? c) && (c <=? 57))%N.

(** These tables agree with those of CPython on every string of ASCII
    characters and soft hyphens U+00AD, which NFKC leaves as they are; the
    examples evaluated below consult them on such strings only. *)
Definition ascii_tables : UnicodeData :=
  {| nfkc := fun s => s;
     nfkc_empty := eq_refl;
     lower := map ascii_lower;
     isdecimal := ascii_digit;
     isdigit := ascii_digit;
     ieq := fun c x => (ascii_lower x =? ascii_lower c)%N |}.

(** ** A document for the examples *)

(** A file of 2048 bytes that opens as a document of two pages: a blank
    one, then one with a text layer. *)
Definition blank_then_body : Fitz.File :=
  {| Fitz.getsize := 2048;
     Fitz.opens_as :=
       inl {| Fitz.doc_pages :=
                [ {| Fitz.get_text := []; Fitz.ocr := fun _ => Some [] |};
                  {| Fitz.get_text := py "Body text"; Fitz.ocr := fun _ => Some [] |} ] |} |}.

(** An empty file, as PyMuPDF treats it. *)
Definition empty_file : Fitz.File :=
  {| Fitz.getsize := 0; Fitz.opens_as := inr EmptyFileError |}.

(** A PDF library for the examples: it reads the document of
    [blank_then_body] from one content, finds no document in any other,
    and opens no empty file. *)
Definition pdf_bytes : list N := py "%PDF-1.7 (two pages)".
Definition example_fitz (content : list N) : Fitz.Document + exn :=
  if decide (content = []) then inr EmptyFileError
  else if decide (content = pdf_bytes) then Fitz.opens_as blank_then_body
  else inr FileDataError.

(* ================================================================== *)
(** * Part II: properties *)
(* ================================================================== *)

(** ** Binary64 arithmetic in the normal range *)

Module FloatFacts.
Import PyNum.

Lemma digits2_size p : digits2_pos p = Pos.size p.
Proof. induction p; simpl; congruence. Qed.

Lemma digits_bounds p :
  2 ^ (Z.pos (digits2_pos p) - 1) <= Z.pos p < 2 ^ Z.pos (digits2_pos p).
Proof.
  rewrite digits2_size. split.
  - pose proof (Pos.size_le p) as H.
    assert (Z.pos (2 ^ Pos.size p) <= Z.pos p~0) by (apply Pos2Z.pos_le_pos; exact H).
    rewrite Pos2Z.inj_pow in H0.
    replace (Z.pos (Pos.size p)) with (Z.succ (Z.pos (Pos.size p) - 1)) in H0 by lia.
    rewrite Z.pow_succ_r in H0 by lia. lia.
  - pose proof (Pos.size_gt p) as H.
    apply Pos2Z.pos_lt_pos in H. rewrite Pos2Z.inj_pow in H. exact H.
Qed.

Lemma Zdigits2_bounds m : 0 < m -> 2 ^ (Zdigits2 m - 1) <= m < 2 ^ Zdigits2 m.
Proof. destruct m as [|p|p]; try lia. intros _. apply digits_bounds. Qed.

Lemma Zdigits2_pos m : 0 < m -> 0 < Zdigits2 m.
Proof. destruct m; simpl; lia. Qed.

Lemma Zdigits2_unique m d : 2 ^ (d - 1) <= m < 2 ^ d -> 0 < m -> Zdigits2 m = d.
Proof.
  intros [Hl Hu] Hm. pose proof (Zdigits2_bounds m Hm) as [Hl' Hu'].
  pose proof (Zdigits2_pos m Hm).
  assert (0 < d).
  { destruct (Z_lt_le_dec 0 d); [done|]. 
    assert (2 ^ d <= 2 ^ 0) by (apply Z.pow_le_mono_r; lia).
    change (2 ^ 0) with 1 in *. lia. }
  destruct (Z_lt_le_dec (Zdigits2 m) d).
  - assert (2 ^ Zdigits2 m <= 2 ^ (d - 1)) by (apply Z.pow_le_mono_r; lia). lia.
  - destruct (Z_lt_le_dec d (Zdigits2 m)); [|lia].
    assert (2 ^ d <= 2 ^ (Zdigits2 m - 1)) by (apply Z.pow_le_mono_r; lia). lia.
Qed.

Lemma shr_1_m mrs : 0 <= shr_m mrs -> shr_m (shr_1 mrs) = shr_m mrs / 2.
Proof.
  destruct mrs as [m r s]. simpl. intros Hm.
  destruct m as [|[p|p|]|]; simpl; try lia;
    Z.to_euclidean_division_equations; lia.
Qed.

Lemma iter_shr_m p : forall mrs, 0 <= shr_m mrs ->
  shr_m (SpecFloat.iter_pos shr_1 p mrs) = shr_m mrs / 2 ^ Z.pos p.
Proof.
  induction p as [p IH|p IH|]; intros mrs Hm; simpl SpecFloat.iter_pos.
  - assert (H1 : 0 <= shr_m (shr_1 mrs)) by (rewrite shr_1_m by done; apply Z.div_pos; lia).
    assert (H2 : 0 <= shr_m (SpecFloat.iter_pos shr_1 p (shr_1 mrs)))
      by (rewrite IH by done; apply Z.div_pos; lia).
    rewrite IH, IH, shr_1_m by done.
    rewrite !Z.div_div by lia. f_equal.
    change 2 with (2 ^ 1) at 1. rewrite <- !Z.pow_add_r by lia. f_equal. lia.
  - assert (H2 : 0 <= shr_m (SpecFloat.iter_pos shr_1 p mrs))
      by (rewrite IH by done; apply Z.div_pos; lia).
    rewrite IH, IH by done.
    rewrite !Z.div_div by lia. f_equal.
    rewrite <- Z.pow_add_r by lia. f_equal. lia.
  - rewrite shr_1_m by done. reflexivity.
Qed.

Lemma shr_spec mrs e n : 0 <= shr_m mrs -> 0 <= n ->
  shr_m (fst (shr mrs e n)) = shr_m mrs / 2 ^ n /\ snd (shr mrs e n) = e + n.
Proof.
  intros Hm Hn. destruct n as [|p|p]; simpl; try lia.
  - split; [|lia]. symmetry. apply Z.div_1_r.
  - split; [|lia]. apply iter_shr_m. done.
Qed.

Lemma shr_record_of_loc_m m l : shr_m (shr_record_of_loc m l) = m.
Proof. destruct l as [|[]]; reflexivity. Qed.

Lemma round_nearest_even_cases m l :
  round_nearest_even m l = m \/ round_nearest_even m l = m + 1.
Proof. destruct l as [|[]]; simpl; auto. destruct (Z.even m); auto. Qed.

Lemma shift_digits m d n : 2 ^ (d - 1) <= m < 2 ^ d -> 0 <= n < d ->
  2 ^ (d - n - 1) <= m / 2 ^ n < 2 ^ (d - n).
Proof.
  intros [Hl Hu] Hn.
  assert (Hp : 0 < 2 ^ n) by (apply Z.pow_pos_nonneg; lia).
  split.
  - apply Z.div_le_lower_bound; [done|].
    rewrite <- Z.pow_add_r by lia. replace (n + (d - n - 1)) with (d - 1) by lia. done.
  - apply Z.div_lt_upper_bound; [done|].
    rewrite <- Z.pow_add_r by lia. replace (n + (d - n)) with d by lia. done.
Qed.


(** A mantissa with at least [prec] digits whose value lies in the normal
    range is rounded to a finite float with exactly [prec] digits. *)
Lemma binary_round_aux_normal s mx ex lx :
  0 < mx -> prec <= Zdigits2 mx ->
  emin + prec <= Zdigits2 mx + ex -> Zdigits2 mx + ex + 1 <= emax ->
  exists m e, binary_round_aux prec emax s mx ex lx = S754_finite s m e
    /\ Z.pos (digits2_pos m) = prec
    /\ Zdigits2 mx + ex <= prec + e <= Zdigits2 mx + ex + 1.
Proof.
  intros Hmx Hd Hlo Hhi. set (d := Zdigits2 mx) in *.
  unfold binary_round_aux, shr_fexp. fold d.
  pose proof (Zdigits2_bounds mx Hmx) as Hb. fold d in Hb.
  assert (Hf1 : fexp prec emax (d + ex) - ex = d - prec).
  { unfold fexp. fold emin. lia. }
  rewrite Hf1.
  destruct (shr (shr_record_of_loc mx lx) ex (d - prec)) as [mrs1 e1] eqn:E1.
  pose proof (shr_spec (shr_record_of_loc mx lx) ex (d - prec)) as S1.
  rewrite E1, shr_record_of_loc_m in S1. simpl in S1.
  destruct S1 as [S1m S1e]; [lia|lia|].
  pose proof (shift_digits mx d (d - prec) Hb) as Hm1.
  rewrite <- S1m in Hm1.
  replace (d - (d - prec) - 1) with (prec - 1) in Hm1 by lia.
  replace (d - (d - prec)) with prec in Hm1 by lia.
  specialize (Hm1 ltac:(unfold prec in *; lia)).
  set (m2 := round_nearest_even (shr_m mrs1) (loc_of_shr_record mrs1)).
  assert (Hm2 : 2 ^ (prec - 1) <= m2 <= 2 ^ prec).
  { subst m2. destruct (round_nearest_even_cases (shr_m mrs1) (loc_of_shr_record mrs1)) as [->| ->]; lia. }
  assert (Hpp : 2 ^ prec = 2 * 2 ^ (prec - 1)) by reflexivity.
  assert (Hp0 : 0 < 2 ^ (prec - 1)) by reflexivity.
  assert (Hm2pos : 0 < m2) by lia.
  destruct (Z.eq_dec m2 (2 ^ prec)) as [Heq|Hne].
  - assert (Hd2 : Zdigits2 m2 = prec + 1).
    { apply Zdigits2_unique; [|done]. rewrite Heq.
      replace (prec + 1 - 1) with prec by lia. split; [lia|]. reflexivity. }
    rewrite Hd2.
    assert (Hf2 : fexp prec emax (prec + 1 + e1) - e1 = 1).
    { unfold fexp. fold emin. lia. }
    rewrite Hf2. rewrite Heq. simpl.
    exists (Z.to_pos (2 ^ (prec - 1))), (e1 + 1).
    assert ((e1 + 1 <=? emax - prec) = true) as -> by (apply Z.leb_le; lia).
    split; [reflexivity|]. split; [reflexivity|]. lia.
  - assert (Hd2 : Zdigits2 m2 = prec).
    { apply Zdigits2_unique; [|done]. lia. }
    rewrite Hd2.
    assert (Hf2 : fexp prec emax (prec + e1) - e1 = 0).
    { unfold fexp. fold emin. lia. }
    rewrite Hf2. simpl.
    destruct m2 as [|p2|p2] eqn:Em2; try lia.
    exists p2, e1.
    assert ((e1 <=? emax - prec) = true) as -> by (apply Z.leb_le; lia).
    split; [reflexivity|]. split; [|lia]. exact Hd2.
Qed.

Lemma quotient_digits a b da db :
  2 ^ (da - 1) <= a < 2 ^ da -> 2 ^ (db - 1) <= b < 2 ^ db -> 0 < db <= da - 1 ->
  2 ^ (da - db - 1) <= a / b < 2 ^ (da - db + 1).
Proof.
  intros [Hal Hau] [Hbl Hbu] Hd.
  assert (0 < 2 ^ (db - 1)) by (apply Z.pow_pos_nonneg; lia).
  assert (0 < 2 ^ (da - db - 1)) by (apply Z.pow_pos_nonneg; lia).
  assert (E1 : 2 ^ (da - 1) = 2 ^ (da - db - 1) * 2 ^ db).
  { rewrite <- Z.pow_add_r by lia. f_equal. lia. }
  assert (E2 : 2 ^ da = 2 ^ (db - 1) * 2 ^ (da - db + 1)).
  { rewrite <- Z.pow_add_r by lia. f_equal. lia. }
  split.
  - apply Z.div_le_lower_bound; [lia|]. nia.
  - apply Z.div_lt_upper_bound; [lia|]. nia.
Qed.

(** Division of two finite floats whose quotient lies in the normal range. *)
Lemma SFdiv_normal sx mx ex sy my ey :
  let D := (Z.pos (digits2_pos mx) + ex) - (Z.pos (digits2_pos my) + ey) in
  emin + prec <= D -> D + 2 <= emax ->
  exists m e,
    SFdiv prec emax (S754_finite sx mx ex) (S754_finite sy my ey)
      = S754_finite (xorb sx sy) m e
    /\ Z.pos (digits2_pos m) = prec
    /\ D <= prec + e <= D + 2.
Proof.
  intros D Hlo Hhi. unfold SFdiv, SFdiv_core_binary.
  pose proof (digits_bounds mx) as Hbx. pose proof (digits_bounds my) as Hby.
  change (Zdigits2 (Z.pos mx)) with (Z.pos (digits2_pos mx)).
  change (Zdigits2 (Z.pos my)) with (Z.pos (digits2_pos my)).
  set (d1 := Z.pos (digits2_pos mx)) in *. set (d2 := Z.pos (digits2_pos my)) in *.
  fold D.
  assert (Hf : fexp prec emax D = D - prec) by (unfold fexp; fold emin; lia).
  rewrite Hf.
  set (e' := Z.min (D - prec) (ex - ey)).
  set (m' := match ex - ey - e' with Z.pos _ => Z.shiftl (Z.pos mx) (ex - ey - e') | 0 => Z.pos mx | Z.neg _ => 0 end).
  assert (Hm' : m' = Z.pos mx * 2 ^ (ex - ey - e')).
  { subst m'. destruct (ex - ey - e') as [|p|p] eqn:E; [lia| |lia].
    rewrite Z.shiftl_mul_pow2 by lia. reflexivity. }
  assert (Hs : 0 <= ex - ey - e') by lia.
  assert (Hbm : 2 ^ (d1 + (ex - ey - e') - 1) <= m' < 2 ^ (d1 + (ex - ey - e'))).
  { rewrite Hm'.
    assert (0 < 2 ^ (ex - ey - e')) by (apply Z.pow_pos_nonneg; lia).
    replace (d1 + (ex - ey - e') - 1) with ((d1 - 1) + (ex - ey - e')) by lia.
    rewrite !Z.pow_add_r by lia. nia. }
  assert (Hd2 : 0 < d2 <= d1 + (ex - ey - e') - 1) by (unfold prec in *; lia).
  pose proof (quotient_digits m' (Z.pos my) _ _ Hbm Hby Hd2) as Hq.
  destruct (Z.div_eucl m' (Z.pos my)) as [q r] eqn:Eq.
  assert (Hqd : q = m' / Z.pos my) by (unfold Z.div; rewrite Eq; reflexivity).
  rewrite <- Hqd in Hq.
  set (dq0 := d1 + (ex - ey - e') - d2) in *.
  assert (Hdq0 : prec <= dq0 /\ dq0 + e' = D) by (unfold prec in *; lia).
  assert (Hq0 : 0 < q).
  { assert (0 < 2 ^ (dq0 - 1)) by (apply Z.pow_pos_nonneg; unfold prec in *; lia). lia. }
  assert (Hdq : Zdigits2 q = dq0 \/ Zdigits2 q = dq0 + 1).
  { destruct (Z_lt_le_dec q (2 ^ dq0)).
    - left. apply Zdigits2_unique; [lia|done].
    - right. apply Zdigits2_unique; [|done]. replace (dq0 + 1 - 1) with dq0 by lia. lia. }
  destruct (binary_round_aux_normal (xorb sx sy) q e' (new_location (Z.pos my) r))
    as (m & e & Hr & Hdm & He); try lia.
  exists m, e. split; [exact Hr|]. split; [exact Hdm|]. lia.
Qed.

Lemma shl_align_spec mx ex ex' :
  let '(mz, ez) := shl_align mx ex ex' in
  Z.pos mz = Z.pos mx * 2 ^ (ex - ez) /\ ez = Z.min ex ex'.
Proof.
  unfold shl_align. destruct (ex' - ex) as [|d|d] eqn:E.
  - replace (ex - ex) with 0 by lia. simpl. lia.
  - replace (ex - ex) with 0 by lia. simpl. lia.
  - split; [|lia]. replace (ex - ex') with (Z.pos d) by lia.
    change (Pos.iter xO mx d) with (shift_pos d mx).
    rewrite shift_pos_correct, Z.pow_pos_fold. lia.
Qed.

(** Conversion of a non-zero integer of at most [emax - 1] bits. *)
Lemma float_of_int_finite z :
  z <> 0 -> Zdigits2 z + 1 <= emax ->
  exists m e, float_of_int z = Ok (S754_finite (z <? 0) m e)
    /\ Z.pos (digits2_pos m) = prec
    /\ Zdigits2 z <= prec + e <= Zdigits2 z + 1.
Proof.
  intros Hz Hd. unfold float_of_int, binary_normalize.
  assert (G : forall s p, Z.pos (digits2_pos p) + 1 <= emax ->
    exists m e, binary_round prec emax s p 0 = S754_finite s m e
      /\ Z.pos (digits2_pos m) = prec
      /\ Z.pos (digits2_pos p) <= prec + e <= Z.pos (digits2_pos p) + 1).
  { intros s p Hp. unfold binary_round.
    pose proof (shl_align_spec p 0 (fexp prec emax (Z.pos (digits2_pos p) + 0))) as Hs.
    destruct (shl_align p 0 (fexp prec emax (Z.pos (digits2_pos p) + 0))) as [mz ez].
    destruct Hs as [Hmz Hez].
    pose proof (digits_bounds p) as Hb.
    set (d := Z.pos (digits2_pos p)) in *.
    assert (Hd0 : 0 < d) by (subst d; lia).
    assert (Hf : fexp prec emax (d + 0) = Z.max (d - prec) emin) by (unfold fexp; f_equal; lia).
    rewrite Hf in Hez.
    assert (Hez' : ez = Z.min 0 (d - prec)) by (unfold emin, SpecFloat.emin, prec, emax in *; lia).
    assert (Hdz : Zdigits2 (Z.pos mz) = d - ez).
    { apply Zdigits2_unique; [|lia]. rewrite Hmz.
      assert (0 < 2 ^ (0 - ez)) by (apply Z.pow_pos_nonneg; lia).
      replace (d - ez - 1) with ((d - 1) + (0 - ez)) by lia.
      replace (d - ez) with (d + (0 - ez)) by lia.
      rewrite !Z.pow_add_r by lia. nia. }
    destruct (binary_round_aux_normal s (Z.pos mz) ez loc_Exact) as (m & e & Hr & Hm & He);
      try (rewrite ?Hdz; unfold emin, SpecFloat.emin, prec, emax in *; lia).
    exists m, e. rewrite Hdz in He. split; [exact Hr|]. split; [exact Hm|]. lia. }
  destruct z as [|p|p]; [done| |]; simpl in Hd.
  - destruct (G false p Hd) as (m & e & -> & Hm & He). exists m, e. auto.
  - destruct (G true p Hd) as (m & e & -> & Hm & He). exists m, e. auto.
Qed.
End FloatFacts.


(** ** The chunker *)

Module ChunkerFacts.
Import PyNum FloatFacts PDFChunker.

Lemma res_bind_Ok {A B} (x : res A) (f : A -> res B) b :
  res_bind x f = Ok b -> exists a, x = Ok a /\ f a = Ok b.
Proof. destruct x; simpl; intros; try discriminate. eauto. Qed.

(** Whatever the loop returns extends the accumulator by chunks that tile
    the remaining pages. *)
Lemma chunk_loop_tiles fuel total ppc avg : forall cur acc out,
  1 <= ppc -> cur <= total ->
  chunk_loop fuel total ppc avg cur acc = Ok out ->
  exists new, out = acc ++ new /\ tiles cur new (total - 1)
    /\ (cur < total -> new <> []).
Proof.
  induction fuel as [|fuel IH]; intros cur acc out Hppc Hcur; cbn [chunk_loop].
  - destruct (cur <? total) eqn:E; [discriminate|].
    intros [= <-]. exists []. rewrite app_nil_r. simpl.
    apply Z.ltb_ge in E. split; [done|]. split; [lia|lia].
  - destruct (cur <? total) eqn:E.
    + apply Z.ltb_lt in E. intros Hr.
      apply res_bind_Ok in Hr as (size & _ & Hr).
      apply res_bind_Ok in Hr as (mb & _ & Hr).
      apply IH in Hr as (new & -> & Ht & _); [|done|lia].
      eexists (_ :: new). rewrite <- app_assoc. split; [reflexivity|].
      split; [|done]. simpl. repeat split; try lia. exact Ht.
    + intros [= <-]. exists []. rewrite app_nil_r. simpl.
      apply Z.ltb_ge in E. split; [done|]. split; [lia|lia].
Qed.

(** Arithmetic returns or raises. *)
Lemma float_of_int_finishes z : float_of_int z <> Unfinished.
Proof. unfold float_of_int. destruct (binary_normalize _ _ _ _ _); done. Qed.

Lemma truediv_finishes x y : truediv x y <> Unfinished.
Proof.
  assert (F : forall a b, float_truediv a b <> Unfinished)
    by (intros; unfold float_truediv; destruct (is_zero _); done).
  destruct x as [a|f], y as [b|g]; unfold truediv, to_float.
  - unfold int_truediv. destruct (_ =? 0); [done|]. destruct (SFdiv _ _ _ _); done.
  - pose proof (float_of_int_finishes a). destruct (float_of_int a); simpl; try done; try apply F.
  - pose proof (float_of_int_finishes b). simpl. destruct (float_of_int b); simpl; try done; try apply F.
  - simpl. try done; apply F.
Qed.

Lemma mul_finishes x y : mul x y <> Unfinished.
Proof.
  destruct x as [a|f], y as [b|g]; unfold mul, to_float; simpl; try done.
  - pose proof (float_of_int_finishes a). destruct (float_of_int a); simpl; done.
  - pose proof (float_of_int_finishes b). destruct (float_of_int b); simpl; done.
Qed.

Lemma int_of_float_finishes f : int_of_float f <> Unfinished.
Proof. destruct f; done. Qed.

(** With [pages_per_chunk >= 1], one unit of fuel per remaining page is
    enough: the loop ends or its body raises. *)
Lemma chunk_loop_finishes fuel total ppc avg : forall cur acc,
  1 <= ppc -> total - cur <= Z.of_nat fuel ->
  chunk_loop fuel total ppc avg cur acc <> Unfinished.
Proof.
  induction fuel as [|fuel IH]; intros cur acc Hppc Hf; cbn [chunk_loop].
  - destruct (cur <? total) eqn:E; [|done]. apply Z.ltb_lt in E. lia.
  - destruct (cur <? total) eqn:E; [|done]. apply Z.ltb_lt in E.
    match goal with |- context [mul ?a avg] =>
      pose proof (mul_finishes a avg); destruct (mul a avg) as [size| |] end;
      cbn [res_bind]; try done.
    match goal with |- context [truediv size ?b] =>
      pose proof (truediv_finishes size b); destruct (truediv size b) as [mb| |] end;
      cbn [res_bind]; try done.
    apply IH; lia.
Qed.

Lemma pages_per_chunk_ge_1 self avg ppc :
  pages_per_chunk self avg = Ok ppc -> 1 <= ppc.
Proof.
  unfold pages_per_chunk. intros Hr.
  apply res_bind_Ok in Hr as (q & _ & Hr).
  apply res_bind_Ok in Hr as (n & _ & Hr).
  injection Hr as <-. lia.
Qed.

Lemma create_chunks_never_unfinished self total fs :
  create_chunks self total fs <> Unfinished.
Proof.
  unfold create_chunks.
  destruct (avg_page_size total fs) as [avg| |] eqn:Ea; cbn [res_bind]; try done.
  - destruct (pages_per_chunk self avg) as [ppc| |] eqn:Ep; cbn [res_bind]; try done.
    + apply chunk_loop_finishes; [eapply pages_per_chunk_ge_1; eauto|lia].
    + unfold pages_per_chunk in Ep.
      pose proof (truediv_finishes (Int (chunk_size_bytes self)) avg).
      destruct (truediv _ avg) as [q| |]; cbn [res_bind] in Ep; try done.
      pose proof (int_of_float_finishes q).
      destruct (int_of_float q); cbn [res_bind] in Ep; done.
  - unfold avg_page_size in Ea. destruct (total >? 0); [|done].
    pose proof (truediv_finishes (Int fs) (Int total)).
    destruct (truediv _ _); cbn [res_bind] in Ea; done.
Qed.


Lemma tiles_each a cs b : tiles a cs b ->
  forall i c, cs !! i = Some c ->
    start_page c <= end_page c /\ page_count c = end_page c - start_page c + 1.
Proof.
  revert a. induction cs as [|c0 cs IH]; intros a Ht i c Hi; [done|].
  destruct Ht as (Hs & Hle & Hpc & Ht). destruct i as [|i]; simpl in Hi.
  - injection Hi as <-. lia.
  - eapply IH; eauto.
Qed.

Lemma tiles_next a cs b : tiles a cs b ->
  forall i c d, cs !! i = Some c -> cs !! S i = Some d -> start_page d = end_page c + 1.
Proof.
  revert a. induction cs as [|c0 cs IH]; intros a Ht i c d Hi Hj; [done|].
  destruct Ht as (Hs & Hle & Hpc & Ht). destruct i as [|i]; simpl in Hi, Hj.
  - injection Hi as <-. destruct cs as [|c1 cs]; [done|].
    simpl in Hj. injection Hj as <-. destruct Ht as (Hs1 & _). done.
  - eapply IH; eauto.
Qed.

Lemma tiles_last a cs b : tiles a cs b -> cs <> [] ->
  exists c, last cs = Some c /\ end_page c = b.
Proof.
  revert a. induction cs as [|c0 cs IH]; intros a Ht Hne; [done|].
  destruct Ht as (Hs & Hle & Hpc & Ht). destruct cs as [|c1 cs].
  - simpl in Ht. exists c0. split; [done|lia].
  - destruct (IH _ Ht) as (c & Hl & He); [done|]. exists c. split; [|done].
    rewrite last_cons, Hl. done.
Qed.

Lemma tiles_sum a cs b : tiles a cs b ->
  foldr (fun c n => page_count c + n) 0 cs = b + 1 - a.
Proof.
  revert a. induction cs as [|c0 cs IH]; intros a Ht; simpl in *; [lia|].
  destruct Ht as (Hs & Hle & Hpc & Ht). rewrite (IH _ Ht). lia.
Qed.

Lemma tiles_exact_cover P cs : tiles 0 cs (P - 1) -> cs <> [] -> exact_cover P cs.
Proof.
  intros Ht Hne. repeat split.
  - eapply tiles_each; eauto.
  - eapply tiles_each; eauto.
  - eapply tiles_next; eauto.
  - destruct cs as [|c cs]; [done|]. exists c. split; [done|]. apply Ht.
  - eapply tiles_last; eauto.
  - rewrite (tiles_sum _ _ _ Ht). lia.
Qed.

Lemma Zdigits2_le z k : z <> 0 -> Z.abs z < 2 ^ k -> 0 <= k -> 1 <= Zdigits2 z <= k.
Proof.
  intros Hz Hk Hk0.
  assert (G : forall p, Z.pos p < 2 ^ k -> 1 <= Z.pos (digits2_pos p) <= k).
  { intros p Hp. pose proof (digits_bounds p) as [Hl _]. split; [lia|].
    destruct (Z_lt_le_dec k (Z.pos (digits2_pos p))); [|lia].
    assert (2 ^ k <= 2 ^ (Z.pos (digits2_pos p) - 1)) by (apply Z.pow_le_mono_r; lia). lia. }
  destruct z as [|p|p]; [done| |]; simpl in *; apply G; lia.
Qed.

(** The average size of a page of a non-empty file is a positive float. *)
Lemma avg_page_size_positive P fs :
  0 < P < 2 ^ 63 -> 0 < fs < 2 ^ 63 ->
  exists m e, avg_page_size P fs = Ok (Float (S754_finite false m e))
    /\ Z.pos (digits2_pos m) = prec /\ -62 <= prec + e <= 64.
Proof.
  intros HP Hfs. unfold avg_page_size.
  assert ((P >? 0) = true) as -> by lia.
  unfold truediv, int_truediv. assert ((P =? 0) = false) as -> by lia.
  destruct P as [|p|p]; try lia. destruct fs as [|f|f]; try lia.
  pose proof (Zdigits2_le (Z.pos p) 63) as Hdp.
  pose proof (Zdigits2_le (Z.pos f) 63) as Hdf. simpl in Hdp, Hdf.
  destruct (SFdiv_normal false f 0 false p 0) as (m & e & Hr & Hm & He);
    try (unfold emin, SpecFloat.emin, prec, emax; lia).
  cbn [exact]. rewrite Hr. cbn [res_bind xorb]. exists m, e.
  split; [done|]. split; [done|]. lia.
Qed.

Lemma pages_per_chunk_total self m e :
  Z.pos (digits2_pos m) = prec -> -62 <= prec + e <= 64 ->
  Z.abs (chunk_size_bytes self) < 2 ^ 63 ->
  exists ppc, pages_per_chunk self (Float (S754_finite false m e)) = Ok ppc.
Proof.
  intros Hm He Hc. unfold pages_per_chunk, truediv, to_float.
  destruct (Z.eq_dec (chunk_size_bytes self) 0) as [->|Hne].
  - cbn. eauto.
  - destruct (float_of_int_finite (chunk_size_bytes self) Hne) as (m1 & e1 & -> & Hm1 & He1).
    { pose proof (Zdigits2_le _ 63 Hne Hc). unfold emax. lia. }
    pose proof (Zdigits2_le _ 63 Hne Hc) as Hd.
    cbn [res_bind]. unfold float_truediv. cbn [is_zero].
    destruct (SFdiv_normal (chunk_size_bytes self <? 0) m1 e1 false m e) as (m2 & e2 & -> & _ & _);
      try (unfold emin, SpecFloat.emin, prec, emax in *; lia).
    cbn [res_bind int_of_float]. eauto.
Qed.

(** With a positive average the body of the loop does not raise. *)
Lemma chunk_loop_no_raise fuel total ppc m e : forall cur acc x,
  1 <= ppc -> 0 <= cur -> total < 2 ^ 63 ->
  chunk_loop fuel total ppc (Float (S754_finite false m e)) cur acc <> Raise x.
Proof.
  induction fuel as [|fuel IH]; intros cur acc x Hppc Hcur Ht; cbn [chunk_loop].
  - destruct (cur <? total); done.
  - destruct (cur <? total) eqn:E; [|done]. apply Z.ltb_lt in E.
    set (n := Z.min (cur + ppc - 1) (total - 1) - cur + 1).
    assert (Hn : 1 <= n < 2 ^ 63) by lia.
    unfold mul, to_float.
    destruct (float_of_int_finite n) as (m1 & e1 & -> & _ & _); [lia| |].
    { pose proof (Zdigits2_le n 63). unfold emax. lia. }
    cbn [res_bind]. unfold truediv, to_float. cbn [res_bind].
    change (float_of_int (1024 * 1024)) with (Ok (S754_finite false 4503599627370496 (-32))).
    cbn [res_bind]. unfold float_truediv. cbn [is_zero res_bind].
    apply IH; lia.
Qed.

End ChunkerFacts.
Import ChunkerFacts PDFChunker.

(** C1. For a document of [P >= 1] pages, whatever the size of its file,
    the list that [create_chunks] returns is an exact cover of the pages
    [0 .. P-1]: ordered, every chunk non-empty, consecutive chunks
    contiguous, the first starting at page 0, the last ending at page
    [P - 1], the page counts adding up to [P].  And a list is returned for
    every non-empty file (sizes and counts being machine integers). *)
Theorem create_chunks_exact_cover (self : PDFChunker.t) (P file_size : Z) :
  1 <= P ->
  (forall chunks, create_chunks self P file_size = Ok chunks -> exact_cover P chunks)
  /\ (0 < file_size < 2 ^ 63 -> P < 2 ^ 63 ->
       Z.abs (chunk_size_bytes self) < 2 ^ 63 ->
       exists chunks, create_chunks self P file_size = Ok chunks).
Proof.
  intros HP. split.
  - intros chunks Hr. unfold create_chunks in Hr.
    apply res_bind_Ok in Hr as (avg & _ & Hr).
    apply res_bind_Ok in Hr as (ppc & Hppc & Hr).
    apply pages_per_chunk_ge_1 in Hppc.
    apply chunk_loop_tiles in Hr as (new & -> & Ht & Hne); [|done|lia].
    apply tiles_exact_cover; [done|]. apply Hne. lia.
  - intros Hfs HP' Hc.
    destruct (avg_page_size_positive P file_size) as (m & e & Ha & Hm & He); [lia|lia|].
    destruct (pages_per_chunk_total self m e Hm He Hc) as (ppc & Hp).
    pose proof (pages_per_chunk_ge_1 _ _ _ Hp) as Hppc.
    pose proof (create_chunks_never_unfinished self P file_size) as Hu.
    unfold create_chunks in *. rewrite Ha in *. cbn [res_bind] in *.
    rewrite Hp in *. cbn [res_bind] in *.
    destruct (chunk_loop _ _ _ _ _ _) as [cs|x|] eqn:El; [eauto| |done].
    exfalso. eapply chunk_loop_no_raise; [..|exact El]; lia.
Qed.

Lemma create_chunks_exact_cover_witness :
  1 <= 3 /\
  (forall chunks, create_chunks (init 10) 3 12582912 = Ok chunks -> exact_cover 3 chunks)
  /\ exists chunks, create_chunks (init 10) 3 12582912 = Ok chunks.
Proof.
  split; [lia|].
  destruct (create_chunks_exact_cover (init 10) 3 12582912 ltac:(lia)) as [H1 H2].
  split; [exact H1|]. apply H2; [lia|lia|]. vm_compute. reflexivity.
Defined.


(** ** Strings, regular expressions and the filter *)

Module StrFacts.

Lemma blank_dec s : {blank s} + {~ blank s}.
Proof. apply Forall_dec. intros c. destruct (isspace c); [left|right]; done. Qed.

Lemma lstrip_nil s : lstrip s = [] <-> blank s.
Proof.
  induction s as [|c s IH]; simpl; [split; [constructor|done]|].
  destruct (isspace c) eqn:E.
  - rewrite IH. split; [intros; constructor; done|]. intros Hb. inversion Hb; done.
  - split; [done|]. intros Hb. inversion Hb; congruence.
Qed.

Lemma lstrip_app s t : ~ blank s -> lstrip (s ++ t) = lstrip s ++ t.
Proof.
  induction s as [|c s IH]; intros Hb; [destruct Hb; constructor|]. simpl.
  destruct (isspace c) eqn:E; [|done].
  apply IH. intros Hs. apply Hb. constructor; done.
Qed.

Lemma lstrip_suffix s : exists a, s = a ++ lstrip s /\ blank a.
Proof.
  induction s as [|c s (a & Ha & Hb)]; simpl; [exists []; split; [done|constructor]|].
  destruct (isspace c) eqn:E.
  - exists (c :: a). split; [simpl; congruence|constructor; done].
  - exists []. split; [done|constructor].
Qed.

Lemma blank_app s t : blank (s ++ t) <-> blank s /\ blank t.
Proof. apply Forall_app. Qed.

Lemma blank_rev s : blank (rev s) <-> blank s.
Proof.
  unfold blank. rewrite !Forall_forall. split; intros H c Hc; apply H.
  - rewrite list_elem_of_In, <- in_rev, <- list_elem_of_In. done.
  - rewrite list_elem_of_In, <- in_rev, <- list_elem_of_In in Hc. done.
Qed.

Lemma lstrip_blank s : blank (lstrip s) <-> blank s.
Proof.
  destruct (lstrip_suffix s) as (a & Ha & Hb). split; intros H.
  - rewrite Ha. apply blank_app. done.
  - rewrite Ha in H. apply blank_app in H. tauto.
Qed.

Lemma rstrip_blank s : blank (rstrip s) <-> blank s.
Proof. unfold rstrip. rewrite blank_rev, lstrip_blank, blank_rev. done. Qed.

Lemma rstrip_nil s : rstrip s = [] <-> blank s.
Proof.
  unfold rstrip. split.
  - intros H. apply (f_equal (@rev N)) in H. rewrite rev_involutive in H. simpl in H.
    apply lstrip_nil in H. apply blank_rev. done.
  - intros H. apply blank_rev in H. apply lstrip_nil in H. rewrite H. done.
Qed.

Lemma strip_nil s : strip s = [] <-> blank s.
Proof. unfold strip. rewrite rstrip_nil, lstrip_blank. done. Qed.

Lemma rstrip_app s t : ~ blank t -> rstrip (s ++ t) = s ++ rstrip t.
Proof.
  intros Hb. unfold rstrip. rewrite rev_app_distr, lstrip_app.
  - rewrite rev_app_distr, rev_involutive. done.
  - rewrite blank_rev. done.
Qed.

Lemma lstrip_subseteq s : forall c, c ∈ lstrip s -> c ∈ s.
Proof.
  destruct (lstrip_suffix s) as (a & Ha & _). intros c Hc.
  rewrite Ha. apply elem_of_app. auto.
Qed.

Lemma rstrip_subseteq s : forall c, c ∈ rstrip s -> c ∈ s.
Proof.
  unfold rstrip. intros c Hc.
  rewrite list_elem_of_In, <- in_rev, <- list_elem_of_In in Hc.
  apply lstrip_subseteq in Hc.
  rewrite list_elem_of_In, <- in_rev, <- list_elem_of_In in Hc. done.
Qed.

(** *** [split] and [join] *)

Lemma split_cons_sep sep s : split sep (sep :: s) = [] :: split sep s.
Proof. simpl. rewrite N.eqb_refl. done. Qed.

Lemma split_not_nil sep s : split sep s <> [].
Proof.
  induction s as [|c s IH]; simpl; [done|].
  destruct (c =? sep)%N; [done|]. destruct (split sep s); done.
Qed.

Lemma split_cons_other sep c s :
  c <> sep ->
  exists l ls, split sep s = l :: ls /\ split sep (c :: s) = (c :: l) :: ls.
Proof.
  intros Hc. simpl. apply N.eqb_neq in Hc. rewrite Hc.
  pose proof (split_not_nil sep s). destruct (split sep s) as [|l ls]; [done|]. eauto.
Qed.

Lemma split_no_sep sep s : Forall (fun l => sep ∉ l) (split sep s).
Proof.
  induction s as [|c s IH]; simpl.
  - constructor; [|constructor]. apply not_elem_of_nil.
  - destruct (N.eqb_spec c sep) as [->|Hc].
    + constructor; [apply not_elem_of_nil|done].
    + destruct (split sep s) as [|l ls]; inversion IH; subst;
        (constructor; [|done]); rewrite not_elem_of_cons;
        (split; [congruence|]); first [done | apply not_elem_of_nil].
Qed.

Lemma split_id sep s : sep ∉ s -> split sep s = [s].
Proof.
  induction s as [|c s IH]; [done|]. rewrite not_elem_of_cons. intros [Hc Hs].
  simpl. apply not_eq_sym in Hc. apply N.eqb_neq in Hc. rewrite Hc, IH; done.
Qed.

Lemma split_app sep a b :
  split sep (a ++ sep :: b) = split sep a ++ split sep b.
Proof.
  induction a as [|c a IH].
  - simpl. rewrite N.eqb_refl. done.
  - rewrite <- app_comm_cons. simpl. destruct (c =? sep)%N.
    + rewrite IH. done.
    + rewrite IH. pose proof (split_not_nil sep a).
      destruct (split sep a); done.
Qed.

Lemma join_cons sep p ps :
  ps <> [] -> join sep (p :: ps) = p ++ sep ++ join sep ps.
Proof. destruct ps; done. Qed.

Lemma join_snoc sep ps q :
  ps <> [] -> join sep (ps ++ [q]) = join sep ps ++ sep ++ q.
Proof.
  induction ps as [|p ps IH]; [done|]. intros _.
  destruct ps as [|p' ps]; [done|].
  change ((p :: p' :: ps) ++ [q]) with (p :: ((p' :: ps) ++ [q])).
  rewrite (join_cons sep p) by (destruct ps; done). rewrite IH by done.
  rewrite (join_cons sep p (p' :: ps)) by done. rewrite <- !app_assoc. done.
Qed.

Lemma split_join sep ls :
  ls <> [] -> Forall (fun l => sep ∉ l) ls -> split sep (join [sep] ls) = ls.
Proof.
  induction ls as [|p ps IH]; [done|]. intros _ Hf. inversion Hf; subst.
  destruct ps as [|p' ps].
  - simpl. apply split_id. done.
  - rewrite join_cons by done.
    change (p ++ [sep] ++ join [sep] (p' :: ps)) with (p ++ sep :: join [sep] (p' :: ps)).
    rewrite split_app, IH by done.
    rewrite split_id by done. done.
Qed.

Lemma split_blank s : blank s -> Forall blank (split NL s).
Proof.
  induction s as [|c s IH]; intros Hb; simpl.
  - repeat constructor.
  - inversion Hb as [|? ? Hc Hs]; subst. specialize (IH Hs).
    destruct (c =? NL)%N; [constructor; [constructor|done]|].
    destruct (split NL s) as [|l ls].
    + repeat constructor. done.
    + inversion IH; subst. constructor; [constructor; done|done].
Qed.

End StrFacts.

Module ReFacts.
Import Re StrFacts.

(** What the greedy repetition consumed is a run of the class. *)
Lemma star_sound {A} p : forall s bol (k : bool -> str -> option A) a,
  star p bol s k = Some a ->
  exists w s' b, s = w ++ s' /\ Forall (fun c => p c = true) w /\ k b s' = Some a.
Proof.
  induction s as [|c s IH]; intros bol k a H; simpl in H.
  - exists [], [], bol. repeat split; [constructor|done].
  - destruct (p c) eqn:E.
    + destruct (star p false s k) as [a'|] eqn:Es.
      * injection H as ->. apply IH in Es as (w & s' & b & -> & Hw & Hk).
        exists (c :: w), s', b. repeat split; [constructor; done|done].
      * exists [], (c :: s), bol. repeat split; [constructor|done].
    + exists [], (c :: s), bol. repeat split; [constructor|done].
Qed.

(** A match of [\n\s*\n\s*\n+] starts with a newline, white space and a
    second newline. *)
Lemma blank_lines_match bol t rest :
  match_rest TextNormalizer.re_blank_lines bol t = Some rest ->
  exists w u, t = NL :: w ++ NL :: u /\ blank w.
Proof.
  unfold match_rest, TextNormalizer.re_blank_lines. cbn [seq run].
  destruct t as [|c t]; [done|]. unfold only at 1.
  destruct (N.eqb_spec c NL) as [->|]; [|done].
  intros H. apply star_sound in H as (w & s' & b & -> & Hw & H).
  destruct s' as [|c' s']; [done|]. unfold only at 1 in H.
  destruct (N.eqb_spec c' NL) as [->|]; [|done].
  exists w, s'. split; [done|]. exact Hw.
Qed.

Lemma match_len_None r bol s : match_rest r bol s = None -> match_len r bol s = None.
Proof. unfold match_len. intros ->. done. Qed.

(** Without a match at any position, [sub] returns its subject. *)
Lemma sub_from_no_match r repl : forall s bol,
  (forall b pre t, s = pre ++ t -> match_rest r b t = None) ->
  sub_from r repl bol s 0 = s.
Proof.
  induction s as [|c s IH]; intros bol H; simpl.
  - rewrite match_len_None; [done|]. apply (H bol []). done.
  - rewrite match_len_None by (apply (H bol []); done).
    f_equal. apply IH. intros b pre t ->. apply (H b (c :: pre)). done.
Qed.

(** A text whose lines all have a visible character has no run of blank
    lines for [\n\s*\n\s*\n+] to collapse. *)
Lemma sub_blank_lines_id s :
  Forall (fun l => ~ blank l) (split NL s) ->
  sub TextNormalizer.re_blank_lines [NL; NL] s = s.
Proof.
  intros Hl. apply sub_from_no_match. intros b pre t ->.
  destruct (match_rest _ b t) as [rest|] eqn:E; [|done]. exfalso.
  apply blank_lines_match in E as (w & u & -> & Hw).
  rewrite !split_app in Hl. apply Forall_app in Hl as [_ Hl].
  apply Forall_app in Hl as [Hl _].
  pose proof (split_not_nil NL w). pose proof (split_blank w Hw) as Hb.
  destruct (split NL w) as [|l ls]; [done|].
  inversion Hl; subst. inversion Hb; subst. done.
Qed.

End ReFacts.

Module FilterFacts.
Import Re StrFacts ReFacts TextFilter.

Section WithUnicode.
Context `{UnicodeData}.


Lemma keep_line_kept rep rc acc line :
  NL ∉ line -> Forall kept_line acc -> Forall kept_line (keep_line rep rc acc line).
Proof.
  intros Hnl Hacc. unfold keep_line.
  destruct (truthy (strip line)) eqn:Et; simpl; [|done].
  repeat (match goal with |- context [if ?b then _ else _] => destruct b end; try done).
  apply Forall_app. split; [done|]. constructor; [|constructor].
  split; [done|]. rewrite <- strip_nil. destruct (strip line); done.
Qed.

Lemma foldl_keep_line_kept rep rc lines : forall acc,
  Forall (fun l => NL ∉ l) lines -> Forall kept_line acc ->
  Forall kept_line (foldl (keep_line rep rc) acc lines).
Proof.
  induction lines as [|l lines IH]; intros acc Hl Hacc; simpl; [done|].
  inversion Hl; subst. apply IH; [done|]. apply keep_line_kept; done.
Qed.

Lemma kept_lstrip l : kept_line l -> kept_line (lstrip l).
Proof.
  intros [Hn Hb]. split.
  - intros Hc. apply Hn. apply lstrip_subseteq. done.
  - rewrite lstrip_blank. done.
Qed.

Lemma kept_rstrip l : kept_line l -> kept_line (rstrip l).
Proof.
  intros [Hn Hb]. split.
  - intros Hc. apply Hn. apply rstrip_subseteq. done.
  - rewrite rstrip_blank. done.
Qed.

(** Trimming a text made of kept lines trims its first and last line. *)
Lemma strip_join_kept ls :
  ls <> [] -> Forall kept_line ls ->
  exists ls', ls' <> [] /\ Forall kept_line ls' /\ strip (join [NL] ls) = join [NL] ls'.
Proof.
  intros Hne Hk. destruct ls as [|p ps]; [done|]. inversion Hk as [|? ? Hp Hps]; subst.
  assert (Hl : lstrip (join [NL] (p :: ps)) = join [NL] (lstrip p :: ps)).
  { destruct ps as [|p' ps]; [done|]. rewrite !join_cons by done.
    apply lstrip_app. apply Hp. }
  unfold strip. rewrite Hl.
  assert (Hk1 : Forall kept_line (lstrip p :: ps)) by (constructor; [apply kept_lstrip|]; done).
  destruct (exists_last (l := lstrip p :: ps)) as (init & q & Hq); [done|].
  rewrite Hq in *. apply Forall_app in Hk1 as [Hi Hq1]. inversion Hq1; subst.
  exists (init ++ [rstrip q]). split; [destruct init; done|]. split.
  - apply Forall_app. split; [done|]. constructor; [apply kept_rstrip; done|constructor].
  - destruct init as [|i0 init]; [done|].
    rewrite !join_snoc by done. rewrite !app_assoc.
    apply rstrip_app. match goal with H : kept_line q |- _ => apply H end.
Qed.

Lemma kept_lines_text ls :
  ls <> [] -> Forall kept_line ls -> Forall (fun l => ~ blank l) (split NL (join [NL] ls)).
Proof.
  intros Hne Hk. rewrite split_join; [|done|].
  - eapply Forall_impl; [exact Hk|]. intros l [_ Hb]. done.
  - eapply Forall_impl; [exact Hk|]. intros l [Hn _]. done.
Qed.

End WithUnicode.
End FilterFacts.
Import StrFacts ReFacts FilterFacts TextFilter.

(** C9. The text returned by [filter_page] has no blank line: it is empty,
    or every one of its lines keeps a character after trimming.  The
    lines kept by the loop are joined without a blank line between them,
    so the substitution that collapses runs of blank lines finds nothing
    to replace. *)
Theorem filter_page_no_blank_line `{UnicodeData}
    (page_text : str) (repetitive_lines : gset str) (remove_copyright : bool) :
  let kept := foldl (keep_line repetitive_lines remove_copyright) [] (split NL page_text) in
  let out := filter_page page_text repetitive_lines remove_copyright in
  Re.sub TextNormalizer.re_blank_lines [NL; NL] (join [NL] kept) = join [NL] kept
  /\ (out = [] \/ Forall (fun l => strip l <> []) (split NL out)).
Proof.
  cbv zeta. unfold filter_page.
  set (kept := foldl (keep_line repetitive_lines remove_copyright) [] (split NL page_text)).
  assert (Hk : Forall kept_line kept).
  { apply foldl_keep_line_kept; [apply split_no_sep|constructor]. }
  clearbody kept. destruct kept as [|k0 ks].
  - split; [done|]. left. done.
  - assert (Hs : Re.sub TextNormalizer.re_blank_lines [NL; NL] (join [NL] (k0 :: ks))
                 = join [NL] (k0 :: ks)).
    { apply sub_blank_lines_id. apply kept_lines_text; done. }
    split; [exact Hs|]. right. rewrite Hs.
    destruct (strip_join_kept (k0 :: ks)) as (ls' & Hne & Hk' & ->); [done|done|].
    pose proof (kept_lines_text ls' Hne Hk') as Hl.
    eapply Forall_impl; [exact Hl|]. intros l Hb. rewrite strip_nil. done.
Qed.

(** The loop of [filter_document] keeps, in order, the filtered pages that
    are not empty. *)
Lemma foldl_append_nonempty {A} (f : A -> str) (pages : list A) : forall acc,
  foldl (fun acc page => let filtered := f page in
                         if truthy filtered then acc ++ [filtered] else acc) acc pages
  = acc ++ filter (fun p => p <> []) (map f pages).
Proof.
  induction pages as [|page pages IH]; intros acc; simpl.
  - rewrite app_nil_r. done.
  - rewrite IH. destruct (f page) eqn:E; simpl.
    + rewrite filter_cons_False by (intros Hc; done). done.
    + rewrite filter_cons_True by done. rewrite <- app_assoc. done.
Qed.

(** C7. [filter_document] returns no empty page: its result is the list of
    the filtered pages, in the order of the input, without those whose
    filtered text is empty. *)
Theorem filter_document_drops_empty_pages `{UnicodeData}
    (self : TextFilter.t) (pages : list str)
    (remove_repetitive remove_copyright : bool) (min_threshold : option Z) :
  let out := (filter_document self pages remove_repetitive remove_copyright min_threshold).1 in
  let self' := (filter_document self pages remove_repetitive remove_copyright min_threshold).2 in
  let repetitive_lines : gset str :=
    if remove_repetitive then detect_repetitive_lines self' pages else ∅ in
  Forall (fun p => p <> []) out
  /\ out = filter (fun p => p <> [])
             (map (fun page => filter_page page repetitive_lines remove_copyright) pages).
Proof.
  cbv zeta. unfold filter_document. cbn [fst snd].
  match goal with |- context [filter_page _ ?r _] => set (rep := r) end.
  rewrite (foldl_append_nonempty (fun page => filter_page page rep remove_copyright)).
  split; [|done].
  apply Forall_forall. intros p Hp. apply list_elem_of_filter in Hp. tauto.
Qed.

(** C3, at an input where it fails.  [set(lines)] removes the repeated
    lines of a page before they are trimmed, so three spellings of one
    line on a single page are counted three times. *)
Theorem detect_counts_untrimmed_variants :
  let page := py "foo" ++ [NL] ++ py " foo" ++ [NL] ++ py "foo " in
  length [page] = 1%nat
  /\ elements (detect_repetitive_lines (TextFilter.init 3) [page]) = [py "foo"].
Proof. split; [reflexivity|]. vm_compute. reflexivity. Qed.

(** ** The processor *)

Module ProcessorFacts.
Import PDFProcessor TextNormalizer.
Local Open Scope proc_scope.

Lemma bind_Ok {A B} (x : M A) (f : A -> M B) b ev :
  bind x f = (Ok b, ev) ->
  exists a l l', x = (Ok a, l) /\ f a = (Ok b, l') /\ ev = l ++ l'.
Proof.
  unfold bind. destruct x as [[a|e|] l]; try done.
  destruct (f a) as [r l'] eqn:E. intros [= -> <-]. eauto 6.
Qed.

Lemma bind_lift_Ok {A B} (a : A) (f : A -> M B) : bind (lift (Ok a)) f = f a.
Proof. unfold bind, lift. destruct (f a). done. Qed.

Section WithUnicode.
Context `{UnicodeData}.

Lemma normalize_empty : normalize [] true true true true false = [].
Proof.
  unfold normalize, normalize_unicode.
  change (normalize_ligatures []) with (@nil N). rewrite nfkc_empty. reflexivity.
Qed.

Lemma extract_page_text_value page use_ocr language :
  (_extract_page_text page use_ocr language).1
  = Ok (normalize (chosen_text page use_ocr language) true true true true false).
Proof.
  unfold _extract_page_text, chosen_text, _ocr_page.
  destruct (use_ocr && _); [|done]. destruct (ocr page language); done.
Qed.

Lemma getitem_lookup doc i page :
  doc_pages doc !! i = Some page -> getitem doc (Z.of_nat i) = Ok page.
Proof.
  intros Hi. unfold getitem, page_count.
  pose proof (lookup_lt_Some _ _ _ Hi) as Hlt.
  assert ((Z.of_nat i <? Z.of_nat (length (doc_pages doc))) = true) as -> by lia.
  rewrite Z.mod_small by lia. rewrite Nat2Z.id, Hi. done.
Qed.

(** The loop over the pages returns one text for every page it is given;
    no page makes it raise. *)
Lemma extract_pages_total doc use_ocr language : forall (idxs : list nat) acc,
  Forall (fun i => (i < length (doc_pages doc))%nat) idxs ->
  exists texts ev,
    extract_pages doc (map Z.of_nat idxs) use_ocr language acc = (Ok (acc ++ texts), ev)
    /\ Forall2 (fun i t => exists page, doc_pages doc !! i = Some page
                  /\ (_extract_page_text page use_ocr language).1 = Ok t) idxs texts.
Proof.
  induction idxs as [|i idxs IH]; intros acc Hf; cbn [map extract_pages].
  - exists [], []. rewrite app_nil_r. split; [done|constructor].
  - inversion Hf as [|? ? Hi Hf']; subst.
    destruct (lookup_lt_is_Some_2 _ _ Hi) as [page Hp].
    rewrite (getitem_lookup _ _ _ Hp). unfold lift. cbn [bind].
    destruct (_extract_page_text page use_ocr language) as [r l] eqn:E.
    pose proof (extract_page_text_value page use_ocr language) as Hv.
    rewrite E in Hv. cbn [fst] in Hv. subst r. cbn [bind].
    destruct (IH (acc ++ [normalize (chosen_text page use_ocr language) true true true true false]) Hf')
      as (texts & ev & Heq & Hall).
    rewrite Heq.
    eexists (_ :: texts), _. rewrite <- app_assoc. split; [reflexivity|].
    constructor; [|done]. exists page. split; [done|]. rewrite E. done.
Qed.


Lemma range_seq n : range 0 (Z.of_nat n) = map Z.of_nat (seq 0 n).
Proof.
  unfold range, seqZ. rewrite Z.sub_0_r, Nat2Z.id.
  apply map_ext. intros i. lia.
Qed.

End WithUnicode.
End ProcessorFacts.
Import ProcessorFacts PDFProcessor.

(** C4. [_extract_page_text] runs the OCR engine exactly when [use_ocr] is
    set and the trimmed embedded text has fewer than 50 characters: 49
    characters trigger it, 50 do not.  When it runs, the text that is
    normalized and returned is the output of the OCR, not the embedded
    text. *)
Theorem ocr_fallback_threshold `{UnicodeData}
    (page : Page) (use_ocr : bool) (language : str) :
  let r := _extract_page_text page use_ocr language in
  let n := length (strip (get_text page)) in
  (ocr_invoked r = true <-> use_ocr = true /\ (n < 50)%nat)
  /\ (n = 50%nat -> ocr_invoked r = false)
  /\ (n = 49%nat -> use_ocr = true -> ocr_invoked r = true)
  /\ (ocr_invoked r = true ->
        r.1 = Ok (TextNormalizer.normalize (default [] (ocr page language))
                    true true true true false))
  /\ (ocr_invoked r = false ->
        r.1 = Ok (TextNormalizer.normalize (get_text page) true true true true false)).
Proof.
  cbv zeta. unfold _extract_page_text, _ocr_page, ocr_invoked.
  destruct use_ocr; cbn [andb];
    [destruct (length (strip (get_text page)) <? 50)%nat eqn:E;
      [apply Nat.ltb_lt in E; destruct (ocr page language)
      |apply Nat.ltb_ge in E]|];
    cbn [bind emit ret fst snd existsb app orb default];
    repeat split; intros; try done; try lia;
    repeat match goal with H : _ /\ _ |- _ => destruct H end; try done; try lia.
Qed.

Lemma ocr_fallback_threshold_witness :
  let page := {| get_text := py "Short embedded text"; ocr := fun _ => Some (py "Text read by the OCR") |} in
  ocr_invoked (_extract_page_text (H := ascii_tables) page true (py "eng")) = true
  /\ (_extract_page_text (H := ascii_tables) page true (py "eng")).1
     = Ok (py "Text read by the OCR").
Proof.
  intros page.
  destruct (ocr_fallback_threshold (H := ascii_tables) page true (py "eng"))
    as (Hiff & _ & _ & Hocr & _).
  assert (Hi : ocr_invoked (_extract_page_text (H := ascii_tables) page true (py "eng")) = true).
  { apply Hiff. split; [reflexivity|]. vm_compute. lia. }
  split; [exact Hi|]. rewrite (Hocr Hi). vm_compute. reflexivity.
Defined.

(** C8. A failure of the OCR of one page stays in that page.  The exception
    is caught in [_ocr_page], an error is logged, and the text of the page
    is the empty string, not the embedded text that was too short.  The
    loop over the pages goes on: it returns a text for every page of the
    document, whichever OCR calls fail. *)
Theorem ocr_failure_is_local `{UnicodeData}
    (doc : Document) (use_ocr : bool) (language : str) :
  (forall page,
     use_ocr = true -> (length (strip (get_text page)) < 50)%nat ->
     ocr page language = None ->
     _extract_page_text page use_ocr language = (Ok [], [OcrCall language; LogError]))
  /\ exists texts ev,
       extract_pages doc (range 0 (page_count doc)) use_ocr language [] = (Ok texts, ev)
       /\ length texts = length (doc_pages doc)
       /\ forall i page, doc_pages doc !! i = Some page ->
            exists t, texts !! i = Some t
                      /\ (_extract_page_text page use_ocr language).1 = Ok t.
Proof.
  split.
  - intros page -> Hn Ho. unfold _extract_page_text, _ocr_page.
    apply Nat.ltb_lt in Hn. rewrite Hn, Ho.
    cbn [andb bind emit ret app]. rewrite normalize_empty. done.
  - unfold page_count. rewrite range_seq.
    destruct (extract_pages_total doc use_ocr language (seq 0 (length (doc_pages doc))) [])
      as (texts & ev & Heq & Hall).
    { apply Forall_forall. intros i Hi. apply elem_of_seq in Hi. lia. }
    exists texts, ev. split; [exact Heq|]. split.
    + apply Forall2_length in Hall. rewrite length_seq in Hall. done.
    + intros i page Hp. pose proof (lookup_lt_Some _ _ _ Hp) as Hlt.
      destruct (Forall2_lookup_l _ _ _ i i Hall) as (t & Ht & page' & Hp' & Hv).
      { apply lookup_seq. lia. }
      exists t. split; [done|]. congruence.
Qed.

Lemma ocr_failure_is_local_witness :
  let scanned := {| get_text := []; ocr := fun _ => None |} in
  let typed := {| get_text := py "A page with an embedded text layer of more than fifty characters.";
                  ocr := fun _ => None |} in
  let doc := {| doc_pages := [scanned; typed] |} in
  _extract_page_text (H := ascii_tables) scanned true (py "eng")
    = (Ok [], [OcrCall (py "eng"); LogError])
  /\ exists texts ev,
       extract_pages (H := ascii_tables) doc (range 0 2) true (py "eng") [] = (Ok texts, ev)
       /\ length texts = 2%nat.
Proof.
  intros scanned typed doc.
  destruct (ocr_failure_is_local (H := ascii_tables) doc true (py "eng")) as [H1 (texts & ev & H2 & H3 & _)].
  split.
  - apply H1; [reflexivity|vm_compute; lia|reflexivity].
  - exists texts, ev. split; [exact H2|exact H3].
Defined.

(** C10. In every result that is returned, [total_chars] is the length of
    [text]: for the whole document, for a range of pages, for the chunks
    combined, and so for [process_pdf]. *)
Theorem total_chars_is_text_length `{UnicodeData}
    (self : PDFProcessor.t) (file_path : File) (use_ocr : bool) (language : str)
    (remove_repetitive remove_copyright : bool) (r : Result) (ev : list event) :
  (_extract_text_sync self file_path use_ocr language remove_repetitive remove_copyright
     = (Ok r, ev)
   \/ (exists start_page end_page,
         _extract_text_range_sync self file_path start_page end_page use_ocr language
           remove_repetitive remove_copyright = (Ok r, ev))
   \/ _process_chunked self file_path use_ocr language remove_repetitive remove_copyright
       = (Ok r, ev)
   \/ (exists chunk_processing,
         process_pdf self file_path use_ocr chunk_processing language
           remove_repetitive remove_copyright = (Ok r, ev))) ->
  total_chars r = Z.of_nat (length (text r)).
Proof.
  assert (Hsync : forall r ev,
    _extract_text_sync self file_path use_ocr language remove_repetitive remove_copyright
      = (Ok r, ev) -> total_chars r = Z.of_nat (length (text r))).
  { clear r ev. intros r ev Hr. unfold _extract_text_sync in Hr.
    apply bind_Ok in Hr as (doc & l0 & l0' & _ & Hr & _).
    apply bind_Ok in Hr as (page_texts & l1 & l2 & _ & Hr & _). cbv zeta in Hr.
    apply bind_Ok in Hr as (mb & l3 & l4 & _ & Hr & _).
    injection Hr as <- _. reflexivity. }
  assert (Hchunked : forall r ev,
    _process_chunked self file_path use_ocr language remove_repetitive remove_copyright
      = (Ok r, ev) -> total_chars r = Z.of_nat (length (text r))).
  { clear r ev. intros r ev Hr. unfold _process_chunked in Hr.
    apply bind_Ok in Hr as (chunks & l1 & l2 & _ & Hr & _).
    apply bind_Ok in Hr as ([[all_text total_pages] chunks_processed] & l3 & l4 & _ & Hr & _).
    cbv zeta in Hr.
    apply bind_Ok in Hr as (mb & l5 & l6 & _ & Hr & _).
    injection Hr as <- _. reflexivity. }
  intros [Hr|[(start_page & end_page & Hr)|[Hr|(chunk_processing & Hr)]]].
  - eapply Hsync; eauto.
  - unfold _extract_text_range_sync in Hr.
    apply bind_Ok in Hr as (doc & l0 & l0' & _ & Hr & _).
    apply bind_Ok in Hr as (page_texts & l1 & l2 & _ & Hr & _). cbv zeta in Hr.
    injection Hr as <- _. reflexivity.
  - eapply Hchunked; eauto.
  - unfold process_pdf in Hr.
    apply bind_Ok in Hr as (mb & l1 & l2 & _ & Hr & _).
    destruct (chunk_processing && _); [eapply Hchunked|eapply Hsync]; eauto.
Qed.

Lemma total_chars_is_text_length_witness :
  exists r ev,
    _extract_text_sync (H := ascii_tables) (PDFProcessor.init 10) blank_then_body
      false (py "eng") true true = (Ok r, ev)
    /\ total_chars r = Z.of_nat (length (text r)).
Proof.
  destruct (_extract_text_sync (H := ascii_tables) (PDFProcessor.init 10) blank_then_body
              false (py "eng") true true) as [[r| |] ev] eqn:E;
    try (vm_compute in E; discriminate).
  exists r, ev. split; [reflexivity|].
  apply (total_chars_is_text_length (H := ascii_tables) (PDFProcessor.init 10)
           blank_then_body false (py "eng") true true r ev).
  left. exact E.
Defined.

(** C5, at an input where it fails.  The first page of [blank_then_body]
    is dropped by the filter, and [enumerate] then numbers the text of
    page 2 as page 1; without the filter the same text is marked as page 2.
    The same happens in a range of pages. *)
Theorem page_marker_after_dropped_page :
  returned_text (_extract_text_sync (H := ascii_tables) (PDFProcessor.init 10)
                  blank_then_body false (py "eng") true true)
    = Some (py "--- Page 1 ---" ++ [NL] ++ py "Body text")
  /\ returned_text (_extract_text_sync (H := ascii_tables) (PDFProcessor.init 10)
                     blank_then_body false (py "eng") false false)
     = Some (py "--- Page 2 ---" ++ [NL] ++ py "Body text")
  /\ returned_text (_extract_text_range_sync (H := ascii_tables) (PDFProcessor.init 10)
                     blank_then_body 0 1 false (py "eng") true true)
     = Some (py "--- Page 1 ---" ++ [NL] ++ py "Body text").
Proof. vm_compute. repeat split. Qed.

(** ** The normalizer *)

Module NormalizerFacts.
Import TextNormalizer.

(** Replacing one character. *)
Lemma replace_char c new text :
  replace [c] new text = flat_map (fun x => if (x =? c)%N then new else [x]) text.
Proof.
  unfold replace. induction text as [|x t IH]; [done|].
  cbn [replace_from flat_map length Nat.sub].
  assert (Hs : startswith (x :: t) [c] = (x =? c)%N).
  { cbn [startswith]. destruct t; apply andb_true_r. }
  rewrite Hs. destruct (x =? c)%N; rewrite IH; done.
Qed.

Lemma replace_absent c new text : c ∉ text -> replace [c] new text = text.
Proof.
  rewrite replace_char. induction text as [|x t IH]; [done|].
  rewrite not_elem_of_cons. intros [Hx Ht]. cbn [flat_map].
  apply not_eq_sym in Hx. apply N.eqb_neq in Hx. rewrite Hx, IH; done.
Qed.

Lemma replace_removes c new text : c ∉ new -> c ∉ replace [c] new text.
Proof.
  intros Hn. rewrite replace_char. induction text as [|x t IH]; [apply not_elem_of_nil|].
  cbn [flat_map]. rewrite not_elem_of_app. split; [|done].
  destruct (N.eqb_spec x c); [done|].
  rewrite not_elem_of_cons. split; [congruence|apply not_elem_of_nil].
Qed.

Lemma replace_keeps_absent d c new text :
  d ∉ text -> d ∉ new -> d ∉ replace [c] new text.
Proof.
  intros Ht Hn. rewrite replace_char. induction text as [|x t IH]; [apply not_elem_of_nil|].
  apply not_elem_of_cons in Ht as [Hx Ht]. cbn [flat_map].
  rewrite not_elem_of_app. split; [|auto].
  destruct (x =? c)%N; [done|].
  rewrite not_elem_of_cons. split; [done|apply not_elem_of_nil].
Qed.


Ltac notin_literal :=
  vm_compute; let H := fresh in intros H;
  repeat (apply elem_of_cons in H as [H|H]; [discriminate H|]);
  apply elem_of_nil in H; exact H.

Lemma normalize_ligatures_removes s :
  Forall (fun c => c ∉ normalize_ligatures s) ligature_chars.
Proof.
  unfold normalize_ligatures, LIGATURES. cbn [fold_left].
  repeat constructor;
    repeat first
      [ apply replace_removes; notin_literal
      | apply replace_keeps_absent; [|notin_literal] ].
Qed.

Lemma normalize_ligatures_absent s :
  Forall (fun c => c ∉ s) ligature_chars -> normalize_ligatures s = s.
Proof.
  intros Hs. unfold normalize_ligatures, LIGATURES. cbn [fold_left].
  unfold ligature_chars, LIGATURES in Hs. cbn [map head default fst] in Hs.
  repeat (apply Forall_cons in Hs as [? Hs]).
  repeat (rewrite (replace_absent _ _ s) by assumption). done.
Qed.

Lemma normalize_ligatures_idempotent s :
  normalize_ligatures (normalize_ligatures s) = normalize_ligatures s.
Proof. apply normalize_ligatures_absent, normalize_ligatures_removes. Qed.

End NormalizerFacts.
Import NormalizerFacts TextNormalizer.

(** C2 fails.  The soft hyphen U+00AD is deleted after the pattern
    [-\s*\n\s*] has been applied, so a hyphen that it separated from the
    end of its line is joined to the next line only by a second pass:
    "a-­\nb" becomes "a-\nb", and that becomes "ab".  The options are
    those of the program except [unicode_norm], which is off so that no
    table is consulted. *)
Lemma normalize_not_idempotent :
  let s := py "a-" ++ [173%N; NL] ++ py "b" in
  normalize (H := ascii_tables) s true false true true false = py "a-" ++ [NL] ++ py "b"
  /\ normalize (H := ascii_tables)
       (normalize (H := ascii_tables) s true false true true false)
       true false true true false = py "ab"
  /\ normalize (H := ascii_tables)
       (normalize (H := ascii_tables) s true false true true false)
       true false true true false
     <> normalize (H := ascii_tables) s true false true true false.
Proof. vm_compute. repeat split. discriminate. Qed.

(** ** White-space cleaning *)

Import Re TextNormalizer.

Module SubFacts.

(** What a match leaves is a suffix of the subject. *)
Lemma star_suffix {A} p : forall s bol (k : bool -> str -> option A) a,
  star p bol s k = Some a -> exists pre s' b, s = pre ++ s' /\ k b s' = Some a.
Proof.
  intros s bol k a Hs. apply star_sound in Hs as (w & s' & b & -> & _ & Hk). eauto.
Qed.

Lemma run_suffix {A} r : forall s bol (k : bool -> str -> option A) a,
  run r bol s k = Some a -> exists pre s' b, s = pre ++ s' /\ k b s' = Some a.
Proof.
  induction r as [|p|p|r1 IH1 r2 IH2| |]; intros s bol k a Hr; cbn [run] in Hr.
  - exists [], s, bol. done.
  - destruct s as [|c t]; [done|]. destruct (p c); [|done]. exists [c], t, false. done.
  - eapply star_suffix; eauto.
  - apply IH1 in Hr as (pre1 & s1 & b1 & -> & Hr).
    apply IH2 in Hr as (pre2 & s2 & b2 & -> & Hr).
    exists (pre1 ++ pre2), s2, b2. rewrite <- app_assoc. done.
  - destruct bol; [|done]. exists [], s, true. done.
  - exists [], s, bol. split; [done|].
    destruct s as [|c [|c' t]]; try done. destruct (c =? NL)%N; done.
Qed.

Lemma match_rest_suffix r bol s rest :
  match_rest r bol s = Some rest -> exists pre, s = pre ++ rest.
Proof.
  unfold match_rest. intros Hr.
  apply run_suffix in Hr as (pre & s' & b & -> & [= ->]). eauto.
Qed.

Lemma sub_from_skip r repl : forall pre rest bol,
  pre <> [] ->
  sub_from r repl bol (pre ++ rest) (length pre) = sub_from r repl false rest 0.
Proof.
  induction pre as [|c pre IH]; intros rest bol Hne; [done|].
  cbn [app length sub_from]. destruct pre as [|c' pre]; [done|].
  apply IH. done.
Qed.

(** The two steps of [sub] on a pattern that does not match at the head of
    the subject, or matches a non-empty prefix. *)
Lemma sub_step_none r repl bol c t :
  match_rest r bol (c :: t) = None ->
  sub_from r repl bol (c :: t) 0 = c :: sub_from r repl false t 0.
Proof. intros Hm. cbn [sub_from]. rewrite (match_len_None _ _ _ Hm). done. Qed.

Lemma sub_step_match r repl bol c pre rest :
  match_rest r bol (c :: pre ++ rest) = Some rest ->
  sub_from r repl bol (c :: pre ++ rest) 0 = repl ++ sub_from r repl false rest 0.
Proof.
  intros Hm. cbn [sub_from]. unfold match_len. rewrite Hm. cbn [option_map].
  replace (length (c :: pre ++ rest) - length rest)%nat with (S (length pre))
    by (cbn [length]; rewrite length_app; lia).
  f_equal. destruct pre as [|c' pre]; [done|].
  apply (sub_from_skip r repl (c' :: pre) rest false). done.
Qed.

Lemma sub_nil r repl bol : match_rest r bol [] = None -> sub_from r repl bol [] 0 = [].
Proof. intros Hm. cbn [sub_from]. rewrite (match_len_None _ _ _ Hm). done. Qed.


Lemma star_stop {A} p s bol (k : bool -> str -> option A) :
  (forall c, head s = Some c -> p c = false) -> star p bol s k = k bol s.
Proof. destruct s as [|c t]; [done|]. intros Hc. cbn [star]. rewrite (Hc c); done. Qed.

(** With a continuation that accepts, the greedy repetition takes the whole
    run. *)
Lemma star_all p : forall s bol,
  exists w rest, star p bol s (fun _ r => Some r) = Some rest
    /\ s = w ++ rest /\ Forall (fun c => p c = true) w
    /\ (forall c, head rest = Some c -> p c = false).
Proof.
  induction s as [|c t IH]; intros bol; cbn [star].
  - exists [], []. repeat split; [constructor|done].
  - destruct (p c) eqn:E.
    + destruct (IH false) as (w & rest & -> & -> & Hw & Hr).
      exists (c :: w), rest. repeat split; [constructor; done|done].
    + exists [], (c :: t). repeat split; [constructor|]. intros c' [= <-]. done.
Qed.

End SubFacts.

Module SpacesFacts.
Import SubFacts.

Lemma spaces_no_match bol s :
  head s <> Some 32%N -> match_rest re_spaces bol s = None.
Proof.
  destruct s as [|c t]; [done|]. intros Hc. unfold match_rest, re_spaces, Plus.
  cbn [run]. unfold only at 1. destruct (N.eqb_spec c 32%N) as [->|]; [|done].
  exfalso. apply Hc. done.
Qed.

Lemma spaces_match bol t :
  exists pre rest, match_rest re_spaces bol (32%N :: t) = Some rest
    /\ t = pre ++ rest /\ head rest <> Some 32%N.
Proof.
  unfold match_rest, re_spaces, Plus. cbn [run]. unfold only at 1. cbn [N.eqb Pos.eqb].
  destruct (star_all (only 32%N) t false) as (w & rest & Hs & -> & _ & Hr).
  exists w, rest. split; [exact Hs|]. split; [done|].
  intros Hh. specialize (Hr _ Hh). unfold only in Hr. done.
Qed.

Lemma sub_spaces_head s bol :
  head s <> Some 32%N -> head (sub_from re_spaces [32%N] bol s 0) <> Some 32%N.
Proof.
  intros Hs. destruct s as [|c t].
  - rewrite sub_nil by (apply spaces_no_match; done). done.
  - rewrite sub_step_none by (apply spaces_no_match; done). done.
Qed.

(** The output of [re.sub(' +', ' ', _)] has no two spaces in a row. *)
Lemma sub_spaces_nodouble : forall n s bol,
  (length s <= n)%nat -> nodouble (sub_from re_spaces [32%N] bol s 0).
Proof.
  induction n as [|n IH]; intros s bol Hn.
  - destruct s; [|simpl in Hn; lia]. rewrite sub_nil by (apply spaces_no_match; done). done.
  - destruct s as [|c t].
    + rewrite sub_nil by (apply spaces_no_match; done). done.
    + destruct (N.eq_dec c 32%N) as [->|Hc].
      * destruct (spaces_match bol t) as (pre & rest & Hm & -> & Hr).
        rewrite (sub_step_match _ _ _ _ _ _ Hm). cbn [app nodouble].
        split; [intros _; apply sub_spaces_head; done|].
        apply IH. simpl in Hn. rewrite length_app in Hn. lia.
      * rewrite sub_step_none by (apply spaces_no_match; intros [= ?]; done).
        cbn [nodouble]. split; [done|]. apply IH. simpl in Hn. lia.
Qed.

(** On such a text the substitution changes nothing. *)
Lemma sub_spaces_fix : forall s bol,
  nodouble s -> sub_from re_spaces [32%N] bol s 0 = s.
Proof.
  induction s as [|c t IH]; intros bol Hs.
  - rewrite sub_nil by (apply spaces_no_match; done). done.
  - destruct Hs as [Hc Ht]. destruct (N.eq_dec c 32%N) as [->|Hne].
    + destruct (spaces_match bol t) as (pre & rest & Hm & Heq & Hr).
      assert (pre = []) as ->.
      { destruct pre as [|x pre]; [done|]. exfalso.
        pose proof Hm as Hm'. unfold match_rest, re_spaces, Plus in Hm'.
        cbn [run] in Hm'. unfold only at 1 in Hm'. cbn [N.eqb Pos.eqb] in Hm'.
        rewrite star_stop in Hm'.
        - injection Hm' as Hm'. apply (f_equal length) in Heq.
          rewrite <- Hm', length_app in Heq. simpl in Heq. lia.
        - intros c' Hc'. unfold only. apply N.eqb_neq. intros ->. apply Hc; done. }
      simpl in Heq. subst rest.
      rewrite (sub_step_match _ _ _ _ [] t Hm). cbn [app]. rewrite IH; done.
    + rewrite sub_step_none by (apply spaces_no_match; intros [= ?]; done).
      rewrite IH; done.
Qed.

End SpacesFacts.

Module BlankLinesFacts.
Import SubFacts.

Lemma match_blank_lines_unfold bol s :
  match_rest re_blank_lines bol s
  = match s with
    | c :: t => if (c =? NL)%N then P1 false t else None
    | [] => None
    end.
Proof. destruct s; reflexivity. Qed.

Lemma K3_cons b c t :
  K3 b (c :: t) = if (c =? NL)%N then star (only NL) false t kend else None.
Proof. reflexivity. Qed.

Lemma K1_cons b c t : K1 b (c :: t) = if (c =? NL)%N then P2 false t else None.
Proof. reflexivity. Qed.

Lemma isspace_NL c : (c =? NL)%N = true -> isspace c = true.
Proof. intros Hc. apply N.eqb_eq in Hc. subst. reflexivity. Qed.

Lemma P2_spec : forall x b,
  (P2 b x = None <-> lead_nl x = O)
  /\ (forall r, P2 b x = Some r -> lead_nl r = O).
Proof.
  induction x as [|c t IH]; intros b.
  - split; [done|]. intros r Hr. discriminate Hr.
  - unfold P2. cbn [star lead_nl]. fold (P2 false t). destruct (IH false) as [IHn IHs].
    destruct (isspace c) eqn:Ews.
    + destruct (P2 false t) as [a|] eqn:Ep.
      * split.
        -- split; [done|]. intros Hl. destruct (c =? NL)%N; [done|].
           apply IHn in Hl. done.
        -- intros r [= <-]. apply IHs. done.
      * assert (Hl : lead_nl t = O) by (apply IHn; done).
        rewrite K3_cons. destruct (c =? NL)%N eqn:Ec.
        -- destruct (star_all (only NL) t false) as (w & rest & Hs & Heq & Hw & Hr).
           fold kend in Hs. rewrite Hs. split; [split; done|].
           intros r [= <-]. destruct w as [|x w]; [simpl in Heq; congruence|].
           exfalso. inversion Hw as [|? ? Hx _]; subst. unfold only in Hx.
           simpl in Hl. rewrite Hx in Hl. done.
        -- split; [split; done|]. done.
    + rewrite K3_cons. destruct (c =? NL)%N eqn:Ec.
      * apply isspace_NL in Ec. congruence.
      * split; [split; done|]. done.
Qed.

Lemma P1_spec : forall x b,
  (P1 b x = None <-> (lead_nl x < 2)%nat)
  /\ (forall r, P1 b x = Some r -> lead_nl r = O).
Proof.
  induction x as [|c t IH]; intros b.
  - split; [split; [simpl; lia|done]|]. intros r Hr. discriminate Hr.
  - unfold P1. cbn [star lead_nl]. fold (P1 false t). destruct (IH false) as [IHn IHs].
    destruct (isspace c) eqn:Ews.
    + destruct (P1 false t) as [a|] eqn:Ep.
      * split.
        -- split; [done|]. intros Hl. exfalso.
           assert (lead_nl t < 2)%nat by (destruct (c =? NL)%N; lia).
           apply IHn in H. done.
        -- intros r [= <-]. apply IHs. done.
      * assert (Hl : (lead_nl t < 2)%nat) by (apply IHn; done).
        rewrite K1_cons. destruct (c =? NL)%N eqn:Ec.
        -- destruct (P2_spec t false) as [Hn Hs]. split.
           ++ rewrite Hn. lia.
           ++ intros r Hr. eapply Hs; eauto.
        -- split; [split; done|]. done.
    + rewrite K1_cons. destruct (c =? NL)%N eqn:Ec.
      * apply isspace_NL in Ec. congruence.
      * split; [split; [lia|done]|]. done.
Qed.

(** [\n\s*\n\s*\n+] matches at a newline followed by white space with two
    more newlines, nowhere else, and takes all the newlines of that white
    space. *)
Lemma blank_lines_none bol s :
  match_rest re_blank_lines bol s = None
  <-> (forall t, s = NL :: t -> (lead_nl t < 2)%nat).
Proof.
  rewrite match_blank_lines_unfold. destruct s as [|c t]; [split; done|].
  destruct (N.eqb_spec c NL) as [->|Hc].
  - rewrite (proj1 (P1_spec t false)). split.
    + intros Hl t' [= <-]. done.
    + intros Hl. apply Hl. done.
  - split; [|done]. intros _ t' [= ? _]. done.
Qed.

Lemma blank_lines_some bol s r :
  match_rest re_blank_lines bol s = Some r ->
  lead_nl r = O /\ exists pre, s = NL :: pre ++ r.
Proof.
  intros Hm. pose proof Hm as Hm'. rewrite match_blank_lines_unfold in Hm.
  destruct s as [|c t]; [done|]. destruct (N.eqb_spec c NL) as [->|Hc]; [|done].
  split; [eapply (proj2 (P1_spec t false)); eauto|].
  unfold P1 in Hm. apply star_suffix in Hm as (pre & s' & b & -> & Hk).
  destruct s' as [|c' s']; [done|]. rewrite K1_cons in Hk.
  destruct (N.eqb_spec c' NL) as [->|]; [|done].
  unfold P2 in Hk. apply star_suffix in Hk as (pre2 & s2 & b2 & -> & Hk).
  unfold K3 in Hk. apply run_suffix in Hk as (pre3 & s3 & b3 & -> & [= ->]).
  exists (pre ++ NL :: pre2 ++ pre3). rewrite <- !app_assoc. simpl.
  rewrite <- !app_assoc. done.
Qed.

Lemma squeeze_bol bol s :
  sub_from re_blank_lines [NL; NL] bol s 0 = squeeze s.
Proof.
  destruct s as [|c t]; cbn [sub_from]; unfold match_len;
    rewrite !match_blank_lines_unfold; done.
Qed.

Lemma squeeze_cases s :
  (s = [] /\ squeeze s = [])
  \/ (exists c t, s = c :: t /\ (c = NL -> (lead_nl t < 2)%nat)
        /\ squeeze s = c :: squeeze t)
  \/ (exists pre r, s = NL :: pre ++ r /\ lead_nl r = O
        /\ (2 <= lead_nl (pre ++ r))%nat
        /\ squeeze s = NL :: NL :: squeeze r).
Proof.
  destruct s as [|c t]; [left; split; [done|]; apply sub_nil; done|]. right.
  destruct (match_rest re_blank_lines false (c :: t)) as [r|] eqn:Em.
  - right. destruct (blank_lines_some _ _ _ Em) as (Hr & pre & Heq).
    injection Heq as -> ->. exists pre, r. repeat split; [done| |].
    + destruct (le_lt_dec 2 (lead_nl (pre ++ r))) as [|Hlt]; [done|]. exfalso.
      assert (Hn : match_rest re_blank_lines false (NL :: pre ++ r) = None).
      { apply blank_lines_none. intros t' [= <-]. done. }
      congruence.
    + rewrite (sub_step_match _ _ _ _ _ _ Em). done.
  - left. exists c, t. repeat split.
    + intros ->. eapply blank_lines_none; eauto.
    + apply sub_step_none. done.
Qed.

Lemma lead_nl_squeeze : forall n s,
  (length s <= n)%nat -> (lead_nl (squeeze s) <= lead_nl s)%nat.
Proof.
  induction n as [|n IH]; intros s Hn;
    destruct (squeeze_cases s) as [[-> ->]|[(c & t & -> & Hc & ->)|(pre & r & -> & Hr & Hl & ->)]];
    try done; try (simpl in Hn; lia).
  - specialize (IH t ltac:(simpl in Hn; lia)). cbn [lead_nl].
    destruct (c =? NL)%N; [lia|]. destruct (isspace c); lia.
  - specialize (IH r ltac:(simpl in Hn; rewrite length_app in Hn; lia)).
    cbn [lead_nl N.eqb]. change (NL =? NL)%N with true. cbn iota. lia.
Qed.

(** The output of the substitution has no run of blank lines left. *)
Lemma squeeze_norun3 : forall n s, (length s <= n)%nat -> norun3 (squeeze s).
Proof.
  induction n as [|n IH]; intros s Hn;
    destruct (squeeze_cases s) as [[-> ->]|[(c & t & -> & Hc & ->)|(pre & r & -> & Hr & Hl & ->)]];
    try done; try (simpl in Hn; lia).
  - cbn [norun3]. split; [|apply IH; simpl in Hn; lia].
    intros Hnl. pose proof (lead_nl_squeeze (length t) t ltac:(lia)). specialize (Hc Hnl). lia.
  - pose proof (lead_nl_squeeze (length r) r ltac:(lia)) as Hle.
    cbn [norun3 lead_nl]. change (NL =? NL)%N with true. cbn iota.
    repeat split; try (intros _; lia).
    apply IH. simpl in Hn. rewrite length_app in Hn. lia.
Qed.

Lemma squeeze_fix : forall s, norun3 s -> squeeze s = s.
Proof.
  induction s as [|c t IH]; intros Hs.
  - apply sub_nil. done.
  - destruct Hs as [Hc Ht]. rewrite sub_step_none.
    + rewrite IH; done.
    + apply blank_lines_none. intros t' [= -> <-]. apply Hc. done.
Qed.

End BlankLinesFacts.

Module LinesFacts.
Import SubFacts BlankLinesFacts.

Lemma lstrip_blank_app a b : blank a -> lstrip (a ++ b) = lstrip b.
Proof.
  induction a as [|c a IH]; intros Ha; [done|]. inversion Ha as [|? ? Hc Ha']; subst.
  simpl. rewrite Hc. auto.
Qed.

Lemma rstrip_blank_app a b : blank b -> rstrip (a ++ b) = rstrip a.
Proof.
  intros Hb. unfold rstrip. rewrite rev_app_distr, lstrip_blank_app; [done|].
  apply blank_rev. done.
Qed.

Lemma rstrip_cons c l :
  rstrip (c :: l) = if isspace c then (if decide (blank l) then [] else c :: rstrip l)
                    else c :: rstrip l.
Proof.
  destruct (decide (blank l)) as [Hb|Hb].
  - change (c :: l) with ([c] ++ l). rewrite rstrip_blank_app by done.
    apply rstrip_nil in Hb. rewrite Hb. unfold rstrip. simpl.
    destruct (isspace c); done.
  - change (c :: l) with ([c] ++ l). rewrite rstrip_app by done.
    destruct (isspace c); done.
Qed.

Lemma eol_blank_split t l ls :
  split NL t = l :: ls -> (eol_blank t = true <-> blank l).
Proof.
  revert l ls. induction t as [|c t IH]; intros l ls Hs.
  - injection Hs as <- <-. split; [constructor|done].
  - simpl in Hs. cbn [eol_blank]. destruct (c =? NL)%N eqn:Ec.
    + injection Hs as <- <-. split; [constructor|done].
    + destruct (split NL t) as [|l' ls'] eqn:Et; injection Hs as <- <-.
      * exfalso. eapply split_not_nil; eauto.
      * rewrite andb_true_iff, (IH l' ls' eq_refl). split.
        -- intros [? ?]. constructor; done.
        -- intros Hb. inversion Hb; done.
Qed.

Lemma join_head p ps : join [NL] (p :: ps) = p ++ join_tail ps.
Proof. destruct ps; [symmetry; apply app_nil_r|done]. Qed.

(** [join] of the trimmed lines is [rstrip_lines]. *)
Lemma join_rstrip_split s :
  join [NL] (map rstrip (split NL s)) = rstrip_lines s.
Proof.
  induction s as [|c t IH]; [done|]. cbn [rstrip_lines]. simpl split.
  pose proof (split_not_nil NL t) as Hne.
  destruct (c =? NL)%N eqn:Ec.
  - cbn [map]. rewrite join_head. change (rstrip []) with (@nil N).
    cbn [app]. destruct (split NL t) eqn:Et; [done|]. cbn [map join_tail].
    rewrite <- IH. done.
  - destruct (split NL t) as [|l ls] eqn:Et; [done|]. cbn [map] in *.
    rewrite join_head in *. rewrite rstrip_cons.
    pose proof (eol_blank_split t l ls Et) as Hb.
    destruct (isspace c); cbn [andb].
    + destruct (decide (blank l)) as [Hl|Hl].
      * rewrite (proj2 Hb Hl). rewrite <- IH.
        apply rstrip_nil in Hl. rewrite Hl. done.
      * destruct (eol_blank t); [destruct Hl; apply Hb; done|].
        rewrite <- IH. done.
    + rewrite <- IH. done.
Qed.

Lemma eol_blank_rstrip_lines t : eol_blank (rstrip_lines t) = eol_blank t.
Proof.
  induction t as [|c t IH]; [done|]. cbn [rstrip_lines eol_blank].
  destruct (c =? NL)%N eqn:Ec; [cbn [eol_blank]; rewrite N.eqb_refl; done|].
  destruct (isspace c) eqn:Ews; cbn [andb].
  - destruct (eol_blank t) eqn:Eb; [congruence|].
    cbn [eol_blank]. rewrite Ec, Ews, IH. done.
  - cbn [eol_blank]. rewrite Ec, Ews. done.
Qed.

Lemma lead_nl_rstrip_lines t : lead_nl (rstrip_lines t) = lead_nl t.
Proof.
  induction t as [|c t IH]; [done|]. cbn [rstrip_lines lead_nl].
  destruct (c =? NL)%N eqn:Ec; [cbn [lead_nl]; rewrite N.eqb_refl; congruence|].
  destruct (isspace c) eqn:Ews; cbn [andb].
  - destruct (eol_blank t); [done|]. cbn [lead_nl]. rewrite Ec, Ews. done.
  - cbn [lead_nl]. rewrite Ec, Ews. done.
Qed.

Lemma rstrip_lines_norun3 s : norun3 s -> norun3 (rstrip_lines s).
Proof.
  induction s as [|c t IH]; [done|]. intros [Hc Ht]. cbn [rstrip_lines].
  destruct (N.eqb_spec c NL) as [->|Hne].
  - cbn [norun3]. rewrite lead_nl_rstrip_lines. auto.
  - destruct (isspace c && eol_blank t); [auto|]. cbn [norun3]. split; [done|auto].
Qed.

Lemma rstrip_lines_head_eol t :
  eol_blank t = true -> head (rstrip_lines t) <> Some 32%N.
Proof.
  induction t as [|c t IH]; [done|]. cbn [eol_blank rstrip_lines].
  destruct (c =? NL)%N eqn:Ec; [done|]. intros Hb.
  apply andb_true_iff in Hb as [Hws Hb]. rewrite Hws, Hb. cbn [andb]. auto.
Qed.

Lemma rstrip_lines_head t :
  head (rstrip_lines t) = Some 32%N -> head t = Some 32%N.
Proof.
  destruct t as [|c t]; [done|]. cbn [rstrip_lines].
  destruct (c =? NL)%N eqn:Ec; [done|].
  destruct (isspace c && eol_blank t) eqn:E; [|done].
  apply andb_true_iff in E as [_ E]. intros Hh.
  exfalso. eapply rstrip_lines_head_eol; eauto.
Qed.

Lemma rstrip_lines_nodouble s : nodouble s -> nodouble (rstrip_lines s).
Proof.
  induction s as [|c t IH]; [done|]. intros [Hc Ht]. cbn [rstrip_lines].
  destruct (c =? NL)%N eqn:Ec.
  - cbn [nodouble]. split; [done|auto].
  - destruct (isspace c && eol_blank t); [auto|]. cbn [nodouble]. split; [|auto].
    intros H32 Hh. apply Hc; [done|]. apply rstrip_lines_head. done.
Qed.

Lemma rstrip_lines_trailfree s : trailfree (rstrip_lines s).
Proof.
  induction s as [|c t IH]; [done|]. cbn [rstrip_lines].
  destruct (N.eqb_spec c NL) as [->|Hne].
  - cbn [trailfree]. split; [done|auto].
  - destruct (isspace c) eqn:Ews; cbn [andb].
    + destruct (eol_blank t) eqn:Eb; [done|]. cbn [trailfree]. split; [|done].
      intros _ _. rewrite eol_blank_rstrip_lines. done.
    + cbn [trailfree]. split; [|done]. intros _ Hws. congruence.
Qed.

Lemma rstrip_lines_fix s : trailfree s -> rstrip_lines s = s.
Proof.
  induction s as [|c t IH]; [done|]. intros [Hc Ht]. cbn [rstrip_lines].
  destruct (N.eqb_spec c NL) as [->|Hne]; [rewrite IH; done|].
  destruct (isspace c) eqn:Ews; cbn [andb]; [|rewrite IH; done].
  rewrite (Hc Hne eq_refl), IH; done.
Qed.

End LinesFacts.

Module CleanFacts.
Import SubFacts SpacesFacts BlankLinesFacts LinesFacts.

(** *** The three properties on parts of a text *)

Lemma nodouble_suffix a r : nodouble (a ++ r) -> nodouble r.
Proof. induction a as [|c a IH]; [done|]. intros [_ H]. auto. Qed.

Lemma norun3_suffix a r : norun3 (a ++ r) -> norun3 r.
Proof. induction a as [|c a IH]; [done|]. intros [_ H]. auto. Qed.

Lemma trailfree_suffix a r : trailfree (a ++ r) -> trailfree r.
Proof. induction a as [|c a IH]; [done|]. intros [_ H]. auto. Qed.

Lemma nodouble_prefix y b : nodouble (y ++ b) -> nodouble y.
Proof.
  induction y as [|c y IH]; [done|]. intros [Hc H]. split; [|auto].
  intros H32 Hh. apply Hc; [done|]. destruct y; [done|]. done.
Qed.

Lemma lead_nl_prefix y b : (lead_nl y <= lead_nl (y ++ b))%nat.
Proof.
  induction y as [|c y IH]; [simpl; lia|]. cbn [app lead_nl].
  destruct (c =? NL)%N; [lia|]. destruct (isspace c); lia.
Qed.

Lemma norun3_prefix y b : norun3 (y ++ b) -> norun3 y.
Proof.
  induction y as [|c y IH]; [done|]. intros [Hc H]. split; [|auto].
  intros Hnl. pose proof (lead_nl_prefix y b). specialize (Hc Hnl). lia.
Qed.

Lemma eol_blank_blank b : blank b -> eol_blank b = true.
Proof.
  induction b as [|c b IH]; [done|]. intros Hb. inversion Hb as [|? ? Hc Hb']; subst.
  cbn [eol_blank]. destruct (c =? NL)%N; [done|]. rewrite Hc, IH; done.
Qed.

Lemma eol_blank_app y b : blank b -> eol_blank y = true -> eol_blank (y ++ b) = true.
Proof.
  intros Hb. induction y as [|c y IH]; [intros _; apply eol_blank_blank; done|].
  cbn [app eol_blank]. destruct (c =? NL)%N; [done|].
  intros H. apply andb_true_iff in H as [-> H]. auto.
Qed.

Lemma trailfree_prefix y b : blank b -> trailfree (y ++ b) -> trailfree y.
Proof.
  intros Hb. induction y as [|c y IH]; [done|]. intros [Hc H]. split; [|auto].
  intros Hne Hws. specialize (Hc Hne Hws).
  destruct (eol_blank y) eqn:E; [|done]. rewrite eol_blank_app in Hc; done.
Qed.

(** *** [strip] *)

Lemma rstrip_prefix s : exists b, s = rstrip s ++ b /\ blank b.
Proof.
  unfold rstrip. destruct (lstrip_suffix (rev s)) as (a & Ha & Hb).
  exists (rev a). split; [|apply blank_rev; done].
  rewrite <- rev_app_distr, <- Ha, rev_involutive. done.
Qed.

Lemma lstrip_head s c : head (lstrip s) = Some c -> isspace c = false.
Proof.
  induction s as [|x s IH]; [done|]. simpl. destruct (isspace x) eqn:E; [done|].
  intros [= <-]. done.
Qed.

Lemma lstrip_fix s : (forall c, head s = Some c -> isspace c = false) -> lstrip s = s.
Proof. destruct s as [|x s]; [done|]. intros H. simpl. rewrite (H x); done. Qed.

Lemma lstrip_idem s : lstrip (lstrip s) = lstrip s.
Proof. apply lstrip_fix. apply lstrip_head. Qed.

Lemma rstrip_idem s : rstrip (rstrip s) = rstrip s.
Proof. unfold rstrip. rewrite rev_involutive, lstrip_idem. done. Qed.

Lemma rstrip_head s c :
  (forall x, head s = Some x -> isspace x = false) ->
  head (rstrip s) = Some c -> isspace c = false.
Proof.
  destruct s as [|x s]; [done|]. intros Hs. rewrite rstrip_cons.
  rewrite (Hs x eq_refl). intros [= <-]. auto.
Qed.

Lemma strip_idem s : strip (strip s) = strip s.
Proof.
  unfold strip. rewrite (lstrip_fix (rstrip (lstrip s))).
  - apply rstrip_idem.
  - intros c. apply rstrip_head. apply lstrip_head.
Qed.

Lemma strip_nodouble s : nodouble s -> nodouble (strip s).
Proof.
  intros Hs. unfold strip. destruct (lstrip_suffix s) as (a & Ha & _).
  rewrite Ha in Hs. apply nodouble_suffix in Hs.
  destruct (rstrip_prefix (lstrip s)) as (b & Hb & _).
  rewrite Hb in Hs. eapply nodouble_prefix; eauto.
Qed.

Lemma strip_norun3 s : norun3 s -> norun3 (strip s).
Proof.
  intros Hs. unfold strip. destruct (lstrip_suffix s) as (a & Ha & _).
  rewrite Ha in Hs. apply norun3_suffix in Hs.
  destruct (rstrip_prefix (lstrip s)) as (b & Hb & _).
  rewrite Hb in Hs. eapply norun3_prefix; eauto.
Qed.

Lemma strip_trailfree s : trailfree s -> trailfree (strip s).
Proof.
  intros Hs. unfold strip. destruct (lstrip_suffix s) as (a & Ha & _).
  rewrite Ha in Hs. apply trailfree_suffix in Hs.
  destruct (rstrip_prefix (lstrip s)) as (b & Hb & Hbl).
  rewrite Hb in Hs. eapply trailfree_prefix; eauto.
Qed.

(** *** The substitution of blank lines keeps single spaces single *)

Lemma squeeze_head t : head (squeeze t) = Some 32%N -> head t = Some 32%N.
Proof.
  destruct (squeeze_cases t) as [[-> ->]|[(c & t' & -> & Hc & ->)|(pre & r & -> & Hr & Hl & ->)]];
    done.
Qed.

Lemma squeeze_nodouble : forall n s,
  (length s <= n)%nat -> nodouble s -> nodouble (squeeze s).
Proof.
  induction n as [|n IH]; intros s Hn Hs;
    destruct (squeeze_cases s) as [[-> ->]|[(c & t & -> & Hc & ->)|(pre & r & -> & Hr & Hl & ->)]];
    try done; try (simpl in Hn; lia).
  - destruct Hs as [H32 Ht]. cbn [nodouble]. split.
    + intros Hc32 Hh. apply H32; [done|]. apply squeeze_head. done.
    + apply IH; [simpl in Hn; lia|done].
  - cbn [nodouble]. repeat split; try done.
    apply IH; [simpl in Hn; rewrite length_app in Hn; lia|].
    apply (nodouble_suffix (NL :: pre)). done.
Qed.

(** *** [clean_whitespace] *)

Lemma clean_whitespace_eq s :
  clean_whitespace s
  = strip (rstrip_lines (squeeze (sub_from re_spaces [32%N] true s 0))).
Proof.
  unfold clean_whitespace. rewrite join_rstrip_split. unfold sub.
  rewrite squeeze_bol. done.
Qed.

Lemma clean_whitespace_clean s : clean (clean_whitespace s).
Proof.
  rewrite clean_whitespace_eq.
  set (x1 := sub_from re_spaces [32%N] true s 0).
  assert (H1 : nodouble x1) by (eapply sub_spaces_nodouble; done).
  assert (H2 : nodouble (squeeze x1)) by (eapply squeeze_nodouble; done).
  assert (H3 : norun3 (squeeze x1)) by (eapply squeeze_norun3; done).
  repeat split.
  - apply strip_nodouble, rstrip_lines_nodouble. done.
  - apply strip_norun3, rstrip_lines_norun3. done.
  - apply strip_trailfree, rstrip_lines_trailfree.
  - apply strip_idem.
Qed.

Lemma clean_whitespace_fix s : clean s -> clean_whitespace s = s.
Proof.
  intros (H1 & H2 & H3 & H4). rewrite clean_whitespace_eq.
  rewrite sub_spaces_fix, squeeze_fix, rstrip_lines_fix; done.
Qed.

Lemma clean_whitespace_idempotent s :
  clean_whitespace (clean_whitespace s) = clean_whitespace s.
Proof. apply clean_whitespace_fix, clean_whitespace_clean. Qed.

End CleanFacts.

Module CharsFacts.
Import SubFacts BlankLinesFacts LinesFacts CleanFacts NormalizerFacts.

(** The characters of the output of [sub] come from the subject or from
    the replacement. *)
Lemma sub_from_chars r repl c : forall s bol n,
  c ∈ sub_from r repl bol s n -> c ∈ repl \/ c ∈ s.
Proof.
  induction s as [|x s IH]; intros bol n; cbn [sub_from].
  - destruct n; [|intros H; apply elem_of_nil in H; done].
    destruct (match_len r bol []); [auto|]. intros H; apply elem_of_nil in H; done.
  - destruct n as [|n].
    + destruct (match_len r bol (x :: s)) as [[|m]|].
      * rewrite elem_of_app, elem_of_cons. intros [?|[->|H]]; [auto|right; left|].
        apply IH in H as [?|?]; [auto|right; right; done].
      * rewrite elem_of_app. intros [?|H]; [auto|].
        apply IH in H as [?|?]; [auto|right; right; done].
      * rewrite elem_of_cons. intros [->|H]; [right; left|].
        apply IH in H as [?|?]; [auto|right; right; done].
    + intros H. apply IH in H as [?|?]; [auto|right; right; done].
Qed.

Lemma rstrip_lines_chars c s : c ∈ rstrip_lines s -> c ∈ s.
Proof.
  induction s as [|x s IH]; [done|]. cbn [rstrip_lines].
  destruct (N.eqb_spec x NL) as [->|].
  - rewrite !elem_of_cons. intros [?|?]; auto.
  - destruct (isspace x && eol_blank s).
    + intros H. right. auto.
    + rewrite !elem_of_cons. intros [?|?]; auto.
Qed.

Lemma strip_chars c s : c ∈ strip s -> c ∈ s.
Proof. unfold strip. intros H. apply lstrip_subseteq, rstrip_subseteq. done. Qed.

(** [clean_whitespace] adds no character but the space and the newline. *)
Lemma clean_whitespace_chars c s :
  c ∈ clean_whitespace s -> c = 32%N \/ c = NL \/ c ∈ s.
Proof.
  rewrite clean_whitespace_eq. intros H.
  apply strip_chars, rstrip_lines_chars, sub_from_chars in H as [H|H].
  - apply elem_of_cons in H as [->|H]; [auto|].
    apply elem_of_cons in H as [->|H]; [auto|]. apply elem_of_nil in H. done.
  - apply sub_from_chars in H as [H|H]; [|auto].
    apply elem_of_cons in H as [->|H]; [auto|]. apply elem_of_nil in H. done.
Qed.

Lemma clean_whitespace_no_ligature s :
  Forall (fun c => c ∉ s) ligature_chars ->
  Forall (fun c => c ∉ clean_whitespace s) ligature_chars.
Proof.
  intros Hs. unfold ligature_chars, LIGATURES in *. cbn [map head default fst] in *.
  repeat (apply Forall_cons in Hs as [? Hs]).
  repeat constructor; intros Hc;
    apply clean_whitespace_chars in Hc as [Hc|[Hc|Hc]]; done.
Qed.

End CharsFacts.
(** ** Line breaks after a hyphen *)

Module HyphenFacts.
Import StrFacts ReFacts SubFacts SpacesFacts BlankLinesFacts LinesFacts CleanFacts.

Lemma match_hyphen_unfold bol s :
  match_rest re_hyphen_break bol s
  = match s with
    | c :: t => if (c =? 45)%N then star isspace false t K_break else None
    | [] => None
    end.
Proof. destruct s; reflexivity. Qed.

Lemma K_break_cons b c t :
  K_break b (c :: t) = if (c =? NL)%N then star isspace false t kend else None.
Proof. reflexivity. Qed.

Lemma star_break_spec : forall x b,
  (star isspace b x K_break = None <-> lead_nl x = O)
  /\ (forall r, star isspace b x K_break = Some r -> starts_visible r).
Proof.
  induction x as [|c t IH]; intros b.
  - split; [done|]. intros r Hr. discriminate Hr.
  - cbn [star lead_nl]. destruct (IH false) as [IHn IHs].
    destruct (isspace c) eqn:Ews.
    + destruct (star isspace false t K_break) as [a|] eqn:Ep.
      * split.
        -- split; [done|]. intros Hl. destruct (c =? NL)%N; [done|].
           apply IHn in Hl. done.
        -- intros r [= <-]. apply IHs. done.
      * assert (Hl : lead_nl t = O) by (apply IHn; done).
        rewrite K_break_cons. destruct (c =? NL)%N eqn:Ec.
        -- destruct (star_all isspace t false) as (w & rest & Hs & Heq & Hw & Hr).
           fold kend in Hs. rewrite Hs. split; [split; done|].
           intros r [= <-]. exact Hr.
        -- split; [split; done|]. done.
    + rewrite K_break_cons. destruct (c =? NL)%N eqn:Ec.
      * apply isspace_NL in Ec. congruence.
      * split; [split; done|]. done.
Qed.

Lemma hyphen_none bol s :
  match_rest re_hyphen_break bol s = None
  <-> (forall t, s = 45%N :: t -> lead_nl t = O).
Proof.
  rewrite match_hyphen_unfold. destruct s as [|c t]; [split; done|].
  destruct (N.eqb_spec c 45%N) as [->|Hc].
  - rewrite (proj1 (star_break_spec t false)). split.
    + intros Hl t' [= <-]. done.
    + intros Hl. apply Hl. done.
  - split; [|done]. intros _ t' [= ? _]. done.
Qed.

Lemma hyphen_some bol s r :
  match_rest re_hyphen_break bol s = Some r ->
  starts_visible r /\ exists pre, s = 45%N :: pre ++ r.
Proof.
  intros Hm. rewrite match_hyphen_unfold in Hm.
  destruct s as [|c t]; [done|]. destruct (N.eqb_spec c 45%N) as [->|Hc]; [|done].
  split; [eapply (proj2 (star_break_spec t false)); eauto|].
  apply star_suffix in Hm as (pre & s' & b & -> & Hk).
  unfold K_break in Hk. apply run_suffix in Hk as (pre2 & s2 & b2 & -> & [= ->]).
  exists (pre ++ pre2). rewrite <- !app_assoc. done.
Qed.

Lemma unbreak_bol bol s : sub_from re_hyphen_break [] bol s 0 = unbreak s.
Proof.
  destruct s as [|c t]; cbn [sub_from]; unfold match_len;
    rewrite !match_hyphen_unfold; done.
Qed.

Lemma unbreak_cases s :
  (s = [] /\ unbreak s = [])
  \/ (exists c t, s = c :: t /\ (c = 45%N -> lead_nl t = O)
        /\ unbreak s = c :: unbreak t)
  \/ (exists pre r, s = 45%N :: pre ++ r /\ starts_visible r
        /\ unbreak s = unbreak r).
Proof.
  destruct s as [|c t]; [left; split; [done|]; apply sub_nil; done|]. right.
  destruct (match_rest re_hyphen_break false (c :: t)) as [r|] eqn:Em.
  - right. destruct (hyphen_some _ _ _ Em) as (Hr & pre & Heq).
    injection Heq as -> ->. exists pre, r. repeat split; [done|].
    rewrite (sub_step_match _ _ _ _ _ _ Em). done.
  - left. exists c, t. repeat split.
    + intros ->. eapply hyphen_none; eauto.
    + apply sub_step_none. done.
Qed.

Lemma starts_visible_lead_nl s : starts_visible s -> lead_nl s = O.
Proof.
  destruct s as [|c t]; [done|]. intros H. specialize (H c eq_refl).
  cbn [lead_nl]. destruct (c =? NL)%N eqn:E; [apply isspace_NL in E; congruence|].
  rewrite H. done.
Qed.

Lemma unbreak_starts_visible : forall n s,
  (length s <= n)%nat -> starts_visible s -> starts_visible (unbreak s).
Proof.
  induction n as [|n IH]; intros s Hn Hs;
    destruct (unbreak_cases s) as [[-> ->]|[(c & t & -> & Hc & ->)|(pre & r & -> & Hr & ->)]];
    try done; try (simpl in Hn; lia).
  apply IH; [simpl in Hn; rewrite length_app in Hn; lia|done].
Qed.

Lemma lead_nl_unbreak : forall s, (lead_nl (unbreak s) <= lead_nl s)%nat.
Proof.
  induction s as [|c t IH]; [rewrite sub_nil; done|].
  destruct (isspace c) eqn:Ews.
  - rewrite sub_step_none.
    + cbn [lead_nl]. rewrite Ews. destruct (c =? NL)%N; lia.
    + apply hyphen_none. intros t' [= -> _]. done.
  - rewrite (starts_visible_lead_nl (unbreak (c :: t))); [lia|].
    apply (unbreak_starts_visible (length (c :: t))); [done|].
    intros c' [= <-]. done.
Qed.

(** After the substitution no hyphen is left at the end of a line. *)
Lemma unbreak_nobreak : forall n s, (length s <= n)%nat -> nobreak (unbreak s).
Proof.
  induction n as [|n IH]; intros s Hn;
    destruct (unbreak_cases s) as [[-> ->]|[(c & t & -> & Hc & ->)|(pre & r & -> & Hr & ->)]];
    try done; try (simpl in Hn; lia).
  - cbn [nobreak]. split; [|apply IH; simpl in Hn; lia].
    intros H45. pose proof (lead_nl_unbreak t). specialize (Hc H45). lia.
  - apply IH. simpl in Hn. rewrite length_app in Hn. lia.
Qed.

Lemma unbreak_fix : forall s, nobreak s -> unbreak s = s.
Proof.
  induction s as [|c t IH]; intros Hs.
  - apply sub_nil. done.
  - destruct Hs as [Hc Ht]. rewrite sub_step_none.
    + rewrite IH; done.
    + apply hyphen_none. intros t' [= -> <-]. apply Hc. done.
Qed.

End HyphenFacts.

Module SoftHyphenFacts.
Import StrFacts ReFacts SubFacts SpacesFacts BlankLinesFacts LinesFacts CleanFacts.
Import NormalizerFacts CharsFacts HyphenFacts.

Lemma nobreak_suffix a r : nobreak (a ++ r) -> nobreak r.
Proof. induction a as [|c a IH]; [done|]. intros [_ H]. auto. Qed.

Lemma nobreak_prefix y b : nobreak (y ++ b) -> nobreak y.
Proof.
  induction y as [|c y IH]; [done|]. intros [Hc H]. split; [|auto].
  intros H45. pose proof (lead_nl_prefix y b). specialize (Hc H45). lia.
Qed.

Lemma strip_nobreak s : nobreak s -> nobreak (strip s).
Proof.
  intros Hs. unfold strip. destruct (lstrip_suffix s) as (a & Ha & _).
  rewrite Ha in Hs. apply nobreak_suffix in Hs.
  destruct (rstrip_prefix (lstrip s)) as (b & Hb & _).
  rewrite Hb in Hs. eapply nobreak_prefix; eauto.
Qed.

Lemma rstrip_lines_nobreak s : nobreak s -> nobreak (rstrip_lines s).
Proof.
  induction s as [|c t IH]; [done|]. intros [Hc Ht]. cbn [rstrip_lines].
  destruct (N.eqb_spec c NL) as [->|Hne].
  - cbn [nobreak]. split; [done|auto].
  - destruct (isspace c && eol_blank t); [auto|]. cbn [nobreak].
    rewrite lead_nl_rstrip_lines. auto.
Qed.

Lemma squeeze_nobreak : forall n s,
  (length s <= n)%nat -> nobreak s -> nobreak (squeeze s).
Proof.
  induction n as [|n IH]; intros s Hn Hs;
    destruct (squeeze_cases s) as [[-> ->]|[(c & t & -> & Hc & ->)|(pre & r & -> & Hr & Hl & ->)]];
    try done; try (simpl in Hn; lia).
  - destruct Hs as [H45 Ht]. cbn [nobreak]. split; [|apply IH; [simpl in Hn; lia|done]].
    intros Hc45. pose proof (lead_nl_squeeze (length t) t ltac:(lia)).
    specialize (H45 Hc45). lia.
  - cbn [nobreak]. repeat split; try done.
    apply IH; [simpl in Hn; rewrite length_app in Hn; lia|].
    apply (nobreak_suffix (NL :: pre)). done.
Qed.

Abbreviation collapse s := (sub_from re_spaces [32%N] false s 0).

Lemma collapse_bol bol s : sub_from re_spaces [32%N] bol s 0 = collapse s.
Proof. destruct s as [|c t]; reflexivity. Qed.

Lemma lead_nl_spaces w r :
  Forall (fun c => only 32%N c = true) w -> lead_nl (w ++ r) = lead_nl r.
Proof.
  induction w as [|c w IH]; [done|]. intros Hw. inversion Hw as [|? ? Hc Hw']; subst.
  unfold only in Hc. apply N.eqb_eq in Hc. subst c. cbn [app lead_nl]. auto.
Qed.

Lemma collapse_cases s :
  (s = [] /\ collapse s = [])
  \/ (exists c t, s = c :: t /\ c <> 32%N /\ collapse s = c :: collapse t)
  \/ (exists pre r, s = 32%N :: pre ++ r /\ lead_nl (pre ++ r) = lead_nl r
        /\ collapse s = 32%N :: collapse r).
Proof.
  destruct s as [|c t].
  - left. split; [done|]. apply sub_nil, spaces_no_match. done.
  - right. destruct (N.eq_dec c 32%N) as [->|Hc].
    + right. destruct (star_all (only 32%N) t false) as (w & rest & Hs & -> & Hw & _).
      exists w, rest. split; [done|]. split; [apply lead_nl_spaces; done|].
      apply (sub_step_match re_spaces [32%N] false 32%N w rest). exact Hs.
    + left. exists c, t. repeat split; [done|].
      apply sub_step_none, spaces_no_match. intros [= ?]. done.
Qed.

Lemma lead_nl_collapse : forall n s,
  (length s <= n)%nat -> (lead_nl (collapse s) <= lead_nl s)%nat.
Proof.
  induction n as [|n IH]; intros s Hn;
    destruct (collapse_cases s) as [[-> ->]|[(c & t & -> & Hc & ->)|(pre & r & -> & Hl & ->)]];
    try done; try (simpl in Hn; lia).
  - specialize (IH t ltac:(simpl in Hn; lia)). cbn [lead_nl].
    destruct (c =? NL)%N; [lia|]. destruct (isspace c); lia.
  - specialize (IH r ltac:(simpl in Hn; rewrite length_app in Hn; lia)).
    cbn [lead_nl]. change (32 =? NL)%N with false. change (isspace 32%N) with true.
    cbn iota. lia.
Qed.

Lemma collapse_nobreak : forall n s,
  (length s <= n)%nat -> nobreak s -> nobreak (collapse s).
Proof.
  induction n as [|n IH]; intros s Hn Hs;
    destruct (collapse_cases s) as [[-> ->]|[(c & t & -> & Hc & ->)|(pre & r & -> & Hl & ->)]];
    try done; try (simpl in Hn; lia).
  - destruct Hs as [H45 Ht]. cbn [nobreak]. split; [|apply IH; [simpl in Hn; lia|done]].
    intros Hc45. pose proof (lead_nl_collapse (length t) t ltac:(lia)).
    specialize (H45 Hc45). lia.
  - cbn [nobreak]. split; [done|].
    apply IH; [simpl in Hn; rewrite length_app in Hn; lia|].
    apply (nobreak_suffix (32%N :: pre)). done.
Qed.

Lemma clean_whitespace_nobreak s : nobreak s -> nobreak (clean_whitespace s).
Proof.
  intros Hs. rewrite clean_whitespace_eq, collapse_bol.
  apply strip_nobreak, rstrip_lines_nobreak.
  eapply squeeze_nobreak; [done|]. eapply collapse_nobreak; done.
Qed.

(** *** Without a soft hyphen in the text *)

Lemma normalize_ligatures_no_soft_hyphen s :
  173%N ∉ s -> 173%N ∉ normalize_ligatures s.
Proof.
  intros Hs. unfold normalize_ligatures, LIGATURES. cbn [fold_left].
  repeat (apply replace_keeps_absent; [|notin_literal]). done.
Qed.

Lemma unbreak_chars c s : c ∈ unbreak s -> c ∈ s.
Proof.
  intros H. apply sub_from_chars in H as [H|H]; [|done].
  apply elem_of_nil in H. done.
Qed.

Lemma unbreak_no_ligature s :
  Forall (fun c => c ∉ s) ligature_chars ->
  Forall (fun c => c ∉ unbreak s) ligature_chars.
Proof.
  intros Hs. eapply Forall_impl; [exact Hs|].
  intros c Hc H. apply Hc, unbreak_chars, H.
Qed.

Lemma clean_whitespace_no_soft_hyphen s :
  173%N ∉ s -> 173%N ∉ clean_whitespace s.
Proof.
  intros Hs H. apply clean_whitespace_chars in H as [H|[H|H]]; done.
Qed.

(** Without a soft hyphen, [remove_soft_hyphens] is the substitution. *)
Lemma remove_soft_hyphens_unbreak s :
  173%N ∉ s -> remove_soft_hyphens s = unbreak s.
Proof.
  intros Hs. unfold remove_soft_hyphens, sub. rewrite unbreak_bol.
  apply replace_absent. intros H. apply Hs, unbreak_chars, H.
Qed.

Lemma remove_soft_hyphens_fix s :
  173%N ∉ s -> nobreak s -> remove_soft_hyphens s = s.
Proof.
  intros Hs Hn. rewrite remove_soft_hyphens_unbreak by done. apply unbreak_fix, Hn.
Qed.

End SoftHyphenFacts.
Import NormalizerFacts CleanFacts CharsFacts HyphenFacts SoftHyphenFacts.

(** ** More about the normalizer *)

Import StrFacts ReFacts SubFacts SpacesFacts BlankLinesFacts LinesFacts CleanFacts.
Import NormalizerFacts CharsFacts HyphenFacts SoftHyphenFacts.

Module VisibleFacts.

Lemma run_consumes {A} q r : consumes_only q r ->
  forall s bol (k : bool -> str -> option A) a,
  run r bol s k = Some a ->
  exists pre s' b, s = pre ++ s' /\ Forall (fun c => q c = true) pre /\ k b s' = Some a.
Proof.
  induction r as [|p|p|r1 IH1 r2 IH2| |]; intros Hq s bol k a Hr; cbn [run] in Hr.
  - exists [], s, bol. done.
  - destruct s as [|c t]; [done|]. destruct (p c) eqn:E; [|done].
    exists [c], t, false. repeat split; [|done]. constructor; [|constructor].
    apply Hq, E.
  - apply star_sound in Hr as (w & s' & b & -> & Hw & Hk).
    exists w, s', b. repeat split; [|done].
    eapply Forall_impl; [exact Hw|]. intros c Hc. apply Hq, Hc.
  - destruct Hq as [Hq1 Hq2].
    apply (IH1 Hq1) in Hr as (pre1 & s1 & b1 & -> & H1 & Hr).
    apply (IH2 Hq2) in Hr as (pre2 & s2 & b2 & -> & H2 & Hr).
    exists (pre1 ++ pre2), s2, b2. rewrite <- app_assoc. repeat split; [|done].
    apply Forall_app. done.
  - destruct bol; [|done]. exists [], s, true. done.
  - exists [], s, bol. repeat split; [done|].
    destruct s as [|c [|c' t]]; try done. destruct (c =? NL)%N; done.
Qed.

Lemma match_rest_consumes q r bol s rest :
  consumes_only q r -> match_rest r bol s = Some rest ->
  exists pre, s = pre ++ rest /\ Forall (fun c => q c = true) pre.
Proof.
  unfold match_rest. intros Hq Hr.
  apply (run_consumes q r Hq) in Hr as (pre & s' & b & -> & Hp & [= ->]). eauto.
Qed.

Lemma match_len_consumes q r bol s m :
  consumes_only q r -> match_len r bol s = Some m ->
  Forall (fun c => q c = true) (take m s).
Proof.
  unfold match_len. intros Hq Hm.
  destruct (match_rest r bol s) as [rest|] eqn:E; [|done].
  injection Hm as <-.
  apply (match_rest_consumes q) in E as (pre & -> & Hp); [|done].
  rewrite length_app. replace (length pre + length rest - length rest)%nat
    with (length pre) by lia.
  rewrite take_app_length. done.
Qed.

Lemma filter_none f (l : str) :
  Forall (fun c => f c = false) l -> List.filter f l = [].
Proof.
  induction 1 as [|c l Hc _ IH]; [done|]. cbn [List.filter]. rewrite Hc. done.
Qed.

(** A substitution whose pattern consumes, and whose replacement holds,
    only characters outside [f] keeps the characters of [f]. *)
Lemma sub_from_filter f q r repl :
  consumes_only q r -> (forall c, q c = true -> f c = false) ->
  List.filter f repl = [] ->
  forall s bol n,
  List.filter f (sub_from r repl bol s n) = List.filter f (drop n s).
Proof.
  intros Hq Hf Hrepl. induction s as [|c t IH]; intros bol n; cbn [sub_from].
  - rewrite drop_nil. destruct n; [|done]. destruct (match_len r bol []); done.
  - destruct n as [|n]; [|apply IH].
    rewrite drop_0. destruct (match_len r bol (c :: t)) as [[|m]|] eqn:E.
    + rewrite List.filter_app, Hrepl. cbn [app List.filter].
      rewrite IH, drop_0. done.
    + rewrite List.filter_app, Hrepl, IH. cbn [app].
      apply (match_len_consumes q) in E; [|done].
      transitivity (List.filter f (take (S m) (c :: t) ++ drop (S m) (c :: t)));
        [|rewrite take_drop; done].
      rewrite List.filter_app, (filter_none f (take (S m) (c :: t))); [done|].
      eapply Forall_impl; [exact E|]. intros x Hx. apply Hf, Hx.
    + cbn [List.filter]. rewrite IH, drop_0. done.
Qed.

Lemma visible_app a b : visible (a ++ b) = visible a ++ visible b.
Proof. apply List.filter_app. Qed.

Lemma visible_blank s : visible s = [] <-> blank s.
Proof.
  unfold visible, blank. induction s as [|c t IH]; [split; [constructor|done]|].
  cbn [List.filter]. destruct (isspace c) eqn:E; cbn [negb].
  - rewrite IH. split; [intros Ht; constructor; done|].
    intros Hb. inversion Hb; done.
  - split; [done|]. intros Hb. inversion Hb; congruence.
Qed.

Lemma visible_lstrip s : visible (lstrip s) = visible s.
Proof.
  destruct (lstrip_suffix s) as (a & Ha & Hb). rewrite Ha at 2.
  rewrite visible_app. apply visible_blank in Hb. rewrite Hb. done.
Qed.

Lemma visible_rstrip s : visible (rstrip s) = visible s.
Proof.
  destruct (rstrip_prefix s) as (b & Hs & Hb). rewrite Hs at 2.
  rewrite visible_app. apply visible_blank in Hb. rewrite Hb, app_nil_r. done.
Qed.

Lemma visible_strip s : visible (strip s) = visible s.
Proof. unfold strip. rewrite visible_rstrip, visible_lstrip. done. Qed.

Lemma visible_rstrip_lines s : visible (rstrip_lines s) = visible s.
Proof.
  unfold visible. induction s as [|c t IH]; [done|]. cbn [rstrip_lines].
  destruct (N.eqb_spec c NL) as [->|Hne].
  - cbn [List.filter]. rewrite IH. done.
  - destruct (isspace c) eqn:E; cbn [andb].
    + destruct (eol_blank t); cbn [List.filter]; rewrite ?E; cbn [negb]; exact IH.
    + cbn [List.filter]. rewrite E, IH. done.
Qed.

Lemma consumes_spaces : consumes_only isspace re_spaces.
Proof.
  assert (forall c, only 32%N c = true -> isspace c = true).
  { intros c Hc. unfold only in Hc. apply N.eqb_eq in Hc. subst. done. }
  unfold re_spaces, Plus. cbn [consumes_only]. auto.
Qed.

Lemma only_NL_isspace c : only NL c = true -> isspace c = true.
Proof. intros Hc. unfold only in Hc. apply N.eqb_eq in Hc. subst. done. Qed.

Lemma consumes_blank_lines : consumes_only isspace re_blank_lines.
Proof.
  pose proof only_NL_isspace. unfold re_blank_lines, Plus. cbn [seq consumes_only].
  repeat split; auto.
Qed.

Lemma visible_clean_whitespace s : visible (clean_whitespace s) = visible s.
Proof.
  rewrite clean_whitespace_eq, visible_strip, visible_rstrip_lines. unfold visible.
  rewrite (sub_from_filter _ isspace re_blank_lines), drop_0;
    [|apply consumes_blank_lines|intros c ->; done|done].
  rewrite (sub_from_filter _ isspace re_spaces), drop_0;
    [done|apply consumes_spaces|intros c ->; done|done].
Qed.

(** *** The shape of a clean text *)

Lemma nodouble_no_pair s a b : nodouble s -> s <> a ++ [32%N; 32%N] ++ b.
Proof.
  intros Hs ->. apply nodouble_suffix in Hs. destruct Hs as [Hs _]. apply Hs; done.
Qed.

Lemma norun3_no_triple s a b : norun3 s -> s <> a ++ [NL; NL; NL] ++ b.
Proof.
  intros Hs ->. apply norun3_suffix in Hs. destruct Hs as [Hs _].
  specialize (Hs eq_refl). cbn in Hs. lia.
Qed.

Lemma rstrip_no_NL l : NL ∉ l -> NL ∉ rstrip l.
Proof. intros Hl H. apply Hl, rstrip_subseteq, H. Qed.

Lemma trailfree_lines s : trailfree s -> Forall (fun l => rstrip l = l) (split NL s).
Proof.
  intros Hs. apply rstrip_lines_fix in Hs. rewrite <- join_rstrip_split in Hs.
  apply (f_equal (split NL)) in Hs. rewrite split_join in Hs.
  - revert Hs. generalize (split NL s). induction l as [|l ls IH]; [constructor|].
    intros [= Hl Hls]. constructor; auto.
  - intros Hn. apply fmap_nil_inv in Hn. apply (split_not_nil NL s), Hn.
  - apply Forall_fmap. eapply Forall_impl; [apply split_no_sep|].
    intros l Hl. apply rstrip_no_NL, Hl.
Qed.

End VisibleFacts.
Import VisibleFacts.

(** X1. The text returned by [clean_whitespace] is in normal form: it has
    no white space at either end, none of its lines ends with white
    space, and it has neither two spaces nor three newlines in a row, so
    at most one empty line separates two paragraphs. *)
Theorem clean_whitespace_normal_form (s : str) :
  let out := clean_whitespace s in
  strip out = out
  /\ Forall (fun l => rstrip l = l) (split NL out)
  /\ (forall a b, out <> a ++ [32%N; 32%N] ++ b)
  /\ (forall a b, out <> a ++ [NL; NL; NL] ++ b).
Proof.
  cbv zeta. destruct (clean_whitespace_clean s) as (Hd & Hr & Ht & Hs).
  split; [exact Hs|]. split; [apply trailfree_lines, Ht|].
  split; intros a b; [apply nodouble_no_pair, Hd|apply norun3_no_triple, Hr].
Qed.

(** X2. [clean_whitespace] is idempotent: cleaning a cleaned text changes
    nothing. *)
Theorem clean_whitespace_twice (s : str) :
  clean_whitespace (clean_whitespace s) = clean_whitespace s.
Proof. apply clean_whitespace_fix, clean_whitespace_clean. Qed.

(** X3. [clean_whitespace] touches white space only: the characters that
    are not white space come out as they went in, in the same order. *)
Theorem clean_whitespace_keeps_visible (s : str) :
  visible (clean_whitespace s) = visible s.
Proof. apply visible_clean_whitespace. Qed.

(** X4. [clean_whitespace] returns the empty string exactly for the texts
    made of white space only (the empty text among them). *)
Theorem clean_whitespace_empty_iff_blank (s : str) :
  clean_whitespace s = [] <-> blank s.
Proof.
  split.
  - intros He. apply visible_blank. rewrite <- visible_clean_whitespace, He. done.
  - intros Hb. destruct (clean_whitespace_clean s) as (_ & _ & _ & Hs).
    rewrite <- Hs. apply strip_nil, visible_blank.
    rewrite visible_clean_whitespace. apply visible_blank, Hb.
Qed.

Module LigatureFacts.

Lemma flat_map_singleton (s : str) : flat_map (fun x => [x]) s = s.
Proof. induction s as [|c t IH]; [done|]. cbn [flat_map app]. rewrite IH. done. Qed.

Lemma flat_map_flat_map (f g : char -> str) (s : str) :
  flat_map g (flat_map f s) = flat_map (fun x => flat_map g (f x)) s.
Proof.
  induction s as [|c t IH]; [done|]. cbn [flat_map].
  rewrite flat_map_app, IH. done.
Qed.

Lemma flat_map_ext_str (f g : char -> str) (s : str) :
  (forall c, f c = g c) -> flat_map f s = flat_map g s.
Proof. intros E. induction s as [|c t IH]; [done|]. cbn [flat_map]. rewrite E, IH. done. Qed.

End LigatureFacts.
Import LigatureFacts.

(** X5. [normalize_ligatures] works character by character: every
    character that is a key of [LIGATURES] gives its letters, every other
    character is kept, and the order in which the loop visits the
    dictionary plays no part. *)
Theorem normalize_ligatures_by_character (s : str) :
  normalize_ligatures s = flat_map expand_ligature s.
Proof.
  unfold normalize_ligatures, LIGATURES. cbn [fold_left].
  rewrite !replace_char, !flat_map_flat_map.
  apply flat_map_ext_str. intros c.
  destruct (N.eq_dec c 64256%N) as [->|H0]; [vm_compute; reflexivity|].
  destruct (N.eq_dec c 64257%N) as [->|H1]; [vm_compute; reflexivity|].
  destruct (N.eq_dec c 64258%N) as [->|H2]; [vm_compute; reflexivity|].
  destruct (N.eq_dec c 64259%N) as [->|H3]; [vm_compute; reflexivity|].
  destruct (N.eq_dec c 64260%N) as [->|H4]; [vm_compute; reflexivity|].
  destruct (N.eq_dec c 64261%N) as [->|H5]; [vm_compute; reflexivity|].
  destruct (N.eq_dec c 64262%N) as [->|H6]; [vm_compute; reflexivity|].
  unfold expand_ligature, LIGATURES. cbn [dict_get].
  repeat (destruct (decide _) as [[= E]|_]; [congruence|]).
  cbn [default].
  repeat (match goal with
          | |- context [(c =? ?k)%N] =>
              assert ((c =? k)%N = false) as -> by (apply N.eqb_neq; assumption)
          end; cbn [flat_map app]).
  reflexivity.
Qed.

Module DeletionFacts.

Lemma sub_from_empty_sublist r : forall s bol n, sub_from r [] bol s n `sublist_of` s.
Proof.
  induction s as [|c t IH]; intros bol n; cbn [sub_from].
  - destruct n; [|done]. destruct (match_len r bol []); done.
  - destruct n as [|n]; [|apply sublist_cons, IH].
    destruct (match_len r bol (c :: t)) as [[|m]|]; cbn [app].
    + apply sublist_skip, IH.
    + apply sublist_cons, IH.
    + apply sublist_skip, IH.
Qed.

Lemma replace_empty_sublist c s : replace [c] [] s `sublist_of` s.
Proof.
  rewrite replace_char. induction s as [|x t IH]; [done|]. cbn [flat_map].
  destruct (x =? c)%N; cbn [app]; [apply sublist_cons, IH|apply sublist_skip, IH].
Qed.

Lemma filter_replace_empty f c s :
  f c = false -> List.filter f (replace [c] [] s) = List.filter f s.
Proof.
  intros Hc. rewrite replace_char. induction s as [|x t IH]; [done|]. cbn [flat_map].
  destruct (N.eqb_spec x c) as [->|Hne]; cbn [app List.filter].
  - rewrite Hc. exact IH.
  - rewrite IH. done.
Qed.

Lemma consumes_hyphen_break :
  consumes_only (fun c => isspace c || (c =? 45)%N) re_hyphen_break.
Proof.
  unfold re_hyphen_break. cbn [seq consumes_only].
  assert (H1 : forall c, only 45%N c = true -> isspace c || (c =? 45)%N = true).
  { intros c Hc. unfold only in Hc. rewrite Hc. apply orb_true_r. }
  assert (H2 : forall c, isspace c = true -> isspace c || (c =? 45)%N = true).
  { intros c ->. done. }
  assert (H3 : forall c, only NL c = true -> isspace c || (c =? 45)%N = true).
  { intros c Hc. apply H2, only_NL_isspace, Hc. }
  repeat split; auto.
Qed.

(** Two texts that start with a visible character and are the same after
    white space are the same. *)
Lemma blank_prefix_unique : forall x y r b,
  blank x -> blank y -> starts_visible r -> starts_visible b ->
  x ++ r = y ++ b -> r = b.
Proof.
  induction x as [|c x IH]; intros y r b Hx Hy Hr Hb E.
  - destruct y as [|d y]; [done|]. cbn [app] in E. subst r.
    inversion Hy as [|? ? Hd _]; subst. specialize (Hr d eq_refl). congruence.
  - destruct y as [|d y].
    + cbn [app] in E. subst b.
      inversion Hx as [|? ? Hc _]; subst. specialize (Hb c eq_refl). congruence.
    + injection E as -> E. inversion Hx; inversion Hy; subst. eapply IH; eauto.
Qed.

Lemma lead_nl_blank_NL w b : blank w -> NL ∈ w -> (0 < lead_nl (w ++ b))%nat.
Proof.
  induction w as [|c w IH]; intros Hw Hn; [apply elem_of_nil in Hn; done|].
  inversion Hw as [|? ? Hc Hw']; subst. cbn [app lead_nl].
  destruct (N.eqb_spec c NL) as [->|Hne]; [lia|]. rewrite Hc.
  apply IH; [done|]. apply elem_of_cons in Hn as [?|?]; [congruence|done].
Qed.

(** The pattern [-\s*\n\s*] at a hyphen that ends a line: it takes the
    white space up to the next visible character. *)
Lemma hyphen_break_match bol w b :
  blank w -> NL ∈ w -> starts_visible b ->
  match_rest re_hyphen_break bol (45%N :: w ++ b) = Some b.
Proof.
  intros Hw Hn Hb. rewrite match_hyphen_unfold. change (45 =? 45)%N with true. cbn iota.
  destruct (star_break_spec (w ++ b) false) as [Hnone Hsome].
  destruct (star isspace false (w ++ b) K_break) as [r|] eqn:E.
  - f_equal. specialize (Hsome r eq_refl).
    apply star_sound in E as (w' & s' & b' & Hs & Hw' & Hk). unfold K_break in Hk.
    apply (run_consumes isspace) in Hk as (pre & s2 & b2 & -> & Hp & Hk).
    + unfold kend in Hk. injection Hk as ->.
      rewrite app_assoc in Hs. symmetry.
      eapply (blank_prefix_unique w (w' ++ pre)); [done| |done|done|exact Hs].
      apply Forall_app. done.
    + cbn [consumes_only]. split; [apply only_NL_isspace|done].
  - pose proof (lead_nl_blank_NL w b Hw Hn). apply proj1 in Hnone.
    specialize (Hnone eq_refl). lia.
Qed.

Lemma unbreak_no_hyphen a t : 45%N ∉ a -> unbreak (a ++ t) = a ++ unbreak t.
Proof.
  induction a as [|c a IH]; intros Ha; [done|].
  apply not_elem_of_cons in Ha as [Hc Ha]. cbn [app].
  rewrite sub_step_none; [rewrite IH; done|].
  apply hyphen_none. intros t' [= ? _]. done.
Qed.

End DeletionFacts.
Import DeletionFacts.

(** X6. [remove_soft_hyphens] only deletes: its result is a subsequence
    of the text, the characters other than white space, the hyphen-minus
    and the soft hyphen are all kept, and no soft hyphen U+00AD is
    left. *)
Theorem remove_soft_hyphens_only_deletes (s : str) :
  let out := remove_soft_hyphens s in
  out `sublist_of` s
  /\ List.filter solid out = List.filter solid s
  /\ 173%N ∉ out.
Proof.
  cbv zeta. unfold remove_soft_hyphens, sub. split; [|split].
  - etrans; [apply replace_empty_sublist|apply sub_from_empty_sublist].
  - rewrite filter_replace_empty by done.
    rewrite (sub_from_filter solid _ _ _ consumes_hyphen_break), drop_0; [done| |done].
    intros c Hc. unfold solid. apply orb_true_iff in Hc as [->| ->]; [done|].
    rewrite orb_true_r. done.
  - apply replace_removes, not_elem_of_nil.
Qed.

(** X7. A word broken at the end of a line is joined: after a text [a]
    without hyphens, a hyphen followed by white space that holds a newline
    disappears together with that white space, up to the next visible
    character. *)
Theorem remove_soft_hyphens_joins_broken_word (a w b : str) :
  45%N ∉ a -> 173%N ∉ a -> blank w -> NL ∈ w -> starts_visible b ->
  remove_soft_hyphens (a ++ [45%N] ++ w ++ b) = a ++ remove_soft_hyphens b.
Proof.
  intros Ha Ha' Hw Hn Hb. unfold remove_soft_hyphens, sub.
  rewrite (unbreak_bol true (a ++ _)), unbreak_no_hyphen by done. cbn [app].
  rewrite (sub_step_match _ _ _ _ _ _ (hyphen_break_match false w b Hw Hn Hb)).
  cbn [app]. rewrite !replace_char, flat_map_app. f_equal.
  - rewrite <- replace_char. apply replace_absent, Ha'.
  - rewrite (unbreak_bol true b). done.
Qed.

Lemma remove_soft_hyphens_joins_broken_word_witness :
  remove_soft_hyphens (py "exam" ++ [45%N] ++ [NL; 32%N] ++ py "ple")
  = py "exam" ++ remove_soft_hyphens (py "ple").
Proof.
  apply remove_soft_hyphens_joins_broken_word.
  - notin_literal.
  - notin_literal.
  - repeat constructor.
  - apply elem_of_cons. left. reflexivity.
  - intros c [= <-]. reflexivity.
Defined.

(** ** More about the filter: what is counted *)

Import PyNum TextFilter.

Module CountFacts.

Section Counting.
(** A loop body that counts the trimmed line when it passes the test [c]. *)
Context (c : str -> bool) (f : str -> gmap str nat -> gmap str nat).
Context (Hf : forall line m,
  f line m = if c (strip line)
             then <[ strip line := S (default O (m !! strip line)) ]> m
             else m).

Lemma foldr_count (L : list str) (m : gmap str nat) (k : str) :
  default O (foldr f m L !! k)
  = (default O (m !! k)
     + if c k then length (filter (fun l => strip l = k) L) else 0)%nat.
Proof.
  induction L as [|l L IH]; cbn [foldr].
  - rewrite filter_nil. destruct (c k); cbn; lia.
  - rewrite Hf, filter_cons. destruct (decide (strip l = k)) as [<-|Hne].
    + destruct (c (strip l)) eqn:Ec.
      * rewrite lookup_insert_eq. cbn [default length]. rewrite IH. unfold id. lia.
      * rewrite IH. lia.
    + destruct (c (strip l)); [rewrite lookup_insert_ne by done|]; exact IH.
Qed.

Lemma foldr_count_pos (L : list str) (m : gmap str nat) :
  (forall k n, m !! k = Some n -> (0 < n)%nat) ->
  forall k n, foldr f m L !! k = Some n -> (0 < n)%nat.
Proof.
  intros Hm. induction L as [|l L IH]; cbn [foldr]; [exact Hm|].
  intros k n. rewrite Hf. destruct (c (strip l)); [|apply IH].
  destruct (decide (strip l = k)) as [<-|Hne].
  - rewrite lookup_insert_eq. intros [= <-]. lia.
  - rewrite lookup_insert_ne by done. apply IH.
Qed.

Lemma length_filter_elements (P : str -> Prop) `{!forall x, Decision (P x)} (X : gset str) :
  length (filter P (elements X)) = size (filter P X).
Proof.
  unfold size, set_size. cbn. apply Permutation_length, NoDup_Permutation.
  - apply NoDup_filter, NoDup_elements.
  - apply NoDup_elements.
  - intros x. rewrite list_elem_of_filter, !elem_of_elements, elem_of_filter. done.
Qed.

(** The counter after the loop over the pages. *)
Definition count_pages (m : gmap str nat) (pages : list str) : gmap str nat :=
  foldl (fun m page => set_fold f m (list_to_set (split NL page) : gset str)) m pages.

Lemma count_pages_spec pages : forall m k,
  default O (count_pages m pages !! k)
  = (default O (m !! k) + if c k then occurrences k pages else 0)%nat.
Proof.
  unfold count_pages, occurrences.
  induction pages as [|page pages IH]; intros m k.
  - cbn [foldl]. rewrite fmap_nil. cbn [sum_list_with id]. destruct (c k); lia.
  - cbn [foldl]. rewrite fmap_cons. cbn [sum_list_with id].
    rewrite IH. unfold set_fold. cbn [compose]. rewrite foldr_count.
    rewrite length_filter_elements. fold (variants k page).
    destruct (c k); lia.
Qed.

Lemma count_pages_pos pages : forall m,
  (forall k n, m !! k = Some n -> (0 < n)%nat) ->
  forall k n, count_pages m pages !! k = Some n -> (0 < n)%nat.
Proof.
  unfold count_pages. induction pages as [|page pages IH]; intros m Hm; cbn [foldl];
    [exact Hm|].
  apply IH. unfold set_fold. cbn [compose]. apply foldr_count_pos, Hm.
Qed.

Lemma count_pages_lookup pages k n :
  count_pages ∅ pages !! k = Some n
  <-> c k = true /\ n = occurrences k pages /\ (0 < n)%nat.
Proof.
  pose proof (count_pages_spec pages ∅ k) as Hs. rewrite lookup_empty in Hs. cbn in Hs.
  split.
  - intros Hk. pose proof (count_pages_pos pages ∅) as Hp.
    assert (Hn : (0 < n)%nat).
    { eapply Hp; [|exact Hk]. intros k' n'. rewrite lookup_empty. done. }
    rewrite Hk in Hs. cbn in Hs. destruct (c k); [done|lia].
  - intros (Hc & -> & Hn). rewrite Hc in Hs.
    destruct (count_pages ∅ pages !! k) as [n|]; cbn in Hs; [congruence|lia].
Qed.

End Counting.

Lemma count_line_step line m :
  count_line line m
  = if counted (strip line)
    then <[ strip line := S (default O (m !! strip line)) ]> m
    else m.
Proof. reflexivity. Qed.

Lemma detect_counter pages :
  foldl count_page ∅ pages = count_pages count_line ∅ pages.
Proof. reflexivity. Qed.

Lemma variants_pos k page :
  (0 < variants k page)%nat <-> exists l, l ∈ split NL page /\ strip l = k.
Proof.
  unfold variants. split.
  - intros Hs. destruct (set_choose_L (filter (fun l => strip l = k)
        (list_to_set (split NL page) : gset str))) as (l & Hl).
    { intros He. rewrite He, size_empty in Hs. lia. }
    apply elem_of_filter in Hl as [Hk Hl]. apply elem_of_list_to_set in Hl. eauto.
  - intros (l & Hl & Hk).
    assert (Hin : l ∈ filter (fun l => strip l = k) (list_to_set (split NL page) : gset str)).
    { apply elem_of_filter. split; [done|]. apply elem_of_list_to_set. done. }
    destruct (decide (size (filter (fun l => strip l = k)
                (list_to_set (split NL page) : gset str)) = 0%nat)) as [E|]; [|lia].
    apply size_empty_inv in E. apply leibniz_equiv in E. rewrite E in Hin.
    apply elem_of_empty in Hin. done.
Qed.

Lemma occurrences_pos k pages :
  (0 < occurrences k pages)%nat
  <-> exists page l, page ∈ pages /\ l ∈ split NL page /\ strip l = k.
Proof.
  unfold occurrences. induction pages as [|page pages IH];
    [rewrite fmap_nil|rewrite fmap_cons]; cbn [sum_list_with id].
  - split; [lia|]. intros (p & l & Hp & _). apply elem_of_nil in Hp. done.
  - split.
    + intros Hs. destruct (decide (0 < variants k page)%nat) as [Hv|Hv].
      * apply variants_pos in Hv as (l & Hl & Hk). exists page, l.
        split; [apply elem_of_cons; auto|done].
      * destruct IH as [IH _]. destruct IH as (p & l & Hp & Hl); [lia|].
        exists p, l. split; [apply elem_of_cons; auto|done].
    + intros (p & l & Hp & Hl & Hk). apply elem_of_cons in Hp as [->|Hp].
      * assert (0 < variants k page)%nat by (apply variants_pos; eauto). lia.
      * destruct IH as [_ IH]. specialize (IH ltac:(eauto)). lia.
Qed.

End CountFacts.
Import CountFacts.

(** X8. What [detect_repetitive_lines] counts.  A line [k] is reported
    exactly when it is not empty, shorter than 200 characters, the trimmed
    form of some line, and the number of distinct raw lines that trim to
    [k], added over the pages, reaches the threshold.  A page counts once
    for every spelling of the line that it holds. *)
Theorem detect_repetitive_lines_counts (self : TextFilter.t) (pages : list str) (k : str) :
  k ∈ detect_repetitive_lines self pages
  <-> counted k = true
      /\ (0 < occurrences k pages)%nat
      /\ ge (Int (Z.of_nat (occurrences k pages))) (threshold self (length pages)) = true.
Proof.
  unfold detect_repetitive_lines. rewrite detect_counter, elem_of_dom.
  unfold is_Some. split.
  - intros (n & Hn). apply map_lookup_filter_Some in Hn as [Hn Hge].
    apply (count_pages_lookup counted count_line count_line_step) in Hn as (Hc & -> & Hp).
    cbn in Hge. done.
  - intros (Hc & Hp & Hge). exists (occurrences k pages).
    apply map_lookup_filter_Some. split; [|exact Hge].
    apply (count_pages_lookup counted count_line count_line_step). done.
Qed.

(** X9. Every line that [detect_repetitive_lines] reports is not empty,
    shorter than 200 characters, trimmed, and the trimmed form of a line
    of one of the pages. *)
Theorem detect_repetitive_lines_sound (self : TextFilter.t) (pages : list str) (k : str) :
  k ∈ detect_repetitive_lines self pages ->
  k <> [] /\ (length k < 200)%nat /\ strip k = k
  /\ exists page line, page ∈ pages /\ line ∈ split NL page /\ strip line = k.
Proof.
  unfold detect_repetitive_lines. rewrite detect_counter, elem_of_dom.
  intros (n & Hn). apply map_lookup_filter_Some in Hn as [Hn _].
  apply (count_pages_lookup counted count_line count_line_step) in Hn as (Hc & -> & Hp).
  unfold counted in Hc. apply andb_true_iff in Hc as [Ht Hl].
  apply Nat.ltb_lt in Hl. apply occurrences_pos in Hp as (page & l & Hpage & Hl' & Hk).
  split; [destruct k; done|]. split; [done|]. split; [|eauto].
  rewrite <- Hk. apply strip_idem.
Qed.

Lemma detect_repetitive_lines_sound_witness :
  let page := py "Annual report" ++ [NL] ++ py "body" in
  py "Annual report" ∈ detect_repetitive_lines (TextFilter.init 3) [page; page; page]
  /\ exists p line, p ∈ [page; page; page] /\ line ∈ split NL p
       /\ strip line = py "Annual report".
Proof.
  cbv zeta.
  assert (H : py "Annual report" ∈ detect_repetitive_lines (TextFilter.init 3)
                (let page := py "Annual report" ++ [NL] ++ py "body" in [page; page; page])).
  { refine (bool_decide_unpack _ _). vm_compute. exact I. }
  split; [exact H|].
  apply (detect_repetitive_lines_sound _ _ _ H).
Defined.

Module OncePerPageFacts.

Lemma size_at_most_one (X : gset str) :
  (forall x y, x ∈ X -> y ∈ X -> x = y) -> (size X <= 1)%nat.
Proof.
  intros HX. destruct (decide (X = ∅)) as [->|Hne]; [rewrite size_empty; lia|].
  apply set_choose_L in Hne as (x & Hx).
  assert (X = {[ x ]}) as ->; [|rewrite size_singleton; lia].
  apply set_eq. intros y. rewrite elem_of_singleton. split; [intros Hy; apply HX; done|].
  intros ->. done.
Qed.

Lemma variants_once k page :
  (forall l l', l ∈ split NL page -> l' ∈ split NL page -> strip l = strip l' -> l = l') ->
  variants k page = if decide (k ∈ strip <$> split NL page) then 1%nat else 0%nat.
Proof.
  intros Hinj. destruct (decide _) as [Hin|Hout].
  - apply list_elem_of_fmap in Hin as (l & -> & Hl).
    assert (0 < variants (strip l) page)%nat by (apply variants_pos; eauto).
    assert (variants (strip l) page <= 1)%nat; [|lia].
    apply size_at_most_one. intros x y Hx Hy.
    apply elem_of_filter in Hx as [Hx1 Hx2]. apply elem_of_filter in Hy as [Hy1 Hy2].
    apply elem_of_list_to_set in Hx2, Hy2. apply Hinj; congruence.
  - destruct (decide (0 < variants k page)%nat) as [Hv|Hv]; [|lia].
    apply variants_pos in Hv as (l & Hl & Hk). exfalso. apply Hout.
    apply list_elem_of_fmap. eauto.
Qed.

Lemma occurrences_once k pages :
  (forall page l l', page ∈ pages -> l ∈ split NL page -> l' ∈ split NL page ->
     strip l = strip l' -> l = l') ->
  occurrences k pages = pages_with k pages.
Proof.
  unfold occurrences, pages_with. induction pages as [|page pages IH]; intros Hinj; [done|].
  rewrite fmap_cons, filter_cons. cbn [sum_list_with id].
  rewrite IH by (intros p l l' Hp; apply Hinj, elem_of_cons; auto).
  rewrite variants_once by (intros l l'; apply Hinj, elem_of_cons; auto).
  destruct (decide _); done.
Qed.

End OncePerPageFacts.
Import OncePerPageFacts.

(** X10. When no page holds two different lines with the same trimmed
    form, every page counts once: a line is reported exactly when the
    number of pages that have it reaches the threshold. *)
Theorem detect_counts_once_per_page (self : TextFilter.t) (pages : list str) (k : str) :
  (forall page l l', page ∈ pages -> l ∈ split NL page -> l' ∈ split NL page ->
     strip l = strip l' -> l = l') ->
  k ∈ detect_repetitive_lines self pages
  <-> counted k = true
      /\ (0 < pages_with k pages)%nat
      /\ ge (Int (Z.of_nat (pages_with k pages))) (threshold self (length pages)) = true.
Proof.
  intros Hinj. rewrite <- (occurrences_once k pages Hinj).
  unfold detect_repetitive_lines. rewrite detect_counter, elem_of_dom.
  unfold is_Some. split.
  - intros (n & Hn). apply map_lookup_filter_Some in Hn as [Hn Hge].
    apply (count_pages_lookup counted count_line count_line_step) in Hn as (Hc & -> & Hp).
    cbn in Hge. done.
  - intros (Hc & Hp & Hge). exists (occurrences k pages).
    apply map_lookup_filter_Some. split; [|exact Hge].
    apply (count_pages_lookup counted count_line count_line_step). done.
Qed.

Lemma detect_counts_once_per_page_witness :
  let pages := [py "Title" ++ [NL] ++ py "one"; py "Title" ++ [NL] ++ py "two";
                py "Title" ++ [NL] ++ py "three"] in
  py "Title" ∈ detect_repetitive_lines (TextFilter.init 3) pages
  <-> counted (py "Title") = true
      /\ (0 < pages_with (py "Title") pages)%nat
      /\ ge (Int (Z.of_nat (pages_with (py "Title") pages)))
            (threshold (TextFilter.init 3) (length pages)) = true.
Proof.
  cbv zeta. apply detect_counts_once_per_page.
  intros page l l' Hp Hl Hl' Hs.
  repeat (apply elem_of_cons in Hp as [->|Hp]); try (apply elem_of_nil in Hp; destruct Hp);
    vm_compute in Hl, Hl';
    repeat (apply elem_of_cons in Hl as [->|Hl]); try (apply elem_of_nil in Hl; destruct Hl);
    repeat (apply elem_of_cons in Hl' as [->|Hl']);
    try (apply elem_of_nil in Hl'; destruct Hl');
    first [reflexivity | vm_compute in Hs; discriminate Hs].
Defined.

Module ThresholdFacts.

Lemma ge_cmp a b :
  match Some (a ?= b) with Some (Gt | Eq) => true | _ => false end = true <-> b <= a.
Proof. destruct (Z.compare_spec a b); split; intros; try done; try lia. Qed.

Lemma ge_int_float_mono z z' f :
  z <= z' -> ge (Int z) (Float f) = true -> ge (Int z') (Float f) = true.
Proof.
  intros Hz. unfold ge, compare, compare_int_float.
  destruct f as [s|s| |s m e]; try done.
  - rewrite !ge_cmp. lia.
  - set (v := if s then Z.neg m else Z.pos m). destruct e as [|p|p].
    + rewrite !ge_cmp. lia.
    + rewrite !ge_cmp. lia.
    + assert (Hp : 0 < 2 ^ Z.pos p) by (apply Z.pow_pos_nonneg; lia).
      rewrite !ge_cmp. nia.
Qed.

Lemma gt_float_int f c m :
  ge (Int c) (Float f) = true ->
  gt (Float f) (Int m) = negb (ge (Int m) (Float f)).
Proof.
  unfold ge, gt, compare. destruct f as [s|s| |s mf e]; cbn [compare_int_float option_map].
  - destruct (m ?= 0); done.
  - destruct s; done.
  - done.
  - intros _. destruct e; match goal with |- context [(?a ?= ?b)] => destruct (a ?= b) end; done.
Qed.

Lemma five_percent_exact_from_spec n : forall t,
  five_percent_exact_from n t = true ->
  forall i, t <= i < t + Z.of_nat n -> five_percent_exact i = true.
Proof.
  induction n as [|n IH]; intros t Hn i Hi; [lia|].
  cbn [five_percent_exact_from] in Hn. apply andb_true_iff in Hn as [H0 Hn].
  destruct (Z.eq_dec i t) as [->|Hne]; [done|].
  apply (IH (t + 1)); [done|lia].
Qed.

(** Checked by evaluation for every page count up to 10000. *)
Lemma five_percent_exact_to_10000 : five_percent_exact_from 10001 0 = true.
Proof. vm_compute. reflexivity. Qed.

Lemma five_percent_ceiling t z :
  0 <= t <= 10000 ->
  (ge (Int z) (Float (five_percent t)) = true <-> t <= 20 * z).
Proof.
  intros Ht.
  assert (Hn : Z.of_nat 10001 = 10001) by (vm_compute; reflexivity).
  pose proof (five_percent_exact_from_spec _ _ five_percent_exact_to_10000 t) as Hc.
  rewrite Hn in Hc. specialize (Hc ltac:(lia)).
  unfold five_percent_exact in Hc. apply andb_true_iff in Hc as [Hge Hlt].
  apply negb_true_iff in Hlt. split.
  - intros Hz. destruct (Z_le_gt_dec t (20 * z)) as [|Hgt]; [done|]. exfalso.
    assert (z <= (t + 19) / 20 - 1).
    { assert (z + 1 <= (t + 19) / 20); [|lia].
      apply Z.div_le_lower_bound; lia. }
    pose proof (ge_int_float_mono _ _ _ H Hz). congruence.
  - intros Hz. eapply ge_int_float_mono; [|exact Hge].
    assert ((t + 19) / 20 < z + 1) by (apply Z.div_lt_upper_bound; lia). lia.
Qed.

End ThresholdFacts.
Import ThresholdFacts.

(** X11. The threshold in integers.  For a document of at most 10000
    pages, a count reaches [max(min_repetition_threshold, total_pages *
    0.05)] exactly when it is at least [min_repetition_threshold] and at
    least a twentieth of the pages: the rounding of the product in binary
    floating point never changes the outcome. *)
Theorem threshold_in_integers (self : TextFilter.t) (total_pages count : nat) :
  (total_pages <= 10000)%nat ->
  (ge (Int (Z.of_nat count)) (threshold self total_pages) = true
   <-> min_repetition_threshold self <= Z.of_nat count
       /\ Z.of_nat total_pages <= 20 * Z.of_nat count).
Proof.
  intros Ht. apply Nat2Z.inj_le in Ht.
  replace (Z.of_nat 10000) with 10000 in Ht by (vm_compute; reflexivity).
  unfold threshold, float_of_len. fold (five_percent (Z.of_nat total_pages)).
  set (m := min_repetition_threshold self). set (f := five_percent (Z.of_nat total_pages)).
  assert (K : forall z, ge (Int z) (Float f) = true <-> Z.of_nat total_pages <= 20 * z).
  { intros z. apply five_percent_ceiling. lia. }
  assert (G : gt (Float f) (Int m) = negb (ge (Int m) (Float f))).
  { apply (gt_float_int f (Z.of_nat total_pages)). apply K. lia. }
  unfold max2. rewrite G. destruct (ge (Int m) (Float f)) eqn:E; cbn [negb].
  - apply K in E. unfold ge, compare. rewrite ge_cmp. lia.
  - rewrite K. assert (~ Z.of_nat total_pages <= 20 * m) by (rewrite <- K; congruence). lia.
Qed.

Lemma threshold_in_integers_witness :
  (60 <= 10000)%nat
  /\ (ge (Int (Z.of_nat 3)) (threshold (TextFilter.init 3) 60) = true
      <-> min_repetition_threshold (TextFilter.init 3) <= Z.of_nat 3
          /\ Z.of_nat 60 <= 20 * Z.of_nat 3).
Proof.
  assert (H : (60 <= 10000)%nat) by (apply Nat.leb_le; vm_compute; reflexivity).
  split; [exact H|]. apply threshold_in_integers. exact H.
Defined.

(** ** More about the filter: the lines of a page *)

Module PageLinesFacts.

Lemma strip_lstrip s : strip (lstrip s) = strip s.
Proof. unfold strip. rewrite lstrip_idem. done. Qed.

Lemma strip_rstrip s : strip (rstrip s) = strip s.
Proof.
  destruct (blank_dec s) as [Hb|Hb].
  - transitivity (@nil N); [|symmetry]; apply strip_nil; [apply rstrip_blank|]; done.
  - destruct (lstrip_suffix s) as (a & Hs & Ha).
    assert (Hl : ~ blank (lstrip s)) by (rewrite lstrip_blank; done).
    assert (Hr : rstrip s = a ++ rstrip (lstrip s)).
    { rewrite Hs at 1. apply rstrip_app, Hl. }
    unfold strip at 1. rewrite Hr, lstrip_blank_app by done.
    fold (strip s). rewrite lstrip_fix.
    + apply rstrip_idem.
    + intros c Hc. eapply rstrip_head; [|exact Hc]. apply lstrip_head.
Qed.

Section WithUnicode.
Context `{UnicodeData}.

Lemma keep_line_passes R rc acc line :
  keep_line R rc acc line = acc ++ (if passes R rc line then [line] else []).
Proof.
  unfold keep_line, passes. destruct (truthy (strip line)); cbn [negb andb];
    [|rewrite app_nil_r; done].
  destruct (bool_decide _); cbn [negb andb]; [rewrite app_nil_r; done|].
  destruct (rc && is_copyright_line line); cbn [negb andb]; [rewrite app_nil_r; done|].
  destruct (is_page_number line); cbn [negb]; [rewrite app_nil_r; done|done].
Qed.

Lemma foldl_keep_line R rc lines : forall acc,
  foldl (keep_line R rc) acc lines = acc ++ List.filter (passes R rc) lines.
Proof.
  induction lines as [|l lines IH]; intros acc; cbn [foldl List.filter];
    [rewrite app_nil_r; done|].
  rewrite IH, keep_line_passes. destruct (passes R rc l); rewrite <- app_assoc; done.
Qed.

(** Trimming a text made of kept lines trims its first and its last line,
    and no other. *)
Lemma strip_join_lines ls :
  ls <> [] -> Forall kept_line ls ->
  exists ls', Forall2 (fun l o => strip o = strip l) ls ls'
              /\ Forall kept_line ls' /\ strip (join [NL] ls) = join [NL] ls'.
Proof.
  intros Hne Hk. destruct ls as [|p ps]; [done|]. inversion Hk as [|? ? Hp Hps]; subst.
  assert (Hl : lstrip (join [NL] (p :: ps)) = join [NL] (lstrip p :: ps)).
  { destruct ps as [|p' ps]; [done|]. rewrite !join_cons by done.
    apply lstrip_app. apply Hp. }
  unfold strip. rewrite Hl.
  assert (Hk1 : Forall kept_line (lstrip p :: ps)) by (constructor; [apply kept_lstrip|]; done).
  assert (H1 : Forall2 (fun l o => strip o = strip l) (p :: ps) (lstrip p :: ps)).
  { constructor; [apply strip_lstrip|]. apply Forall2_same_length_lookup. split; [done|].
    intros i x y Hx Hy. congruence. }
  destruct (exists_last (l := lstrip p :: ps)) as (init & q & Hq); [done|].
  rewrite Hq in *. apply Forall_app in Hk1 as [Hi Hq1]. inversion Hq1; subst.
  exists (init ++ [rstrip q]). split; [|split].
  - apply Forall2_app_inv_r in H1 as (k1 & k2 & H11 & H12 & ->).
    apply Forall2_app; [done|].
    inversion H12 as [|? ? ? ? Hx Hy]; subst. inversion Hy; subst.
    constructor; [|constructor]. etrans; [apply strip_rstrip|done].
  - apply Forall_app. split; [done|]. constructor; [apply kept_rstrip; done|constructor].
  - destruct init as [|i0 init]; [done|].
    rewrite !join_snoc by done. rewrite !app_assoc.
    apply rstrip_app. match goal with H : kept_line q |- _ => apply H end.
Qed.

Lemma filter_passes_kept R rc page :
  Forall kept_line (List.filter (passes R rc) (split NL page)).
Proof.
  rewrite <- (app_nil_l (List.filter _ _)), <- foldl_keep_line.
  apply foldl_keep_line_kept; [apply split_no_sep|constructor].
Qed.

Lemma filter_page_eq R rc page :
  filter_page page R rc = strip (join [NL] (List.filter (passes R rc) (split NL page))).
Proof.
  unfold filter_page. rewrite foldl_keep_line. cbn [app].
  set (kept := List.filter _ _). f_equal.
  destruct kept as [|l ls] eqn:E; [reflexivity|].
  apply sub_blank_lines_id, kept_lines_text; [done|].
  rewrite <- E. apply filter_passes_kept.
Qed.

(** The lines of the filtered page are the lines that pass, each up to the
    white space around it. *)
Lemma filter_page_lines R rc page :
  let kept := List.filter (passes R rc) (split NL page) in
  (kept = [] /\ filter_page page R rc = [])
  \/ Forall2 (fun l o => strip o = strip l) kept (split NL (filter_page page R rc)).
Proof.
  cbv zeta. rewrite filter_page_eq.
  pose proof (filter_passes_kept R rc page) as Hk.
  destruct (List.filter _ _) as [|l ls] eqn:E; [left; done|right].
  destruct (strip_join_lines (l :: ls)) as (ls' & H2 & Hk' & ->); [done|done|].
  rewrite split_join; [done| |].
  - intros ->. inversion H2.
  - eapply Forall_impl; [exact Hk'|]. intros x [Hx _]. done.
Qed.

Lemma filter_all_pass R rc (ls : list str) :
  Forall (fun l => passes R rc l = true) (List.filter (passes R rc) ls).
Proof.
  induction ls as [|l ls IH]; [constructor|]. cbn [List.filter].
  destruct (passes R rc l) eqn:E; [constructor|]; done.
Qed.

Lemma is_page_number_strip l o : strip o = strip l -> is_page_number o = is_page_number l.
Proof. unfold is_page_number. intros ->. done. Qed.

Lemma passes_spec R rc l :
  passes R rc l = true ->
  (strip l <> []) /\ (strip l ∉ R) /\ is_page_number l = false
  /\ (rc = true -> is_copyright_line l = false).
Proof.
  unfold passes. intros Hp.
  apply andb_true_iff in Hp as [Hp H4]. apply andb_true_iff in Hp as [Hp H3].
  apply andb_true_iff in Hp as [H1 H2].
  apply negb_true_iff in H2, H3, H4. apply bool_decide_eq_false in H2.
  split; [destruct (strip l); done|]. split; [done|]. split; [done|].
  intros ->. done.
Qed.

End WithUnicode.
End PageLinesFacts.
Import PageLinesFacts.

(** X12. What [filter_page] returns: the lines of the page that are not
    blank, not in [repetitive_lines] once trimmed, not a copyright line
    (when that is asked) and not a page number, joined by newlines and
    trimmed as a whole.  Its lines are those lines, in their order, each
    up to the white space around it. *)
Theorem filter_page_keeps_passing_lines `{UnicodeData}
    (page_text : str) (repetitive_lines : gset str) (remove_copyright : bool) :
  let kept := List.filter (passes repetitive_lines remove_copyright) (split NL page_text) in
  let out := filter_page page_text repetitive_lines remove_copyright in
  out = strip (join [NL] kept)
  /\ ((kept = [] /\ out = [])
      \/ Forall2 (fun l o => strip o = strip l) kept (split NL out)).
Proof.
  cbv zeta. split; [apply filter_page_eq|apply filter_page_lines].
Qed.

(** X13. With [remove_repetitive] on, no line of a page returned by
    [filter_document] is, once trimmed, one of the lines that
    [detect_repetitive_lines] reports for the document; nor is it a page
    number or a blank line. *)
Theorem filter_document_removes_detected_lines `{UnicodeData}
    (self : TextFilter.t) (pages : list str) (remove_copyright : bool)
    (min_threshold : option Z) :
  let out := (filter_document self pages true remove_copyright min_threshold).1 in
  let self' := (filter_document self pages true remove_copyright min_threshold).2 in
  Forall (fun page =>
    Forall (fun line => (strip line ∉ detect_repetitive_lines self' pages)
                        /\ is_page_number line = false
                        /\ (strip line <> []))
           (split NL page)) out.
Proof.
  cbv zeta. unfold filter_document. cbn [fst snd].
  set (self' := match min_threshold with Some n => _ | None => _ end).
  set (R := detect_repetitive_lines self' pages).
  rewrite foldl_append_nonempty. cbn [app].
  apply Forall_forall. intros page Hp.
  apply list_elem_of_filter in Hp as [Hne Hp].
  apply list_elem_of_fmap in Hp as (p & -> & _).
  destruct (filter_page_lines R remove_copyright p) as [[_ He]|H2]; [done|].
  apply Forall_forall. intros o Ho.
  apply list_elem_of_lookup in Ho as (i & Ho).
  destruct (Forall2_lookup_r _ _ _ _ _ H2 Ho) as (l & Hl & Hs).
  assert (Hpass : passes R remove_copyright l = true).
  { exact (Forall_lookup_1 _ _ _ _ (filter_all_pass R remove_copyright (split NL p)) Hl). }
  apply passes_spec in Hpass as (H1 & H2' & H3 & _).
  rewrite Hs, (is_page_number_strip l o Hs). done.
Qed.

(** ** More about the filter: the report of repeated patterns *)

Module PatternFacts.

Lemma ge_threshold_min (self : TextFilter.t) (total : nat) (n : Z) :
  ge (Int n) (threshold self total) = true -> min_repetition_threshold self <= n.
Proof.
  unfold threshold, max2. set (m := min_repetition_threshold self).
  set (f := SFmul _ _ _ _). clearbody f.
  destruct (gt (Float f) (Int m)) eqn:G.
  - unfold gt, ge, compare in *. destruct f as [s|s| |s mf e]; cbn in G |- *; try done.
    + destruct (Z.compare_spec m 0), (Z.compare_spec n 0); try done; lia.
    + destruct s; done.
    + set (v := if s then Z.neg mf else Z.pos mf) in *. destruct e as [|p|p].
      * destruct (Z.compare_spec m (v * 2 ^ 0)), (Z.compare_spec n (v * 2 ^ 0));
          try done; lia.
      * destruct (Z.compare_spec m (v * 2 ^ Z.pos p)),
          (Z.compare_spec n (v * 2 ^ Z.pos p)); try done; lia.
      * assert (Hp : 0 < 2 ^ Z.pos p) by (apply Z.pow_pos_nonneg; lia).
        destruct (Z.compare_spec (m * 2 ^ Z.pos p) v),
          (Z.compare_spec (n * 2 ^ Z.pos p) v); try done; nia.
  - unfold ge, compare. rewrite ge_cmp. done.
Qed.

Section WithUnicode.
Context `{UnicodeData}.

Lemma count_candidate_step line m :
  count_candidate line m
  = if counted (strip line) && is_header_footer_candidate (strip line)
    then <[ strip line := S (default O (m !! strip line)) ]> m
    else m.
Proof.
  unfold count_candidate, counted.
  destruct (truthy (strip line) && (length (strip line) <? 200)%nat); done.
Qed.

Lemma get_repetitive_patterns_lookup self pages k n :
  get_repetitive_patterns self pages !! k = Some n
  <-> counted k = true /\ is_header_footer_candidate k = true
      /\ n = occurrences k pages /\ (0 < n)%nat
      /\ min_repetition_threshold self <= Z.of_nat n.
Proof.
  unfold get_repetitive_patterns.
  change (foldl _ ∅ pages) with (count_pages count_candidate ∅ pages).
  rewrite map_lookup_filter_Some.
  rewrite (count_pages_lookup (fun k => counted k && is_header_footer_candidate k)
             count_candidate count_candidate_step).
  rewrite andb_true_iff. cbn. tauto.
Qed.

End WithUnicode.
End PatternFacts.
Import PatternFacts.

(** X14. What [get_repetitive_patterns] reports: a trimmed line [k] with
    the count [n] exactly when [k] is not empty, shorter than 200
    characters, a header or footer candidate, [n] is the number of
    distinct raw lines that trim to [k] added over the pages, and [n]
    reaches [min_repetition_threshold]. *)
Theorem get_repetitive_patterns_counts `{UnicodeData}
    (self : TextFilter.t) (pages : list str) (k : str) (n : nat) :
  get_repetitive_patterns self pages !! k = Some n
  <-> counted k = true /\ is_header_footer_candidate k = true
      /\ n = occurrences k pages /\ (0 < n)%nat
      /\ min_repetition_threshold self <= Z.of_nat n.
Proof. apply get_repetitive_patterns_lookup. Qed.

(** X15. The two detectors agree on candidates: a line that
    [detect_repetitive_lines] reports and that is a header or footer
    candidate is in the report of [get_repetitive_patterns], with its
    count. *)
Theorem detected_candidates_are_reported `{UnicodeData}
    (self : TextFilter.t) (pages : list str) (k : str) :
  k ∈ detect_repetitive_lines self pages ->
  is_header_footer_candidate k = true ->
  get_repetitive_patterns self pages !! k = Some (occurrences k pages).
Proof.
  intros Hk Hc. apply get_repetitive_patterns_lookup.
  unfold detect_repetitive_lines in Hk. rewrite detect_counter, elem_of_dom in Hk.
  destruct Hk as (n & Hn). apply map_lookup_filter_Some in Hn as [Hn Hge].
  apply (count_pages_lookup counted count_line count_line_step) in Hn as (Hcnt & -> & Hp).
  cbn in Hge. apply ge_threshold_min in Hge. done.
Qed.

Lemma detected_candidates_are_reported_witness :
  let page := py "www.example.org" ++ [NL] ++ py "Some text" in
  let pages := [page; page; page] in
  py "www.example.org" ∈ detect_repetitive_lines (TextFilter.init 3) pages
  /\ is_header_footer_candidate (H := ascii_tables) (py "www.example.org") = true
  /\ get_repetitive_patterns (H := ascii_tables) (TextFilter.init 3) pages
       !! py "www.example.org" = Some (occurrences (py "www.example.org") pages).
Proof.
  cbv zeta.
  assert (H1 : py "www.example.org" ∈ detect_repetitive_lines (TextFilter.init 3)
                 (let page := py "www.example.org" ++ [NL] ++ py "Some text" in
                  [page; page; page])).
  { refine (bool_decide_unpack _ _). vm_compute. exact I. }
  assert (H2 : is_header_footer_candidate (H := ascii_tables) (py "www.example.org") = true).
  { vm_compute. reflexivity. }
  split; [exact H1|]. split; [exact H2|].
  apply (detected_candidates_are_reported (H := ascii_tables) _ _ _ H1 H2).
Defined.

(** ** More about the processor *)

Import ProcessorFacts PDFProcessor ChunkerFacts FloatFacts.
Local Open Scope proc_scope.

Module PipelineFacts.
Local Open Scope proc_scope.

Lemma seq_shift_Z n : forall k : nat,
  (fun i : nat => Z.of_nat i + Z.of_nat k) <$> List.seq 0 n = Z.of_nat <$> List.seq k n.
Proof.
  induction k as [|k IH].
  - apply list_fmap_ext. intros _ i _. lia.
  - rewrite <- fmap_S_seq, <- list_fmap_compose.
    transitivity ((fun z => z + 1) <$> (Z.of_nat <$> List.seq k n)).
    + rewrite <- IH, <- list_fmap_compose. apply list_fmap_ext. intros _ i _. cbn. lia.
    + rewrite <- list_fmap_compose. apply list_fmap_ext. intros _ i _. cbn. lia.
Qed.

Lemma range_nat a b :
  0 <= a -> range a b = map Z.of_nat (List.seq (Z.to_nat a) (Z.to_nat (b - a))).
Proof.
  intros Ha. unfold range, seqZ.
  change (map Z.of_nat ?l) with (Z.of_nat <$> l).
  rewrite <- (seq_shift_Z (Z.to_nat (b - a)) (Z.to_nat a)), Z2Nat.id by done. done.
Qed.

Section WithUnicode.
Context `{UnicodeData}.

Lemma extract_page_text_eq page use_ocr language :
  _extract_page_text page use_ocr language
  = (Ok (page_text page use_ocr language), page_events page use_ocr language).
Proof.
  unfold _extract_page_text, page_text, page_events, chosen_text, _ocr_page.
  destruct (use_ocr && _); [|done]. destruct (ocr page language); done.
Qed.

(** The loop over a run of pages of the document. *)
Lemma extract_pages_eq doc use_ocr language : forall n a acc,
  (a + n <= length (doc_pages doc))%nat ->
  extract_pages doc (map Z.of_nat (List.seq a n)) use_ocr language acc
  = (Ok (acc ++ ((fun p => page_text p use_ocr language) <$> take n (drop a (doc_pages doc)))),
     flat_map (fun p => page_events p use_ocr language) (take n (drop a (doc_pages doc)))).
Proof.
  induction n as [|n IH]; intros a acc Hn; cbn [List.seq map extract_pages].
  - rewrite take_0, fmap_nil, app_nil_r. done.
  - destruct (lookup_lt_is_Some_2 (doc_pages doc) a) as [page Hp]; [lia|].
    rewrite (getitem_lookup _ _ _ Hp). unfold lift. cbn [bind].
    rewrite extract_page_text_eq. cbn [bind]. rewrite IH by lia.
    rewrite (drop_S _ _ _ Hp). cbn [take fmap list_fmap flat_map app].
    rewrite <- app_assoc. done.
Qed.

Lemma extract_pages_all doc use_ocr language :
  extract_pages doc (range 0 (page_count doc)) use_ocr language []
  = (Ok ((fun p => page_text p use_ocr language) <$> doc_pages doc),
     flat_map (fun p => page_events p use_ocr language) (doc_pages doc)).
Proof.
  unfold page_count. rewrite range_seq, extract_pages_eq by lia.
  rewrite drop_0, firstn_all. done.
Qed.

(** The loop that puts the markers. *)
Lemma markers_loop (k : Z) (page_texts : list str) : forall (n : Z) acc,
  foldl (fun all_text '(idx, text) =>
           if truthy (strip text)
           then all_text ++ [page_marker (k + idx + 1) text]
           else all_text)
        acc (zip (seqZ n (Z.of_nat (length page_texts))) page_texts)
  = acc ++ marked (k + n + 1) page_texts.
Proof.
  induction page_texts as [|t ts IH]; intros n acc; [cbn; rewrite app_nil_r; done|].
  cbn [length]. rewrite Nat2Z.inj_succ, seqZ_cons by lia.
  replace (Z.pred (Z.succ (Z.of_nat (length ts)))) with (Z.of_nat (length ts)) by lia.
  cbn [zip zip_with foldl marked]. rewrite IH.
  replace (k + Z.succ n + 1) with (k + n + 1 + 1) by lia.
  destruct (truthy (strip t)); [rewrite <- app_assoc|]; done.
Qed.

Lemma extract_text_range_sync_eq self file_path doc start_page end_page
    use_ocr language rr rc :
  fitz_open file_path = Ok doc ->
  0 <= start_page ->
  _extract_text_range_sync self file_path start_page end_page use_ocr language rr rc
  = (Ok {| text := range_text self doc start_page end_page use_ocr language rr rc;
           pages := end_page - start_page + 1;
           total_chars := Z.of_nat (length (range_text self doc start_page end_page
                                              use_ocr language rr rc));
           chunks_processed := None;
           metadata := None |},
     flat_map (fun p => page_events p use_ocr language) (pages_in doc start_page end_page)).
Proof.
  intros Hopen Hs. unfold _extract_text_range_sync, range_text, pages_in.
  rewrite Hopen, bind_lift_Ok. rewrite range_nat by done.
  set (n := Z.to_nat (Z.min (end_page + 1) (page_count doc) - start_page)).
  assert (Hx : extract_pages doc (map Z.of_nat (List.seq (Z.to_nat start_page) n)) use_ocr language []
    = (Ok ((fun p => page_text p use_ocr language)
             <$> take n (drop (Z.to_nat start_page) (doc_pages doc))),
       flat_map (fun p => page_events p use_ocr language)
         (take n (drop (Z.to_nat start_page) (doc_pages doc))))).
  { destruct n as [|n'] eqn:En; [done|]. rewrite <- En.
    rewrite extract_pages_eq; [done|]. unfold page_count in n. lia. }
  rewrite Hx. cbn [bind]. cbv zeta. unfold enumerate.
  rewrite (markers_loop start_page _ 0 []). cbn [app].
  replace (start_page + 0 + 1) with (start_page + 1) by lia.
  cbn [ret]. rewrite app_nil_r. done.
Qed.

Lemma tiles_bound a cs b : PDFChunker.tiles a cs b -> a <= b + 1.
Proof.
  revert a. induction cs as [|c cs IH]; intros a Ht; cbn in Ht; [lia|].
  destruct Ht as (_ & Hle & _ & Ht). apply IH in Ht. lia.
Qed.

(** The loop over the chunks, when they tile the rest of the document. *)
Lemma process_chunks_eq self file_path doc use_ocr language rr rc :
  fitz_open file_path = Ok doc ->
  forall chunks a all_text tp cp,
  0 <= a -> PDFChunker.tiles a chunks (page_count doc - 1) ->
  process_chunks self file_path chunks use_ocr language rr rc all_text tp cp
  = (Ok (all_text
           ++ ((fun c => range_text self doc (PDFChunker.start_page c)
                           (PDFChunker.end_page c) use_ocr language rr rc) <$> chunks),
         tp + (page_count doc - a),
         cp + Z.of_nat (length chunks)),
     flat_map (fun p => page_events p use_ocr language)
       (drop (Z.to_nat a) (doc_pages doc))).
Proof.
  intros Hopen.
  induction chunks as [|c chunks IH]; intros a all_text tp cp Ha Ht;
    cbn [process_chunks PDFChunker.tiles] in *.
  - rewrite fmap_nil, app_nil_r, drop_ge by (unfold page_count in Ht; lia).
    unfold ret. cbn [flat_map length].
    replace (page_count doc - a) with 0 by (pose proof Ht; unfold page_count in *; lia).
    rewrite !Z.add_0_r. done.
  - destruct Ht as (Hs & Hle & Hpc & Ht). pose proof (tiles_bound _ _ _ Ht) as Hb.
    unfold _process_page_range. rewrite (extract_text_range_sync_eq _ _ doc) by (done || lia).
    cbn [bind text pages]. rewrite (IH (PDFChunker.end_page c + 1)) by (done || lia).
    rewrite fmap_cons, <- app_assoc. cbn [app length]. f_equal.
    + replace (tp + (PDFChunker.end_page c - PDFChunker.start_page c + 1)
               + (page_count doc - (PDFChunker.end_page c + 1)))
        with (tp + (page_count doc - a)) by lia.
      replace (cp + 1 + Z.of_nat (length chunks))
        with (cp + Z.of_nat (S (length chunks))) by lia.
      done.
    + unfold pages_in. rewrite Hs.
      replace (Z.min (PDFChunker.end_page c + 1) (page_count doc) - a)
        with (PDFChunker.end_page c + 1 - a) by lia.
      rewrite <- flat_map_app. f_equal.
      etrans; [|apply (take_drop (Z.to_nat (PDFChunker.end_page c + 1 - a)))].
      f_equal. rewrite drop_drop. f_equal. lia.
Qed.

(** The chunks of a file that opens tile its pages. *)
Lemma create_chunks_of_file_tiles chunker file_path doc chunks :
  fitz_open file_path = Ok doc ->
  PDFChunker.create_chunks_of_file chunker file_path = Ok chunks ->
  PDFChunker.create_chunks chunker (page_count doc) (getsize file_path) = Ok chunks
  /\ PDFChunker.tiles 0 chunks (page_count doc - 1).
Proof.
  intros Hopen Hc. unfold PDFChunker.create_chunks_of_file in Hc.
  rewrite Hopen in Hc. cbn [res_bind] in Hc. split; [exact Hc|].
  unfold PDFChunker.create_chunks in Hc.
  apply res_bind_Ok in Hc as (avg & _ & Hc).
  apply res_bind_Ok in Hc as (ppc & Hppc & Hc).
  apply pages_per_chunk_ge_1 in Hppc.
  apply chunk_loop_tiles in Hc as (new & -> & Ht & _); [done|done|].
  unfold page_count. lia.
Qed.

End WithUnicode.
End PipelineFacts.
Import PipelineFacts.

(** X16. What [_extract_text_sync] returns: the text is made of the
    normalized texts of the pages, filtered when a filter is on, each
    non-blank one under its marker, numbered from 1 in the list that is
    left, and joined by empty lines; [pages] is the page count of the
    document; and the OCR engine has been run once on every page with a
    short text layer, in page order. *)
Theorem extract_text_sync_result `{UnicodeData}
    (self : PDFProcessor.t) (file_path : File) (doc : Document)
    (use_ocr : bool) (language : str)
    (remove_repetitive remove_copyright : bool) (r : Result) (ev : list event) :
  fitz_open file_path = Ok doc ->
  _extract_text_sync self file_path use_ocr language remove_repetitive remove_copyright
    = (Ok r, ev) ->
  text r = join [NL; NL]
             (marked 1 (apply_filter self
                          ((fun p => page_text p use_ocr language) <$> doc_pages doc)
                          remove_repetitive remove_copyright))
  /\ pages r = page_count doc
  /\ chunks_processed r = None
  /\ ev = flat_map (fun p => page_events p use_ocr language) (doc_pages doc).
Proof.
  intros Hopen. unfold _extract_text_sync. rewrite Hopen, bind_lift_Ok.
  rewrite extract_pages_all. cbn [bind]. cbv zeta.
  unfold enumerate.
  pose proof (markers_loop 0) as Hm. cbn [Z.add] in Hm. rewrite (Hm _ 0 []).
  cbn [app Z.add]. unfold lift.
  destruct (truediv _ _) as [mb|e|]; cbn [bind ret]; try discriminate.
  intros [= <- <-]. cbn. rewrite app_nil_r. done.
Qed.

Lemma extract_text_sync_result_witness :
  exists r ev,
    _extract_text_sync (H := ascii_tables) (PDFProcessor.init 10) blank_then_body
      true (py "eng") false false = (Ok r, ev)
    /\ pages r = 2
    /\ ev = [OcrCall (py "eng"); OcrCall (py "eng")].
Proof.
  destruct (_extract_text_sync (H := ascii_tables) (PDFProcessor.init 10) blank_then_body
              true (py "eng") false false) as [[r| |] ev] eqn:E;
    try (vm_compute in E; discriminate).
  exists r, ev. split; [reflexivity|].
  destruct (extract_text_sync_result (H := ascii_tables) (PDFProcessor.init 10)
              blank_then_body _ true (py "eng") false false r ev eq_refl E)
    as (_ & Hp & _ & He).
  split; [exact Hp|exact He].
Defined.

(** X17. What [_process_chunked] returns: the text is the texts of the
    chunks joined by empty lines, [pages] is the page count of the
    document whatever the chunks are, [chunks_processed] is the number of
    chunks, and the OCR engine has been run once on every page with a
    short text layer, in page order. *)
Theorem process_chunked_result `{UnicodeData}
    (self : PDFProcessor.t) (file_path : File) (doc : Document)
    (use_ocr : bool) (language : str)
    (remove_repetitive remove_copyright : bool) (r : Result) (ev : list event) :
  fitz_open file_path = Ok doc ->
  _process_chunked self file_path use_ocr language remove_repetitive remove_copyright
    = (Ok r, ev) ->
  exists chunks,
    PDFChunker.create_chunks (chunker self) (page_count doc) (getsize file_path) = Ok chunks
    /\ text r = join [NL; NL]
                  ((fun c => range_text self doc (PDFChunker.start_page c)
                               (PDFChunker.end_page c) use_ocr language
                               remove_repetitive remove_copyright) <$> chunks)
    /\ pages r = page_count doc
    /\ chunks_processed r = Some (Z.of_nat (length chunks))
    /\ ev = flat_map (fun p => page_events p use_ocr language) (doc_pages doc).
Proof.
  intros Hopen. unfold _process_chunked. intros Hr.
  apply bind_Ok in Hr as (chunks & l1 & l2 & Hc & Hr & ->).
  unfold lift in Hc. injection Hc as Hc <-. exists chunks.
  destruct (create_chunks_of_file_tiles _ _ _ _ Hopen Hc) as [Hv Ht].
  split; [done|].
  rewrite (process_chunks_eq _ _ doc _ _ _ _ Hopen _ 0) in Hr by done.
  cbn [bind app] in Hr. unfold lift in Hr.
  destruct (truediv _ _) as [mb|e|]; cbn [bind ret] in Hr; try discriminate.
  injection Hr as <- <-. cbn. rewrite !app_nil_r. repeat split; try done. lia.
Qed.

Lemma process_chunked_result_witness :
  exists r ev,
    _process_chunked (H := ascii_tables) (PDFProcessor.init 10) blank_then_body
      false (py "eng") true true = (Ok r, ev)
    /\ pages r = 2 /\ ev = [].
Proof.
  destruct (_process_chunked (H := ascii_tables) (PDFProcessor.init 10) blank_then_body
              false (py "eng") true true) as [[r| |] ev] eqn:E;
    try (vm_compute in E; discriminate).
  exists r, ev. split; [reflexivity|].
  destruct (process_chunked_result (H := ascii_tables) (PDFProcessor.init 10)
              blank_then_body _ false (py "eng") true true r ev eq_refl E)
    as (chunks & _ & _ & Hp & _ & He).
  split; [exact Hp|exact He].
Defined.

(** X18. Whichever way [process_pdf] goes, a result that it returns has
    the page count of the document in [pages], and the OCR engine has been
    run exactly once on every page whose trimmed text layer has fewer than
    50 characters (when [use_ocr] is set), in page order, with an error
    logged after every call that failed. *)
Theorem process_pdf_pages_and_ocr `{UnicodeData}
    (self : PDFProcessor.t) (file_path : File) (doc : Document)
    (use_ocr chunk_processing : bool)
    (language : str) (remove_repetitive remove_copyright : bool)
    (r : Result) (ev : list event) :
  fitz_open file_path = Ok doc ->
  process_pdf self file_path use_ocr chunk_processing language
    remove_repetitive remove_copyright = (Ok r, ev) ->
  pages r = page_count doc
  /\ ev = flat_map (fun p => page_events p use_ocr language) (doc_pages doc).
Proof.
  intros Hopen. unfold process_pdf. intros Hr.
  apply bind_Ok in Hr as (mb & l1 & l2 & Hm & Hr & ->).
  unfold lift in Hm. injection Hm as _ <-. cbn [app].
  destruct (chunk_processing && _).
  - unfold _process_chunked in Hr.
    apply bind_Ok in Hr as (chunks & l1 & l3 & Hc & Hr & ->).
    unfold lift in Hc. injection Hc as Hc <-.
    destruct (create_chunks_of_file_tiles _ _ _ _ Hopen Hc) as [_ Ht].
    rewrite (process_chunks_eq _ _ doc _ _ _ _ Hopen _ 0) in Hr by done.
    cbn [bind app] in Hr. unfold lift in Hr.
    destruct (truediv _ _) as [mb'|e|]; cbn [bind ret] in Hr; try discriminate.
    injection Hr as <- <-. cbn. rewrite !app_nil_r. split; [lia|done].
  - unfold _process_whole, _extract_text_sync in Hr.
    rewrite Hopen, bind_lift_Ok, extract_pages_all in Hr.
    cbn [bind] in Hr. cbv zeta in Hr. unfold lift in Hr.
    destruct (truediv _ _) as [mb'|e|]; cbn [bind ret] in Hr; try discriminate.
    injection Hr as <- <-. cbn. rewrite !app_nil_r. done.
Qed.

Lemma process_pdf_pages_and_ocr_witness :
  exists r ev,
    process_pdf (H := ascii_tables) (PDFProcessor.init 10) blank_then_body
      true true (py "eng") true true = (Ok r, ev)
    /\ pages r = 2
    /\ ev = [OcrCall (py "eng"); OcrCall (py "eng")].
Proof.
  destruct (process_pdf (H := ascii_tables) (PDFProcessor.init 10) blank_then_body
              true true (py "eng") true true) as [[r| |] ev] eqn:E;
    try (vm_compute in E; discriminate).
  exists r, ev. split; [reflexivity|].
  apply (process_pdf_pages_and_ocr (H := ascii_tables) (PDFProcessor.init 10)
           blank_then_body _ true true (py "eng") true true r ev eq_refl E).
Defined.

Module QuietFacts.
Local Open Scope proc_scope.

Lemma bind_events {A B} (x : M A) (f : A -> M B) :
  (bind x f).2 = x.2 ++ match x.1 with Ok a => (f a).2 | _ => [] end.
Proof.
  destruct x as [[a|e|] l]; cbn [bind fst snd]; rewrite ?app_nil_r; try done.
  destruct (f a). done.
Qed.

Section WithUnicode.
Context `{UnicodeData}.

Lemma extract_pages_quiet doc language : forall idxs acc,
  (extract_pages doc idxs false language acc).2 = [].
Proof.
  induction idxs as [|i idxs IH]; intros acc; cbn [extract_pages]; [done|].
  rewrite bind_events. unfold lift. cbn [fst snd app].
  destruct (getitem doc i) as [page|e|]; [|done|done].
  rewrite bind_events, extract_page_text_eq. cbn [fst snd app]. apply IH.
Qed.

Lemma range_sync_quiet self file_path a b language rr rc :
  (_extract_text_range_sync self file_path a b false language rr rc).2 = [].
Proof.
  unfold _extract_text_range_sync. rewrite bind_events. unfold lift. cbn [fst snd app].
  destruct (fitz_open file_path) as [doc|e|]; [|done|done].
  rewrite bind_events, extract_pages_quiet.
  destruct (extract_pages _ _ _ _ _).1; done.
Qed.

Lemma process_chunks_quiet self file_path language rr rc : forall chunks at_ tp cp,
  (process_chunks self file_path chunks false language rr rc at_ tp cp).2 = [].
Proof.
  induction chunks as [|c chunks IH]; intros at_ tp cp; cbn [process_chunks]; [done|].
  rewrite bind_events. unfold _process_page_range. rewrite range_sync_quiet.
  destruct (_extract_text_range_sync _ _ _ _ _ _ _ _).1; [apply IH|done|done].
Qed.

Lemma sync_quiet self file_path language rr rc :
  (_extract_text_sync self file_path false language rr rc).2 = [].
Proof.
  unfold _extract_text_sync. rewrite bind_events. unfold lift at 1 2. cbn [fst snd app].
  destruct (fitz_open file_path) as [doc|e|]; [|done|done].
  rewrite bind_events, extract_pages_quiet.
  destruct (extract_pages _ _ _ _ _).1; [|done|done]. cbv zeta.
  rewrite bind_events. unfold lift. cbn [fst snd app].
  destruct (truediv _ _); done.
Qed.

Lemma chunked_quiet self file_path language rr rc :
  (_process_chunked self file_path false language rr rc).2 = [].
Proof.
  unfold _process_chunked. rewrite bind_events. unfold lift. cbn [fst snd app].
  destruct (PDFChunker.create_chunks_of_file _ _) as [chunks|e|]; [|done|done].
  rewrite bind_events, process_chunks_quiet.
  destruct (process_chunks _ _ _ _ _ _ _ _ _ _).1 as [[[a b] c]|e|]; [|done|done].
  cbn [app]. rewrite bind_events. unfold lift. cbn [fst snd app].
  destruct (truediv _ _); done.
Qed.

End WithUnicode.
End QuietFacts.
Import QuietFacts.

(** X19. With [use_ocr] off, [process_pdf] never runs the OCR engine and
    logs no OCR error, whether it returns or raises. *)
Theorem no_ocr_without_use_ocr `{UnicodeData}
    (self : PDFProcessor.t) (file_path : File) (chunk_processing : bool)
    (language : str) (remove_repetitive remove_copyright : bool) :
  (process_pdf self file_path false chunk_processing language
     remove_repetitive remove_copyright).2 = [].
Proof.
  unfold process_pdf. rewrite bind_events. unfold lift. cbn [fst snd app].
  destruct (truediv _ _) as [mb|e|]; [|done|done].
  destruct (chunk_processing && _); [apply chunked_quiet|apply sync_quiet].
Qed.

Module TotalFacts.
Local Open Scope proc_scope.

(** The size of a file in megabytes. *)
Lemma file_size_mb_finite size :
  0 <= size < 2 ^ 63 ->
  exists f, truediv (Int size) (Int (1024 * 1024)) = Ok f
    /\ (f = S754_zero false \/ exists m e, f = S754_finite false m e /\ 0 < size).
Proof.
  intros Hs. destruct (Z.eq_dec size 0) as [->|Hne].
  - eexists. split; [vm_compute; reflexivity|]. left. done.
  - destruct size as [|p|p]; try lia.
    pose proof (Zdigits2_le (Z.pos p) 63 ltac:(lia) ltac:(lia) ltac:(lia)) as Hd.
    cbn [Zdigits2] in Hd.
    destruct (SFdiv_normal false p 0 false 1048576 0) as (m & e & Hr & _ & _).
    { change (Z.pos (digits2_pos 1048576)) with 21.
      unfold emin, SpecFloat.emin, prec, emax. lia. }
    { change (Z.pos (digits2_pos 1048576)) with 21. unfold emax. lia. }
    exists (S754_finite false m e). split; [|right; exists m, e; split; [done|lia]].
    unfold truediv, int_truediv. change (1024 * 1024 =? 0) with false. cbn iota.
    change (exact (1024 * 1024)) with (S754_finite false 1048576 0). cbn [exact].
    rewrite Hr. done.
Qed.

(** A positive size is above a chunk size only when that is below it. *)
Lemma gt_zero_false c : 0 <= c -> gt (Float (S754_zero false)) (Int c) = false.
Proof.
  intros Hc. unfold gt, compare. cbn [compare_int_float option_map].
  destruct (Z.compare_spec c 0); try done. lia.
Qed.

Lemma create_chunks_no_pages self fs :
  0 < fs < 2 ^ 63 -> Z.abs (PDFChunker.chunk_size_bytes self) < 2 ^ 63 ->
  PDFChunker.create_chunks self 0 fs = Ok [].
Proof.
  intros Hfs Hc. unfold PDFChunker.create_chunks, PDFChunker.avg_page_size.
  change (0 >? 0) with false. cbn iota. cbn [res_bind].
  unfold PDFChunker.pages_per_chunk, truediv, int_truediv.
  assert ((fs =? 0) = false) as -> by lia.
  destruct fs as [|f|f]; try lia.
  pose proof (Zdigits2_le (Z.pos f) 63 ltac:(lia) ltac:(lia) ltac:(lia)) as Hdf.
  cbn [Zdigits2] in Hdf.
  destruct (PDFChunker.chunk_size_bytes self) as [|b|b] eqn:Eb.
  - cbn. done.
  - pose proof (Zdigits2_le (Z.pos b) 63 ltac:(lia) ltac:(lia) ltac:(lia)) as Hdb.
    cbn [Zdigits2] in Hdb.
    destruct (SFdiv_normal false b 0 false f 0) as (m & e & Hr & _ & _);
      try (unfold emin, SpecFloat.emin, prec, emax; lia).
    cbn [exact]. rewrite Hr. cbn. done.
  - pose proof (Zdigits2_le (Z.neg b) 63 ltac:(lia) ltac:(lia) ltac:(lia)) as Hdb.
    cbn [Zdigits2] in Hdb.
    destruct (SFdiv_normal true b 0 false f 0) as (m & e & Hr & _ & _);
      try (unfold emin, SpecFloat.emin, prec, emax; lia).
    cbn [exact]. rewrite Hr. cbn. done.
Qed.

Lemma create_chunks_total self P fs :
  0 <= P < 2 ^ 63 -> 0 < fs < 2 ^ 63 ->
  Z.abs (PDFChunker.chunk_size_bytes self) < 2 ^ 63 ->
  exists chunks, PDFChunker.create_chunks self P fs = Ok chunks.
Proof.
  intros HP Hfs Hc. destruct (Z.eq_dec P 0) as [->|Hne].
  { exists []. apply create_chunks_no_pages; done. }
  destruct (avg_page_size_positive P fs) as (m & e & Ha & Hm & He); [lia|lia|].
  destruct (pages_per_chunk_total self m e Hm He Hc) as (ppc & Hp).
  pose proof (pages_per_chunk_ge_1 _ _ _ Hp) as Hppc.
  pose proof (create_chunks_never_unfinished self P fs) as Hu.
  unfold PDFChunker.create_chunks in *. rewrite Ha in *. cbn [res_bind] in *.
  rewrite Hp in *. cbn [res_bind] in *.
  destruct (PDFChunker.chunk_loop _ _ _ _ _ _) as [cs|x|] eqn:El; [eauto| |done].
  exfalso. eapply chunk_loop_no_raise; [..|exact El]; lia.
Qed.

End TotalFacts.
Import TotalFacts.

(** The processor returns when the file opens, within the bounds of
    machine integers. *)
Lemma process_pdf_returns `{UnicodeData}
    (chunk_size_mb : Z) (file_path : File) (doc : Document)
    (use_ocr chunk_processing : bool)
    (language : str) (remove_repetitive remove_copyright : bool) :
  fitz_open file_path = Ok doc ->
  0 <= chunk_size_mb -> chunk_size_mb * 1024 * 1024 < 2 ^ 63 ->
  0 <= getsize file_path < 2 ^ 63 -> page_count doc < 2 ^ 63 ->
  exists r ev,
    process_pdf (PDFProcessor.init chunk_size_mb) file_path use_ocr chunk_processing
      language remove_repetitive remove_copyright = (Ok r, ev).
Proof.
  intros Hopen Hc Hcb Hs HP. unfold process_pdf.
  destruct (file_size_mb_finite (getsize file_path) Hs) as (f & Hf & Hcase).
  rewrite Hf. unfold lift at 1. cbn [bind].
  assert (Hwhole : exists r ev,
    _process_whole (PDFProcessor.init chunk_size_mb) file_path use_ocr language
      remove_repetitive remove_copyright = (Ok r, ev)).
  { unfold _process_whole, _extract_text_sync.
    rewrite Hopen, bind_lift_Ok, extract_pages_all.
    cbn [bind]. cbv zeta. rewrite Hf. unfold lift. cbn [bind ret]. eauto. }
  destruct (chunk_processing && _) eqn:Eb.
  - apply andb_true_iff in Eb as [_ Eb]. cbn [PDFProcessor.chunk_size_mb init] in Eb.
    destruct Hcase as [->|(m & e & -> & Hpos)]; [rewrite gt_zero_false in Eb; done|].
    unfold _process_chunked. cbn [chunker init].
    destruct (create_chunks_total (PDFChunker.init chunk_size_mb)
                (page_count doc) (getsize file_path)) as (chunks & Hch).
    { unfold page_count in *. lia. }
    { lia. }
    { cbn [PDFChunker.chunk_size_bytes PDFChunker.init]. lia. }
    assert (Hcf : PDFChunker.create_chunks_of_file (PDFChunker.init chunk_size_mb) file_path
                  = Ok chunks).
    { unfold PDFChunker.create_chunks_of_file. rewrite Hopen. exact Hch. }
    rewrite Hcf. unfold lift at 1. cbn [bind].
    destruct (create_chunks_of_file_tiles _ _ _ _ Hopen Hcf) as [_ Ht].
    rewrite (process_chunks_eq _ _ doc _ _ _ _ Hopen _ 0) by done.
    cbn [bind app]. rewrite Hf. unfold lift. cbn [bind ret]. eauto.
  - destruct Hwhole as (r & ev & ->). eauto.
Qed.

(** What [fitz.open] raises, the processor raises, before it has read a
    page. *)
Lemma process_pdf_open_fails `{UnicodeData}
    (self : PDFProcessor.t) (file_path : File) (e : exn)
    (use_ocr chunk_processing : bool)
    (language : str) (remove_repetitive remove_copyright : bool) :
  0 <= getsize file_path < 2 ^ 63 ->
  fitz_open file_path = Raise e ->
  process_pdf self file_path use_ocr chunk_processing language
    remove_repetitive remove_copyright = (Raise e, []).
Proof.
  intros Hs Hopen.
  destruct (file_size_mb_finite (getsize file_path) Hs) as (f & Hf & _).
  unfold process_pdf. rewrite Hf, bind_lift_Ok.
  unfold _process_chunked, _process_whole, _extract_text_sync,
    PDFChunker.create_chunks_of_file.
  rewrite Hopen.
  destruct (chunk_processing && gt (Float f) (Int (PDFProcessor.chunk_size_mb self)));
    reflexivity.
Qed.

(** X20. [process_pdf] ends for every file, and it returns a result
    exactly when [fitz.open] returns a document: with a chunk size that is
    not negative and a file size and a page count that are machine
    integers, no division fails, no page index is out of range and no loop
    runs on.  When [fitz.open] raises, as PyMuPDF does for an empty file or
    for one that is no document, [process_pdf] raises the same exception,
    before any page is read or the OCR engine is run. *)
Theorem process_pdf_total `{UnicodeData}
    (chunk_size_mb : Z) (file_path : File) (use_ocr chunk_processing : bool)
    (language : str) (remove_repetitive remove_copyright : bool) :
  0 <= chunk_size_mb -> chunk_size_mb * 1024 * 1024 < 2 ^ 63 ->
  0 <= getsize file_path < 2 ^ 63 ->
  (forall doc, fitz_open file_path = Ok doc -> page_count doc < 2 ^ 63) ->
  (forall doc, fitz_open file_path = Ok doc ->
     exists r ev,
       process_pdf (PDFProcessor.init chunk_size_mb) file_path use_ocr chunk_processing
         language remove_repetitive remove_copyright = (Ok r, ev))
  /\ (forall e, fitz_open file_path = Raise e ->
        process_pdf (PDFProcessor.init chunk_size_mb) file_path use_ocr chunk_processing
          language remove_repetitive remove_copyright = (Raise e, []))
  /\ ((exists doc, fitz_open file_path = Ok doc)
      \/ (exists e, fitz_open file_path = Raise e)).
Proof.
  intros Hc Hcb Hs HP. split; [|split].
  - intros doc Hopen. apply (process_pdf_returns chunk_size_mb file_path doc); auto.
  - intros e Hopen. apply process_pdf_open_fails; done.
  - unfold fitz_open. destruct (opens_as file_path); eauto.
Qed.

Lemma process_pdf_total_witness :
  (exists r ev,
     process_pdf (H := ascii_tables) (PDFProcessor.init 10) blank_then_body true true
       (py "eng") true true = (Ok r, ev))
  /\ process_pdf (H := ascii_tables) (PDFProcessor.init 10) empty_file true true
       (py "eng") true true = (Raise EmptyFileError, []).
Proof.
  split.
  - eapply (process_pdf_total (H := ascii_tables) 10 blank_then_body).
    + lia.
    + reflexivity.
    + change (0 <= 2048 < 2 ^ 63). lia.
    + intros doc [= <-]. change (2 < 2 ^ 63). lia.
    + reflexivity.
  - apply (process_pdf_total (H := ascii_tables) 10 empty_file).
    + lia.
    + reflexivity.
    + change (0 <= 0 < 2 ^ 63). lia.
    + intros doc Hd. discriminate Hd.
    + reflexivity.
Defined.

Module TransparentFacts.
Local Open Scope proc_scope.

Lemma join_app (sep : str) : forall A B,
  A <> [] -> B <> [] -> join sep (A ++ B) = join sep A ++ sep ++ join sep B.
Proof.
  induction A as [|a A IH]; intros B HA HB; [done|].
  destruct A as [|a' A].
  - cbn [app]. rewrite join_cons by done. done.
  - rewrite <- app_comm_cons, join_cons by done.
    rewrite IH by done. rewrite (join_cons sep a (a' :: A)) by done.
    rewrite <- !app_assoc. done.
Qed.

Section WithUnicode.
Context `{UnicodeData}.

Lemma marked_app : forall A B n,
  marked n (A ++ B) = marked n A ++ marked (n + Z.of_nat (length A)) B.
Proof.
  induction A as [|a A IH]; intros B n; cbn [app marked length].
  - rewrite Z.add_0_r. done.
  - rewrite IH, <- app_assoc. do 3 f_equal. lia.
Qed.

Lemma marked_nonempty T n :
  T <> [] -> Forall (fun t => truthy (strip t) = true) T -> marked n T <> [].
Proof.
  destruct T as [|t T]; [done|]. intros _ HT. inversion HT as [|? ? Ht _]; subst.
  cbn [marked]. rewrite Ht. done.
Qed.

(** Without the filters and without blank pages, the texts of the chunks
    put together are the text of the pages they tile. *)
Lemma chunk_texts_join self doc use_ocr language : forall chunks a,
  0 <= a -> PDFChunker.tiles a chunks (page_count doc - 1) ->
  Forall (fun p => truthy (strip (page_text p use_ocr language)) = true) (doc_pages doc) ->
  join [NL; NL]
    ((fun c => range_text self doc (PDFChunker.start_page c) (PDFChunker.end_page c)
                 use_ocr language false false) <$> chunks)
  = join [NL; NL]
      (marked (a + 1)
         ((fun p => page_text p use_ocr language) <$> drop (Z.to_nat a) (doc_pages doc))).
Proof.
  induction chunks as [|c chunks IH]; intros a Ha Ht Hall; cbn [PDFChunker.tiles] in Ht.
  - rewrite drop_ge by (unfold page_count in Ht; lia). done.
  - destruct Ht as (Hs & Hle & Hpc & Ht). pose proof (tiles_bound _ _ _ Ht) as Hb.
    rewrite fmap_cons. unfold range_text at 1, pages_in, apply_filter. cbn [orb].
    rewrite Hs.
    replace (Z.min (PDFChunker.end_page c + 1) (page_count doc) - a)
      with (PDFChunker.end_page c + 1 - a) by lia.
    set (n := Z.to_nat (PDFChunker.end_page c + 1 - a)).
    set (pt := fun p => page_text p use_ocr language).
    assert (Hsplit : drop (Z.to_nat a) (doc_pages doc)
              = take n (drop (Z.to_nat a) (doc_pages doc))
                ++ drop (Z.to_nat (PDFChunker.end_page c + 1)) (doc_pages doc)).
    { rewrite <- (take_drop n (drop (Z.to_nat a) (doc_pages doc))) at 1.
      f_equal. rewrite drop_drop. f_equal. lia. }
    assert (Hlen : length (take n (drop (Z.to_nat a) (doc_pages doc))) = n).
    { rewrite length_take, length_drop. unfold page_count in *. lia. }
    assert (HL : Forall (fun p => truthy (strip (page_text p use_ocr language)) = true)
                   (take n (drop (Z.to_nat a) (doc_pages doc))))
      by (apply Forall_take, Forall_drop; exact Hall).
    set (L := take n (drop (Z.to_nat a) (doc_pages doc))) in *. clearbody L.
    rewrite Hsplit, fmap_app, marked_app, length_fmap, Hlen.
    replace (a + 1 + Z.of_nat n) with (PDFChunker.end_page c + 1 + 1) by lia.
    specialize (IH (PDFChunker.end_page c + 1) ltac:(lia) Ht Hall). fold pt in IH.
    destruct chunks as [|c' chunks].
    + cbn [PDFChunker.tiles] in Ht.
      rewrite (drop_ge (doc_pages doc) (Z.to_nat (PDFChunker.end_page c + 1)))
        by (unfold page_count in Ht; lia).
      rewrite fmap_nil. cbn [marked]. rewrite app_nil_r. done.
    + rewrite join_cons by done. rewrite IH. symmetry. apply join_app.
      * apply marked_nonempty.
        -- intros E. apply (f_equal length) in E. rewrite length_fmap, Hlen in E.
           cbn in E. lia.
        -- apply Forall_fmap. exact HL.
      * apply marked_nonempty.
        -- cbn [PDFChunker.tiles] in Ht. destruct Ht as (Hs' & Hle' & _ & Ht').
           apply tiles_bound in Ht'.
           intros E. apply (f_equal length) in E. rewrite length_fmap, length_drop in E.
           cbn in E. unfold page_count in *. lia.
        -- apply Forall_fmap. apply Forall_drop. exact Hall.
Qed.

End WithUnicode.
End TransparentFacts.
Import TransparentFacts.

(** X21. Chunking is transparent when both filters are off and no page is
    blank: the text, its length, the page count and the OCR calls are the
    same in the chunked result and in the result for the whole
    document. *)
Theorem chunking_is_transparent_without_filters `{UnicodeData}
    (self : PDFProcessor.t) (file_path : File) (doc : Document)
    (use_ocr : bool) (language : str)
    (r_chunked r_whole : Result) (ev_chunked ev_whole : list event) :
  fitz_open file_path = Ok doc ->
  Forall (fun p => truthy (strip (page_text p use_ocr language)) = true) (doc_pages doc) ->
  _process_chunked self file_path use_ocr language false false = (Ok r_chunked, ev_chunked) ->
  _process_whole self file_path use_ocr language false false = (Ok r_whole, ev_whole) ->
  text r_chunked = text r_whole
  /\ total_chars r_chunked = total_chars r_whole
  /\ pages r_chunked = pages r_whole
  /\ ev_chunked = ev_whole.
Proof.
  intros Hopen Hall Hc Hw.
  unfold _process_chunked in Hc.
  apply bind_Ok in Hc as (chunks & l1 & l2 & Hch & Hc & ->).
  unfold lift in Hch. injection Hch as Hch <-.
  destruct (create_chunks_of_file_tiles _ _ _ _ Hopen Hch) as [_ Ht].
  rewrite (process_chunks_eq _ _ doc _ _ _ _ Hopen _ 0) in Hc by done.
  cbn [bind app] in Hc. unfold lift in Hc.
  unfold _process_whole, _extract_text_sync in Hw.
  rewrite Hopen, bind_lift_Ok, extract_pages_all in Hw.
  cbn [bind] in Hw. cbv zeta in Hw. unfold lift in Hw.
  destruct (truediv _ _) as [mb|e|]; cbn [bind ret] in Hc, Hw; try discriminate.
  injection Hc as <- <-. injection Hw as <- <-. cbn [text total_chars pages].
  unfold enumerate. rewrite (markers_loop 0 _ 0 []). cbn [app Z.add].
  unfold apply_filter. cbn [orb].
  rewrite (chunk_texts_join self doc use_ocr language chunks 0) by done.
  rewrite drop_0. cbn [Z.add]. rewrite !app_nil_r. repeat split. lia.
Qed.

Lemma chunking_is_transparent_without_filters_witness :
  let doc := {| doc_pages := [ {| get_text := py "First page"; ocr := fun _ => None |};
                               {| get_text := py "Second page"; ocr := fun _ => None |} ] |} in
  let file_path := {| getsize := 4096; opens_as := inl doc |} in
  exists rc rw ev,
    _process_chunked (H := ascii_tables) (PDFProcessor.init 10) file_path false (py "eng")
      false false = (Ok rc, ev)
    /\ _process_whole (H := ascii_tables) (PDFProcessor.init 10) file_path false (py "eng")
         false false = (Ok rw, ev)
    /\ text rc = text rw.
Proof.
  cbv zeta.
  set (doc := {| doc_pages := _ |}).
  set (file_path := {| getsize := 4096; opens_as := inl doc |}).
  destruct (_process_chunked (H := ascii_tables) (PDFProcessor.init 10) file_path false
              (py "eng") false false) as [[rc| |] ev1] eqn:E1;
    try (vm_compute in E1; discriminate).
  destruct (_process_whole (H := ascii_tables) (PDFProcessor.init 10) file_path false
              (py "eng") false false) as [[rw| |] ev2] eqn:E2;
    try (vm_compute in E2; discriminate).
  assert (Hall : Forall (fun p => truthy (strip (page_text (H := ascii_tables) p false
                                                   (py "eng"))) = true) (doc_pages doc)).
  { repeat constructor. }
  destruct (chunking_is_transparent_without_filters (H := ascii_tables)
              (PDFProcessor.init 10) file_path doc false (py "eng") rc rw ev1 ev2
              eq_refl Hall E1 E2)
    as (Ht & _ & _ & He).
  exists rc, rw, ev1. split; [reflexivity|]. split; [rewrite He; reflexivity|exact Ht].
Defined.

(** ** More about the chunker *)

Import PDFChunker TotalFacts.

Module ChunkShapeFacts.

Lemma ceil_step total cur ppc :
  1 <= ppc -> cur < total ->
  (total - cur + ppc - 1) / ppc
  = 1 + (total - (Z.min (cur + ppc - 1) (total - 1) + 1) + ppc - 1) / ppc
  \/ (total <= cur + ppc /\ (total - cur + ppc - 1) / ppc = 1
      /\ Z.min (cur + ppc - 1) (total - 1) + 1 = total).
Proof.
  intros Hp Hc. destruct (Z_le_gt_dec total (cur + ppc)) as [Hle|Hgt].
  - right. split; [done|]. split; [|lia].
    symmetry. apply Z.div_unique with (r := total - cur - 1); lia.
  - left. replace (Z.min (cur + ppc - 1) (total - 1) + 1) with (cur + ppc) by lia.
    replace (total - cur + ppc - 1) with ((total - (cur + ppc) + ppc - 1) + 1 * ppc) by lia.
    rewrite Z.div_add by lia. lia.
Qed.

(** The chunks that the loop appends: the [i]-th starts [i] times
    [pages_per_chunk] pages after [cur]. *)
Lemma chunk_loop_shape fuel total ppc avg : forall cur acc out,
  1 <= ppc -> cur <= total ->
  chunk_loop fuel total ppc avg cur acc = Ok out ->
  exists new, out = acc ++ new
    /\ Z.of_nat (length new) = (total - cur + ppc - 1) / ppc
    /\ forall i c, new !! i = Some c ->
         chunk_at total ppc avg (cur + Z.of_nat i * ppc) c.
Proof.
  induction fuel as [|fuel IH]; intros cur acc out Hppc Hcur; cbn [chunk_loop].
  - destruct (cur <? total) eqn:E; [discriminate|]. apply Z.ltb_ge in E.
    intros [= <-]. exists []. rewrite app_nil_r. split; [done|]. split; [|done].
    cbn [length]. symmetry. apply Z.div_small. lia.
  - destruct (cur <? total) eqn:E.
    + apply Z.ltb_lt in E. intros Hr.
      destruct (mul _ avg) as [size| |] eqn:Em; cbn [res_bind] in Hr; try discriminate.
      destruct (truediv size _) as [mb| |] eqn:Ed; cbn [res_bind] in Hr; try discriminate.
      apply IH in Hr as (new & -> & Hlen & Hat); [|done|lia].
      eexists (_ :: new). rewrite <- app_assoc. split; [reflexivity|]. split.
      * cbn [length]. rewrite Nat2Z.inj_succ, Hlen.
        destruct (ceil_step total cur ppc Hppc E) as [->|(Hle & -> & Hend)]; [lia|].
        rewrite Hend. replace (total - total + ppc - 1) with (ppc - 1) by lia.
        rewrite Z.div_small by lia. lia.
      * intros [|i] c Hc; cbn in Hc.
        -- injection Hc as <-. unfold chunk_at. cbn [start_page end_page page_count
             estimated_size_mb]. rewrite Z.mul_0_l, Z.add_0_r.
           repeat split. rewrite Em. cbn [res_bind]. exact Ed.
        -- specialize (Hat i c Hc).
           destruct (Z_le_gt_dec total (cur + ppc)) as [Hle|Hgt].
           ++ exfalso. apply lookup_lt_Some in Hc.
              assert (Hz : Z.of_nat (length new) = 0); [|lia].
              rewrite Hlen.
              replace (Z.min (cur + ppc - 1) (total - 1) + 1) with total by lia.
              apply Z.div_small. lia.
           ++ replace (Z.min (cur + ppc - 1) (total - 1) + 1) with (cur + ppc) in Hat by lia.
              replace (cur + Z.of_nat (S i) * ppc) with (cur + ppc + Z.of_nat i * ppc) by lia.
              exact Hat.
    + apply Z.ltb_ge in E. intros [= <-]. exists []. rewrite app_nil_r.
      split; [done|]. split; [|done]. cbn [length]. symmetry. apply Z.div_small. lia.
Qed.

End ChunkShapeFacts.
Import ChunkShapeFacts.

(** X22. The chunks are equal-sized: with [ppc] the number of pages per
    chunk that [create_chunks] computes, chunk number [i] (from 0) goes
    from page [i * ppc] to page [i * ppc + ppc - 1], or to the last page
    when that comes first; its [page_count] is the number of its pages,
    its [estimated_size_mb] is that count times the average page size, in
    megabytes; and there are [ceil(P / ppc)] chunks. *)
Theorem create_chunks_equal_sized (self : PDFChunker.t) (P file_size : Z)
    (chunks : list Chunk) :
  0 <= P ->
  create_chunks self P file_size = Ok chunks ->
  exists avg ppc,
    avg_page_size P file_size = Ok avg
    /\ pages_per_chunk self avg = Ok ppc
    /\ 1 <= ppc
    /\ Z.of_nat (length chunks) = (P + ppc - 1) / ppc
    /\ forall i c, chunks !! i = Some c -> chunk_at P ppc avg (Z.of_nat i * ppc) c.
Proof.
  intros HP Hr. unfold create_chunks in Hr.
  apply res_bind_Ok in Hr as (avg & Ha & Hr).
  apply res_bind_Ok in Hr as (ppc & Hp & Hr).
  pose proof (pages_per_chunk_ge_1 _ _ _ Hp) as Hppc.
  apply chunk_loop_shape in Hr as (new & -> & Hlen & Hat); [|done|done].
  exists avg, ppc. split; [done|]. split; [done|]. split; [done|]. cbn [app]. split.
  - rewrite Hlen. f_equal. lia.
  - intros i c Hc. specialize (Hat i c Hc). rewrite Z.add_0_l in Hat. exact Hat.
Qed.

Lemma create_chunks_equal_sized_witness :
  exists chunks avg,
    create_chunks (init 1) 5 4194304 = Ok chunks
    /\ pages_per_chunk (init 1) avg = Ok 1
    /\ Z.of_nat (length chunks) = (5 + 1 - 1) / 1.
Proof.
  destruct (create_chunks (init 1) 5 4194304) as [chunks| |] eqn:E;
    try (vm_compute in E; discriminate).
  destruct (create_chunks_equal_sized (init 1) 5 4194304 chunks ltac:(lia) E)
    as (avg & ppc & Ha & Hp & _ & Hl & _).
  assert (ppc = 1) as ->.
  { vm_compute in Ha. injection Ha as <-. vm_compute in Hp. injection Hp as <-. done. }
  exists chunks, avg. split; [reflexivity|]. split; [exact Hp|exact Hl].
Defined.

(** X23. A document without pages gives no chunk, when its file is not
    empty: the average page size is then the file size, which is not
    zero. *)
Theorem create_chunks_of_document_without_pages (self : PDFChunker.t) (file_size : Z) :
  0 < file_size < 2 ^ 63 -> Z.abs (chunk_size_bytes self) < 2 ^ 63 ->
  create_chunks self 0 file_size = Ok [].
Proof. apply create_chunks_no_pages. Qed.

Lemma create_chunks_of_document_without_pages_witness :
  create_chunks (init 10) 0 1024 = Ok [].
Proof.
  apply create_chunks_of_document_without_pages; [lia|].
  change (Z.abs 10485760 < 2 ^ 63). lia.
Defined.



(** ** The endpoint *)

Import PDFProcessor.

Module RoutesFacts.
Import Routes.

(** The loop writes the upload, or stops as soon as it is too large. *)
Lemma save_spec max_size : forall reads total_size written,
  total_size <= max_size ->
  save reads max_size total_size written
  = if total_size + Z.of_nat (length (upload_data reads)) >? max_size
    then None
    else Some (written ++ upload_data reads).
Proof.
  induction reads as [|content reads IH]; intros total_size written Ht;
    cbn [save upload_data].
  - cbn [length]. change (Z.of_nat 0) with 0. rewrite app_nil_r, Z.gtb_ltb, Z.add_0_r.
    assert ((max_size <? total_size) = false) as -> by lia. done.
  - destruct (truthy content) eqn:Ec.
    + rewrite length_app, Nat2Z.inj_add, !Z.gtb_ltb.
      destruct (max_size <? total_size + Z.of_nat (length content)) eqn:E.
      * apply Z.ltb_lt in E.
        assert ((max_size <? total_size + (Z.of_nat (length content)
                  + Z.of_nat (length (upload_data reads)))) = true) as ->
          by (apply Z.ltb_lt; lia).
        done.
      * apply Z.ltb_ge in E.
        rewrite IH by lia. rewrite Z.gtb_ltb, Z.add_assoc, app_assoc. done.
    + cbn [length]. change (Z.of_nat 0) with 0.
      rewrite app_nil_r, Z.gtb_ltb, Z.add_0_r.
      assert ((max_size <? total_size) = false) as -> by lia. done.
Qed.

Section WithUnicode.
Context `{UnicodeData}.

(** The processor ends: it returns or it raises. *)
Lemma extract_pages_finishes doc use_ocr language : forall idxs acc,
  (extract_pages doc idxs use_ocr language acc).1 <> Unfinished.
Proof.
  induction idxs as [|i idxs IH]; intros acc; cbn [extract_pages]; [done|].
  unfold lift, getitem.
  destruct (i <? page_count doc); [|done].
  destruct (doc_pages doc !! _) as [page|]; [|done]. cbn [bind].
  rewrite extract_page_text_eq. cbn [bind].
  specialize (IH (acc ++ [page_text page use_ocr language])).
  destruct (extract_pages doc idxs use_ocr language _) as [r l]. exact IH.
Qed.

Lemma fitz_open_finishes file_path : fitz_open file_path <> Unfinished.
Proof. unfold fitz_open. destruct (opens_as file_path); done. Qed.

Lemma range_sync_finishes self file_path a b use_ocr language rr rc :
  (_extract_text_range_sync self file_path a b use_ocr language rr rc).1 <> Unfinished.
Proof.
  unfold _extract_text_range_sync, lift.
  pose proof (fitz_open_finishes file_path) as Ho.
  destruct (fitz_open file_path) as [doc|e|]; [|done|done]. cbn [bind].
  pose proof (extract_pages_finishes doc use_ocr language
                (range a (Z.min (b + 1) (page_count doc))) []) as Hx.
  destruct (extract_pages _ _ _ _ _) as [[texts|e|] l]; done.
Qed.

Lemma process_chunks_finishes self file_path use_ocr language rr rc :
  forall chunks at_ tp cp,
  (process_chunks self file_path chunks use_ocr language rr rc at_ tp cp).1 <> Unfinished.
Proof.
  induction chunks as [|c chunks IH]; intros at_ tp cp; cbn [process_chunks]; [done|].
  unfold _process_page_range.
  pose proof (range_sync_finishes self file_path (PDFChunker.start_page c)
                (PDFChunker.end_page c) use_ocr language rr rc) as Hx.
  destruct (_extract_text_range_sync _ _ _ _ _ _ _ _) as [[r|e|] l]; [|done|done].
  cbn [bind].
  specialize (IH (at_ ++ [text r]) (tp + pages r) (cp + 1)).
  destruct (process_chunks _ _ _ _ _ _ _ _ _ _) as [r' l']. exact IH.
Qed.

Lemma process_pdf_finishes self file_path use_ocr chunk_processing language rr rc :
  (process_pdf self file_path use_ocr chunk_processing language rr rc).1 <> Unfinished.
Proof.
  unfold process_pdf, lift.
  pose proof (truediv_finishes (Int (getsize file_path)) (Int (1024 * 1024))) as Hd.
  destruct (truediv _ _) as [mb|e|]; [|done|done]. cbn [bind].
  pose proof (fitz_open_finishes file_path) as Ho.
  destruct (chunk_processing && _).
  - unfold _process_chunked, lift, PDFChunker.create_chunks_of_file.
    destruct (fitz_open file_path) as [doc|e|]; [|done|done]. cbn [res_bind].
    pose proof (create_chunks_never_unfinished (chunker self) (page_count doc)
                  (getsize file_path)) as Hc.
    destruct (PDFChunker.create_chunks _ _ _) as [chunks|e|]; [|done|done]. cbn [bind].
    pose proof (process_chunks_finishes self file_path use_ocr language rr rc chunks [] 0 0)
      as Hp.
    destruct (process_chunks _ _ _ _ _ _ _ _ _ _) as [[[[a b] c]|e|] l]; [|done|done].
    cbn [bind].
    pose proof (truediv_finishes (Int (getsize file_path)) (Int (1024 * 1024))) as Hd'.
    destruct (truediv _ _) as [mb'|e|]; done.
  - unfold _process_whole, _extract_text_sync, lift.
    destruct (fitz_open file_path) as [doc|e|]; [|done|done]. cbn [bind].
    pose proof (extract_pages_finishes doc use_ocr language
                  (range 0 (page_count doc)) []) as Hx.
    destruct (extract_pages _ _ _ _ _) as [[texts|e|] l]; [|done|done].
    cbn [bind]. cbv zeta.
    pose proof (truediv_finishes (Int (getsize file_path)) (Int (1024 * 1024))) as Hd'.
    destruct (truediv _ _) as [mb'|e|]; done.
Qed.

(** The counts and the events in a result of the processor. *)
Lemma process_pdf_fields self file_path doc use_ocr chunk_processing language rr rc r ev :
  fitz_open file_path = Ok doc ->
  process_pdf self file_path use_ocr chunk_processing language rr rc = (Ok r, ev) ->
  pages r = page_count doc /\ total_chars r = Z.of_nat (length (text r))
  /\ ev = flat_map (fun p => page_events p use_ocr language) (doc_pages doc).
Proof.
  intros Hopen. unfold process_pdf. intros Hr.
  apply bind_Ok in Hr as (mb & l1 & l2 & Hm & Hr & ->).
  unfold lift in Hm. injection Hm as _ <-. cbn [app].
  destruct (chunk_processing && _).
  - unfold _process_chunked in Hr.
    apply bind_Ok in Hr as (chunks & l3 & l4 & Hc & Hr & ->).
    unfold lift in Hc. injection Hc as Hc <-.
    destruct (create_chunks_of_file_tiles _ _ _ _ Hopen Hc) as [_ Ht].
    rewrite (process_chunks_eq _ _ doc _ _ _ _ Hopen _ 0) in Hr by done.
    cbn [bind app] in Hr. unfold lift in Hr.
    destruct (truediv _ _) as [mb'|e|]; cbn [bind ret] in Hr; try discriminate.
    injection Hr as <- <-. cbn. rewrite !app_nil_r. split; [lia|done].
  - unfold _process_whole, _extract_text_sync in Hr.
    rewrite Hopen, bind_lift_Ok, extract_pages_all in Hr.
    cbn [bind] in Hr. cbv zeta in Hr. unfold lift in Hr.
    destruct (truediv _ _) as [mb'|e|]; cbn [bind ret] in Hr; try discriminate.
    injection Hr as <- <-. cbn. rewrite !app_nil_r. done.
Qed.

End WithUnicode.
End RoutesFacts.
Import Routes RoutesFacts.

(** X24. An upload over the limit is answered 500, not 413.  The
    [HTTPException] with status 413 is raised inside the [try] statement,
    whose handler catches every [Exception]: it is quoted in the detail of
    a new exception with status 500.  The file has been removed by then,
    and the processor is not run. *)
Theorem oversized_upload_is_answered_500 `{UnicodeData}
    (pdf_processor : PDFProcessor.t) (fitz : list N -> Document + exn)
    (max_file_size_mb : Z) (file_id filename : str) (reads : list (list N))
    (use_ocr chunk_processing : bool) (language : str)
    (remove_repetitive remove_copyright : bool) (d : disk) :
  endswith filename (py ".pdf") = true ->
  0 <= max_file_size_mb ->
  Z.of_nat (length (upload_data reads)) > max_file_size_mb * 1024 * 1024 ->
  extract_text_from_pdf pdf_processor fitz max_file_size_mb file_id filename reads
    use_ocr chunk_processing language remove_repetitive remove_copyright d
  = (Raises (HTTPException 500
               (ProcessingError (HTTPException 413 (TooLarge max_file_size_mb)))),
     None, []).
Proof.
  intros Hn Hm Hl. unfold extract_text_from_pdf, try_body. rewrite Hn. cbn [negb].
  cbv zeta. rewrite save_spec by lia. rewrite Z.add_0_l, Z.gtb_ltb.
  destruct (_ <? _) eqn:E; [|apply Z.ltb_ge in E; lia].
  cbn [unlink file_exists]. rewrite <- Z.mul_assoc, Z.div_mul by done. done.
Qed.

Lemma oversized_upload_is_answered_500_witness :
  extract_text_from_pdf (H := ascii_tables) (PDFProcessor.init 10)
    example_fitz 0 (py "id") (py "a.pdf") [pdf_bytes]
    true true (py "eng") true true None
  = (Raises (HTTPException 500 (ProcessingError (HTTPException 413 (TooLarge 0)))),
     None, []).
Proof.
  apply (oversized_upload_is_answered_500 (H := ascii_tables)).
  - reflexivity.
  - lia.
  - cbn. lia.
Defined.

(** X25. The status of the response is 400 exactly when the name of the
    file does not end in [.pdf]; otherwise it is 200 or 500.  It is never
    413, and the request always comes to an end. *)
Theorem extract_status_is_200_400_or_500 `{UnicodeData}
    (pdf_processor : PDFProcessor.t) (fitz : list N -> Document + exn)
    (max_file_size_mb : Z) (file_id filename : str) (reads : list (list N))
    (use_ocr chunk_processing : bool) (language : str)
    (remove_repetitive remove_copyright : bool) (d : disk) :
  let o := (extract_text_from_pdf pdf_processor fitz max_file_size_mb file_id
              filename reads use_ocr chunk_processing language
              remove_repetitive remove_copyright d).1.1 in
  (status o = Some 400 <-> endswith filename (py ".pdf") = false)
  /\ (status o = Some 200 \/ status o = Some 400 \/ status o = Some 500)
  /\ status o <> Some 413.
Proof.
  cbv zeta. unfold extract_text_from_pdf, try_body.
  destruct (endswith filename (py ".pdf")); cbn [negb]; [|cbn; repeat split; auto; done].
  cbv zeta. destruct (save _ _ _ _) as [content|]; [|cbn; repeat split; auto; done].
  pose proof (process_pdf_finishes pdf_processor (saved fitz content) use_ocr
                chunk_processing language remove_repetitive remove_copyright) as Hf.
  destruct (process_pdf _ _ _ _ _ _ _) as [[r|e|] ev]; [| |done];
    cbn; repeat split; auto; done.
Qed.

(** X26. The upload never stays on disk: when the name ends in [.pdf],
    the file of the request is gone when the request ends, whether the
    processor returned or raised and whether the upload was too large;
    otherwise nothing was written. *)
Theorem upload_is_always_removed `{UnicodeData}
    (pdf_processor : PDFProcessor.t) (fitz : list N -> Document + exn)
    (max_file_size_mb : Z) (file_id filename : str) (reads : list (list N))
    (use_ocr chunk_processing : bool) (language : str)
    (remove_repetitive remove_copyright : bool) (d : disk) :
  let d' := (extract_text_from_pdf pdf_processor fitz max_file_size_mb file_id
               filename reads use_ocr chunk_processing language
               remove_repetitive remove_copyright d).1.2 in
  d' = if endswith filename (py ".pdf") then None else d.
Proof.
  cbv zeta. unfold extract_text_from_pdf, try_body.
  destruct (endswith filename (py ".pdf")); cbn [negb]; [|done].
  cbv zeta. destruct (save _ _ _ _) as [content|]; [|done].
  pose proof (process_pdf_finishes pdf_processor (saved fitz content) use_ocr
                chunk_processing language remove_repetitive remove_copyright) as Hf.
  destruct (process_pdf _ _ _ _ _ _ _) as [[r|e|] ev]; done.
Qed.

(** X27. An upload within the limit is answered 200 exactly when
    [fitz.open] finds a document in the saved file.  For a name that ends
    in [.pdf], an upload within the limit and a chunk size, a size limit
    and a page count that are machine integers: if the file opens, the
    endpoint returns a response with [success], the name of the file, the
    page count of the document, and [total_chars] equal to the length of
    [text], and the OCR engine ran once on every page with a short text
    layer; if [fitz.open] raises, as it does on an empty upload or on
    bytes that are no PDF, the answer is 500 and quotes the exception, and
    the OCR engine did not run.  Either way the file is removed. *)
Theorem accepted_upload_is_answered_200 `{UnicodeData}
    (chunk_size_mb : Z) (fitz : list N -> Document + exn)
    (max_file_size_mb : Z) (file_id filename : str) (reads : list (list N))
    (use_ocr chunk_processing : bool) (language : str)
    (remove_repetitive remove_copyright : bool) (d : disk) :
  endswith filename (py ".pdf") = true ->
  0 <= max_file_size_mb -> max_file_size_mb * 1024 * 1024 < 2 ^ 63 ->
  Z.of_nat (length (upload_data reads)) <= max_file_size_mb * 1024 * 1024 ->
  0 <= chunk_size_mb -> chunk_size_mb * 1024 * 1024 < 2 ^ 63 ->
  match fitz (upload_data reads) with
  | inl doc =>
      page_count doc < 2 ^ 63 ->
      exists j ev,
        extract_text_from_pdf (PDFProcessor.init chunk_size_mb) fitz max_file_size_mb
          file_id filename reads use_ocr chunk_processing language
          remove_repetitive remove_copyright d
        = (Returns j, None, ev)
        /\ success j = true
        /\ json_filename j = filename
        /\ json_pages j = page_count doc
        /\ json_total_chars j = Z.of_nat (length (json_text j))
        /\ ev = flat_map (fun p => page_events p use_ocr language) (doc_pages doc)
  | inr e =>
      extract_text_from_pdf (PDFProcessor.init chunk_size_mb) fitz max_file_size_mb
        file_id filename reads use_ocr chunk_processing language
        remove_repetitive remove_copyright d
      = (Raises (HTTPException 500 (ProcessingError (PythonError e))), None, [])
  end.
Proof.
  intros Hn Hm Hmb Hl Hc Hcb.
  assert (Hs : 0 <= getsize (saved fitz (upload_data reads)) < 2 ^ 63).
  { cbn [getsize saved]. lia. }
  unfold extract_text_from_pdf, try_body. rewrite Hn. cbn [negb]. cbv zeta.
  rewrite save_spec by lia. rewrite Z.add_0_l, Z.gtb_ltb.
  destruct (_ <? _) eqn:E; [apply Z.ltb_lt in E; lia|]. cbn [app].
  destruct (fitz (upload_data reads)) as [doc|e] eqn:Ef.
  - intros HP.
    assert (Hopen : fitz_open (saved fitz (upload_data reads)) = Ok doc).
    { unfold fitz_open. cbn [opens_as saved]. rewrite Ef. done. }
    destruct (process_pdf_returns chunk_size_mb (saved fitz (upload_data reads)) doc
                use_ocr chunk_processing language remove_repetitive remove_copyright
                Hopen Hc Hcb Hs HP) as (r & ev & Hr).
    rewrite Hr. eexists _, ev. split; [reflexivity|]. cbn.
    destruct (process_pdf_fields _ _ _ _ _ _ _ _ _ _ Hopen Hr) as (Hp & Ht & He).
    repeat split; done.
  - assert (Hopen : fitz_open (saved fitz (upload_data reads)) = Raise e).
    { unfold fitz_open. cbn [opens_as saved]. rewrite Ef. done. }
    rewrite (process_pdf_open_fails _ _ e _ _ _ _ _ Hs Hopen). done.
Qed.

Lemma accepted_upload_is_answered_200_witness :
  (exists j ev,
     extract_text_from_pdf (H := ascii_tables) (PDFProcessor.init 10)
       example_fitz 500 (py "id") (py "report.pdf") [pdf_bytes; []]
       false true (py "eng") true true None
     = (Returns j, None, ev)
     /\ json_pages j = 2)
  /\ extract_text_from_pdf (H := ascii_tables) (PDFProcessor.init 10)
       example_fitz 500 (py "id") (py "report.pdf") [py "not a PDF"]
       false true (py "eng") true true None
     = (Raises (HTTPException 500 (ProcessingError (PythonError FileDataError))), None, []).
Proof.
  split.
  - pose proof (accepted_upload_is_answered_200 (H := ascii_tables) 10
                  example_fitz 500 (py "id") (py "report.pdf") [pdf_bytes; []]
                  false true (py "eng") true true None) as Hw.
    destruct Hw as (j & ev & He & _ & _ & Hp & _).
    + reflexivity.
    + lia.
    + reflexivity.
    + cbn. lia.
    + lia.
    + reflexivity.
    + change (2 < 2 ^ 63). lia.
    + exists j, ev. split; [exact He|exact Hp].
  - apply (accepted_upload_is_answered_200 (H := ascii_tables) 10
             example_fitz 500 (py "id") (py "report.pdf") [py "not a PDF"]
             false true (py "eng") true true None).
    + reflexivity.
    + lia.
    + reflexivity.
    + cbn. lia.
    + lia.
    + reflexivity.
Defined.

(** ** The normalizer as the processor calls it *)

Import Re TextNormalizer.

Module ShapeFacts.

Lemma remove_soft_hyphens_chars c s : c ∈ remove_soft_hyphens s -> c ∈ s.
Proof.
  unfold remove_soft_hyphens, sub. intros Hc.
  eapply elem_of_sublist; [exact Hc|].
  etrans; [apply replace_empty_sublist|apply sub_from_empty_sublist].
Qed.

End ShapeFacts.
Import ShapeFacts.

(** X28. What [normalize] guarantees about its result, whatever the
    Unicode tables: with [whitespace] on, the result is in the normal form
    of [clean_whitespace] (no white space at either end or at the end of a
    line, no two spaces and no three newlines in a row); with
    [soft_hyphens] on, it holds no soft hyphen U+00AD; with [ligatures] on
    and [unicode_norm] off, it holds none of the ligatures U+FB00 to
    U+FB06. *)
Theorem normalize_output_shape `{UnicodeData}
    (s : str) (ligatures unicode_norm whitespace soft_hyphens ocr_errors : bool) :
  let out := normalize s ligatures unicode_norm whitespace soft_hyphens ocr_errors in
  (whitespace = true ->
     strip out = out
     /\ Forall (fun l => rstrip l = l) (split NL out)
     /\ (forall a b, out <> a ++ [32%N; 32%N] ++ b)
     /\ (forall a b, out <> a ++ [NL; NL; NL] ++ b))
  /\ (soft_hyphens = true -> 173%N ∉ out)
  /\ (ligatures = true -> unicode_norm = false ->
        Forall (fun c => c ∉ out) ligature_chars).
Proof.
  cbv zeta. unfold normalize, fix_common_ocr_errors.
  set (x0 := if ligatures then normalize_ligatures s else s).
  set (x1 := if unicode_norm then normalize_unicode x0 else x0).
  set (x2 := if soft_hyphens then remove_soft_hyphens x1 else x1).
  assert (Hout : (if ocr_errors
                  then if whitespace then clean_whitespace x2 else x2
                  else if whitespace then clean_whitespace x2 else x2)
                 = if whitespace then clean_whitespace x2 else x2)
    by (destruct ocr_errors; done).
  rewrite Hout. clear Hout. split; [|split].
  - intros ->. destruct (clean_whitespace_clean x2) as (Hd & Hr & Ht & Hs).
    split; [exact Hs|]. split; [apply trailfree_lines, Ht|].
    split; intros a b; [apply nodouble_no_pair, Hd|apply norun3_no_triple, Hr].
  - intros Hsh. assert (H2 : 173%N ∉ x2).
    { subst x2. rewrite Hsh. unfold remove_soft_hyphens.
      apply replace_removes, not_elem_of_nil. }
    destruct whitespace; [apply clean_whitespace_no_soft_hyphen|]; done.
  - intros Hl Hu. assert (H0 : Forall (fun c => c ∉ x0) ligature_chars).
    { subst x0. rewrite Hl. apply normalize_ligatures_removes. }
    assert (H2 : Forall (fun c => c ∉ x2) ligature_chars).
    { subst x2 x1. rewrite Hu. destruct soft_hyphens; [|done].
      eapply Forall_impl; [exact H0|]. intros c Hc Hin.
      apply Hc, remove_soft_hyphens_chars, Hin. }
    destruct whitespace; [apply clean_whitespace_no_ligature|]; done.
Qed.

Import Re TextFilter.

(** ** The matcher and what the patterns match *)

Module MatcherFacts.

(** The greedy repetition finds a way when there is one. *)
Lemma star_iff {A} p (k : bool -> str -> option A) : forall s bol,
  (exists a, star p bol s k = Some a)
  <-> exists w rest, s = w ++ rest /\ Forall (fun x => p x = true) w
        /\ exists a, k (match w with [] => bol | _ :: _ => false end) rest = Some a.
Proof.
  induction s as [|c t IH]; intros bol; cbn [star].
  - split.
    + intros Hk. exists [], []. done.
    + intros (w & rest & Hs & _ & Hk). symmetry in Hs.
      apply app_eq_nil in Hs as [-> ->]. done.
  - destruct (p c) eqn:Ec.
    + split.
      * intros (a & Ha). destruct (star p false t k) as [a'|] eqn:Es.
        -- destruct (proj1 (IH false)) as (w & rest & -> & Hw & Hk); [eauto|].
           exists (c :: w), rest. split; [done|]. split; [constructor; done|].
           destruct w; done.
        -- exists [], (c :: t). split; [done|]. split; [constructor|]. eauto.
      * intros (w & rest & Hs & Hw & Hk). destruct w as [|c' w].
        -- cbn [app] in Hs. subst rest. destruct (star p false t k); eauto.
        -- injection Hs as <- ->. inversion Hw; subst.
           destruct (proj2 (IH false)) as (a & ->); [|eauto].
           exists w, rest. split; [done|]. split; [done|]. destruct w; done.
    + split.
      * intros Hk. exists [], (c :: t). split; [done|]. split; [constructor|]. done.
      * intros (w & rest & Hs & Hw & Hk). destruct w as [|c' w].
        -- cbn [app] in Hs. subst rest. done.
        -- injection Hs as <- ->. inversion Hw; subst. congruence.
Qed.

(** The backtracking matcher succeeds exactly when the subject starts with
    something that the pattern matches and that the continuation
    accepts. *)
Lemma run_iff {A} r : forall s bol (k : bool -> str -> option A),
  (exists a, run r bol s k = Some a)
  <-> exists w rest b', s = w ++ rest /\ den r bol w rest b'
        /\ exists a, k b' rest = Some a.
Proof.
  induction r as [|p|p|r1 IH1 r2 IH2| |]; intros s bol k; cbn [run].
  - split.
    + intros Hk. exists [], s, bol. split; [done|]. split; [constructor|done].
    + intros (w & rest & b' & -> & Hd & Hk). inversion Hd; subst. done.
  - split.
    + intros (a & Ha). destruct s as [|c t]; [done|]. destruct (p c) eqn:Ec; [|done].
      exists [c], t, false. split; [done|]. split; [constructor; done|eauto].
    + intros (w & rest & b' & -> & Hd & Hk). inversion Hd; subst. cbn [app].
      match goal with H : p _ = true |- _ => rewrite H end. done.
  - rewrite star_iff. split.
    + intros (w & rest & -> & Hw & Hk). exists w, rest.
      destruct w as [|c w].
      * exists bol. split; [done|]. split; [constructor|done].
      * exists false. inversion Hw; subst. split; [done|]. split; [constructor; done|done].
    + intros (w & rest & b' & -> & Hd & Hk). exists w, rest. split; [done|].
      inversion Hd; subst; (split; [|done]); constructor; done.
  - rewrite IH1. split.
    + intros (w1 & rest1 & b1 & -> & Hd1 & Hk).
      apply IH2 in Hk as (w2 & rest & b2 & -> & Hd2 & Hk).
      exists (w1 ++ w2), rest, b2. rewrite <- app_assoc. split; [done|].
      split; [econstructor; eauto|done].
    + intros (w & rest & b' & -> & Hd & Hk). inversion Hd; subst.
      eexists _, (_ ++ rest), _. rewrite <- app_assoc. split; [done|].
      split; [eassumption|]. apply IH2. eauto 6.
  - split.
    + intros (a & Ha). destruct bol; [|done]. exists [], s, true.
      split; [done|]. split; [constructor|eauto].
    + intros (w & rest & b' & -> & Hd & Hk). inversion Hd; subst. done.
  - split.
    + intros (a & Ha). exists [], s, bol. split; [done|].
      destruct s as [|c [|c' t]]; [split; [constructor; auto|eauto]| |done].
      destruct (N.eqb_spec c NL) as [->|]; [|done].
      split; [constructor; auto|eauto].
    + intros (w & rest & b' & -> & Hd & Hk). inversion Hd as [| | | | | |? ? Hr]; subst.
      cbn [app]. destruct Hr as [->| ->]; done.
Qed.

(** [re.match] succeeds when the subject starts with something that the
    pattern matches. *)
Lemma matches_iff r s :
  matches r s = true <-> exists w rest b', s = w ++ rest /\ den r true w rest b'.
Proof.
  unfold matches, match_rest. split.
  - intros Hm. destruct (run r true s _) as [rest|] eqn:E; [|done].
    destruct (proj1 (run_iff r s true (fun _ rest => Some rest))) as
      (w & rest' & b' & Hs & Hd & _); [eauto|]. exists w, rest', b'. done.
  - intros (w & rest & b' & Hs & Hd).
    destruct (proj2 (run_iff r s true (fun _ rest => Some rest))) as (a & ->); [|done].
    exists w, rest, b'. eauto.
Qed.

(** [re.search] succeeds when the pattern matches somewhere. *)
Lemma search_from_iff r : forall s bol,
  search_from r bol s = true
  <-> exists pre w rest b',
        s = pre ++ w ++ rest
        /\ den r (match pre with [] => bol | _ :: _ => false end) w rest b'.
Proof.
  assert (M : forall bol s, (exists rest, match_rest r bol s = Some rest)
                <-> exists w rest b', s = w ++ rest /\ den r bol w rest b').
  { intros bol s. unfold match_rest. rewrite run_iff. split.
    - intros (w & rest & b' & Hs & Hd & _). eauto.
    - intros (w & rest & b' & Hs & Hd). eauto 7. }
  induction s as [|c t IH]; intros bol; cbn [search_from].
  - destruct (match_rest r bol []) as [rest|] eqn:E.
    + split; [intros _|done].
      destruct (proj1 (M bol [])) as (w & rest' & b' & Hs & Hd); [eauto|].
      exists [], w, rest', b'. done.
    + split; [done|]. intros (pre & w & rest & b' & Hs & Hd). symmetry in Hs.
      apply app_eq_nil in Hs as [-> Hs].
      destruct (proj2 (M bol [])) as (x & Hx); [eauto|]. congruence.
  - destruct (match_rest r bol (c :: t)) as [rest|] eqn:E.
    + split; [intros _|done].
      destruct (proj1 (M bol (c :: t))) as (w & rest' & b' & Hs & Hd); [eauto|].
      exists [], w, rest', b'. done.
    + rewrite IH. split.
      * intros (pre & w & rest & b' & -> & Hd). exists (c :: pre), w, rest, b'.
        split; [done|]. destruct pre; exact Hd.
      * intros (pre & w & rest & b' & Hs & Hd). destruct pre as [|c' pre].
        -- destruct (proj2 (M bol (c :: t))) as (x & Hx); [|congruence].
           exists w, rest, b'. done.
        -- injection Hs as <- ->. exists pre, w, rest, b'. split; [done|].
           destruct pre; exact Hd.
Qed.

(** *** What the parts of a pattern match *)

Lemma den_eps_iff bol w rest b' : den Eps bol w rest b' <-> w = [] /\ b' = bol.
Proof. split; [inversion 1; done|intros [-> ->]; constructor]. Qed.

Lemma den_chr_iff p bol w rest b' :
  den (Chr p) bol w rest b' <-> exists c, w = [c] /\ p c = true /\ b' = false.
Proof.
  split; [inversion 1; subst; eauto|intros (c & -> & Hc & ->); constructor; done].
Qed.

Lemma den_star_iff p bol w rest b' :
  den (Star p) bol w rest b'
  <-> Forall (fun x => p x = true) w /\ b' = match w with [] => bol | _ :: _ => false end.
Proof.
  split.
  - inversion 1; subst; [done|]. split; [constructor; done|done].
  - intros [Hw ->]. destruct w as [|c w]; [constructor|].
    inversion Hw; subst. constructor; done.
Qed.

Lemma den_bol_iff bol w rest b' :
  den Bol bol w rest b' <-> bol = true /\ w = [] /\ b' = true.
Proof. split; [inversion 1; done|intros (-> & -> & ->); constructor]. Qed.

Lemma den_eol_iff bol w rest b' :
  den Eol bol w rest b' <-> w = [] /\ (rest = [] \/ rest = [NL]) /\ b' = bol.
Proof. split; [inversion 1; done|intros (-> & Hr & ->); constructor; done]. Qed.

Lemma den_cat_iff r1 r2 bol w rest b' :
  den (Cat r1 r2) bol w rest b'
  <-> exists w1 w2 b1, w = w1 ++ w2 /\ den r1 bol w1 (w2 ++ rest) b1 /\ den r2 b1 w2 rest b'.
Proof.
  split.
  - inversion 1; subst. eauto 7.
  - intros (w1 & w2 & b1 & -> & H1 & H2). econstructor; eauto.
Qed.

Lemma den_seq_cons r rs bol w rest b' :
  den (seq (r :: rs)) bol w rest b'
  <-> exists w1 w2 b1, w = w1 ++ w2 /\ den r bol w1 (w2 ++ rest) b1
                       /\ den (seq rs) b1 w2 rest b'.
Proof.
  destruct rs as [|r' rs]; [|apply den_cat_iff]. cbn [seq]. split.
  - intros Hd. exists w, [], b'. rewrite app_nil_r. split; [done|].
    split; [done|constructor].
  - intros (w1 & w2 & b1 & -> & H1 & H2). apply den_eps_iff in H2 as [-> ->].
    rewrite app_nil_r. done.
Qed.

Lemma den_plus_iff p bol w rest b' :
  den (Plus p) bol w rest b'
  <-> w <> [] /\ Forall (fun x => p x = true) w /\ b' = false.
Proof.
  unfold Plus. rewrite den_cat_iff. split.
  - intros (w1 & w2 & b1 & -> & H1 & H2).
    apply den_chr_iff in H1 as (c & -> & Hc & ->).
    apply den_star_iff in H2 as [Hw ->]. split; [done|].
    split; [constructor; done|]. destruct w2; done.
  - intros (Hn & Hw & ->). destruct w as [|c w]; [done|]. inversion Hw; subst.
    exists [c], w, false. split; [done|]. split; [constructor; done|].
    apply den_star_iff. split; [done|]. destruct w; done.
Qed.

(** A pattern of one character test for each character of [s]. *)
Lemma den_chars_iff (q : char -> char -> bool) : forall s bol w rest b',
  den (seq (map (fun c => Chr (q c)) s)) bol w rest b'
  <-> Forall2 (fun c x => q c x = true) s w
      /\ b' = match s with [] => bol | _ :: _ => false end.
Proof.
  induction s as [|c s IH]; intros bol w rest b'.
  - cbn [map seq]. rewrite den_eps_iff. split.
    + intros [-> ->]. split; [constructor|done].
    + intros [Hw ->]. inversion Hw. done.
  - cbn [map]. rewrite den_seq_cons. split.
    + intros (w1 & w2 & b1 & -> & H1 & H2).
      apply den_chr_iff in H1 as (x & -> & Hx & ->).
      apply IH in H2 as [Hw ->]. split; [constructor; done|]. destruct s; done.
    + intros [Hw ->]. inversion Hw as [|? x ? w' Hx Hw']; subst.
      exists [x], w', false. split; [done|]. split; [constructor; done|].
      apply IH. split; [done|]. destruct s; done.
Qed.

Lemma den_lit_iff s bol w rest b' :
  den (lit s) bol w rest b'
  <-> w = s /\ b' = match s with [] => bol | _ :: _ => false end.
Proof.
  unfold lit. rewrite (den_chars_iff only). split; intros [Hw Hb]; (split; [|done]).
  - clear Hb. induction Hw as [|c x s' w' Hx _ IH]; [done|].
    unfold only in Hx. apply N.eqb_eq in Hx. congruence.
  - subst w. clear Hb. induction s as [|c s IH]; constructor; [|done].
    apply N.eqb_refl.
Qed.

(** What [strip] returns does not end in white space. *)
Lemma strip_last s a c : strip s = a ++ [c] -> isspace c = false.
Proof.
  unfold strip, rstrip. intros Hs. apply (lstrip_head (rev (lstrip s))).
  apply (f_equal (@rev _)) in Hs. rewrite rev_involutive, rev_app_distr in Hs.
  rewrite Hs. done.
Qed.

End MatcherFacts.

(** ** Which lines are copyright notices and page numbers *)

Module LineKindFacts.
Import MatcherFacts.
Section U.
Context `{UnicodeData}.

Lemma dot_no_NL b : Forall (fun x => dot x = true) b <-> NL ∉ b.
Proof.
  unfold dot. induction b as [|c b IH].
  - split; [intros _; apply not_elem_of_nil|constructor].
  - rewrite Forall_cons, not_elem_of_cons, IH, negb_true_iff, N.eqb_neq.
    split; intros [? ?]; split; auto.
Qed.

Lemma den_digits4 bol w rest b' :
  den (seq digits4) bol w rest b' <-> length w = 4%nat /\ decimals w /\ b' = false.
Proof.
  unfold digits4. split.
  - intros Hd.
    apply den_seq_cons in Hd as (w1 & w' & b1 & -> & H1 & Hd).
    apply den_seq_cons in Hd as (w2 & w'' & b2 & -> & H2 & Hd).
    apply den_seq_cons in Hd as (w3 & w4 & b3 & -> & H3 & H4).
    cbn [seq] in H4.
    apply den_chr_iff in H1 as (c1 & -> & ? & ->).
    apply den_chr_iff in H2 as (c2 & -> & ? & ->).
    apply den_chr_iff in H3 as (c3 & -> & ? & ->).
    apply den_chr_iff in H4 as (c4 & -> & ? & ->).
    split; [done|]. split; [|done]. repeat constructor; done.
  - intros (Hl & Hw & ->).
    destruct w as [|c1 [|c2 [|c3 [|c4 [|]]]]]; try done.
    inversion Hw as [|? ? ? Hw2]; subst. inversion Hw2 as [|? ? ? Hw3]; subst.
    inversion Hw3 as [|? ? ? Hw4]; subst. inversion Hw4; subst.
    apply den_seq_cons. exists [c1], [c2; c3; c4], false. split; [done|].
    split; [constructor; done|].
    apply den_seq_cons. exists [c2], [c3; c4], false. split; [done|].
    split; [constructor; done|].
    apply den_seq_cons. exists [c3], [c4], false. split; [done|].
    split; [constructor; done|]. cbn [seq]. constructor; done.
Qed.

(** [r.*\d{4}] *)
Lemma den_year r bol w rest b' :
  den (seq ([r; Star dot] ++ digits4)) bol w rest b'
  <-> exists h y bh, w = h ++ y /\ den r bol h (y ++ rest) bh /\ ends_in_year y
                     /\ b' = false.
Proof.
  change ([r; Star dot] ++ digits4) with (r :: Star dot :: digits4). split.
  - intros Hd.
    apply den_seq_cons in Hd as (h & y & bh & -> & Hh & Hd).
    exists h, y, bh. split; [done|]. split; [done|].
    apply den_seq_cons in Hd as (b & d & bb & -> & Hb & Hd).
    apply den_star_iff in Hb as [Hb _]. apply den_digits4 in Hd as (Hl & Hd & ->).
    split; [|done]. exists b, d. split; [done|]. split; [apply dot_no_NL; done|done].
  - intros (h & y & bh & -> & Hh & (b & d & -> & Hb & Hl & Hd) & ->).
    apply den_seq_cons. exists h, (b ++ d), bh. split; [done|]. split; [done|].
    apply den_seq_cons. eexists b, d, _. split; [done|].
    split; [apply den_star_iff; split; [apply dot_no_NL; done|reflexivity]|].
    apply den_digits4. done.
Qed.

Lemma search_lit s t :
  search (lit s) t = true <-> exists pre rest, t = pre ++ s ++ rest.
Proof.
  unfold search. rewrite search_from_iff. split.
  - intros (pre & w & rest & b' & -> & Hd). apply den_lit_iff in Hd as [-> _]. eauto.
  - intros (pre & rest & ->). eexists pre, s, rest, _. split; [done|].
    apply den_lit_iff. split; reflexivity.
Qed.

Lemma search_year r h t :
  (forall bol w rest b', den r bol w rest b' <-> w = h /\ b' = false) ->
  search (seq ([r; Star dot] ++ digits4)) t = true
  <-> exists pre y rest, t = pre ++ (h ++ y) ++ rest /\ ends_in_year y.
Proof.
  intros Hr. unfold search. rewrite search_from_iff. split.
  - intros (pre & w & rest & b' & -> & Hd).
    apply den_year in Hd as (h' & y & bh & -> & Hh & Hy & _).
    apply Hr in Hh as [-> _]. eauto.
  - intros (pre & y & rest & -> & Hy). eexists pre, (h ++ y), rest, _.
    split; [done|]. apply den_year. exists h, y, false. split; [done|].
    split; [apply Hr; done|done].
Qed.

Lemma den_only c bol w rest b' :
  den (Chr (only c)) bol w rest b' <-> w = [c] /\ b' = false.
Proof.
  rewrite den_chr_iff. unfold only. split.
  - intros (x & -> & Hx & ->). apply N.eqb_eq in Hx. subst. done.
  - intros [-> ->]. exists c. rewrite N.eqb_refl. done.
Qed.

Lemma truthy_iff (s : str) : truthy s = true <-> s <> [].
Proof. destruct s; cbn; split; done. Qed.

(** A trimmed line has no newline at its end for [$] to stop before. *)
Lemma stripped_end line w rest :
  strip line = w ++ rest -> rest = [] \/ rest = [NL] -> strip line = w /\ rest = [].
Proof.
  intros Hs [->| ->]; [rewrite app_nil_r in Hs; done|].
  apply strip_last in Hs. done.
Qed.

(** [^page\s+\d+$] under [re.IGNORECASE] *)
Lemma den_page s w rest b' :
  den (seq [Bol; lit_i s; Plus isspace; Plus isdecimal; Eol]) true w rest b'
  <-> (exists word ws ds,
         w = word ++ ws ++ ds /\ same_letters s word
         /\ ws <> [] /\ blank ws /\ ds <> [] /\ decimals ds)
      /\ (rest = [] \/ rest = [NL]) /\ b' = false.
Proof.
  split.
  - intros Hd.
    apply den_seq_cons in Hd as (w0 & w' & b0 & -> & H0 & Hd).
    apply den_seq_cons in Hd as (word & w'' & b1 & -> & H1 & Hd).
    apply den_seq_cons in Hd as (ws & w''' & b2 & -> & H2 & Hd).
    apply den_seq_cons in Hd as (ds & we & b3 & -> & H3 & He).
    cbn [seq] in He.
    apply den_bol_iff in H0 as (_ & -> & ->).
    apply (den_chars_iff ieq) in H1 as [Hw _].
    apply den_plus_iff in H2 as (? & ? & ->).
    apply den_plus_iff in H3 as (? & ? & ->).
    apply den_eol_iff in He as (-> & ? & ->).
    split; [|done]. exists word, ws, ds. rewrite app_nil_r. done.
  - intros [(word & ws & ds & -> & Hw & ? & ? & ? & ?) [Hr ->]].
    apply den_seq_cons. exists [], (word ++ ws ++ ds), true. split; [done|].
    split; [constructor|].
    apply den_seq_cons. eexists word, (ws ++ ds), _. split; [done|].
    split; [apply (den_chars_iff ieq); split; [exact Hw|reflexivity]|].
    apply den_seq_cons. exists ws, ds, false. split; [done|].
    split; [apply den_plus_iff; done|].
    apply den_seq_cons. exists ds, [], false. split; [rewrite app_nil_r; done|].
    split; [apply den_plus_iff; done|]. cbn [seq]. constructor. done.
Qed.

(** [^\d+\s*/\s*\d+$] *)
Lemma den_fraction w rest b' :
  den (seq [Bol; Plus isdecimal; Star isspace; Chr (only 47%N); Star isspace;
            Plus isdecimal; Eol]) true w rest b'
  <-> (exists d1 w1 w2 d2,
         w = d1 ++ w1 ++ [47%N] ++ w2 ++ d2
         /\ d1 <> [] /\ decimals d1 /\ blank w1 /\ blank w2
         /\ d2 <> [] /\ decimals d2)
      /\ (rest = [] \/ rest = [NL]) /\ b' = false.
Proof.
  split.
  - intros Hd.
    apply den_seq_cons in Hd as (w0 & w' & b0 & -> & H0 & Hd).
    apply den_seq_cons in Hd as (d1 & w'' & b1 & -> & H1 & Hd).
    apply den_seq_cons in Hd as (w1 & w''' & b2 & -> & H2 & Hd).
    apply den_seq_cons in Hd as (sl & w'''' & b3 & -> & H3 & Hd).
    apply den_seq_cons in Hd as (w2 & w''''' & b4 & -> & H4 & Hd).
    apply den_seq_cons in Hd as (d2 & we & b5 & -> & H5 & He).
    cbn [seq] in He.
    apply den_bol_iff in H0 as (_ & -> & ->).
    apply den_plus_iff in H1 as (? & ? & ->).
    apply den_star_iff in H2 as [? ->].
    apply den_only in H3 as [-> ->].
    apply den_star_iff in H4 as [? ->].
    apply den_plus_iff in H5 as (? & ? & ->).
    apply den_eol_iff in He as (-> & ? & ->).
    split; [|done]. exists d1, w1, w2, d2. rewrite app_nil_r. done.
  - intros [(d1 & w1 & w2 & d2 & -> & ? & ? & ? & ? & ? & ?) [Hr ->]].
    apply den_seq_cons. eexists [], _, true. split; [reflexivity|].
    split; [constructor|].
    apply den_seq_cons. eexists d1, _, false. split; [reflexivity|].
    split; [apply den_plus_iff; done|].
    apply den_seq_cons. eexists w1, _, _. split; [reflexivity|].
    split; [apply den_star_iff; split; [done|reflexivity]|].
    apply den_seq_cons. eexists [47%N], _, false. split; [reflexivity|].
    split; [apply den_only; done|].
    apply den_seq_cons. eexists w2, _, _. split; [reflexivity|].
    split; [apply den_star_iff; split; [done|reflexivity]|].
    apply den_seq_cons. exists d2, [], false. split; [rewrite app_nil_r; done|].
    split; [apply den_plus_iff; done|]. cbn [seq]. constructor. done.
Qed.

(** [^-\s*\d+\s*-$] *)
Lemma den_dashes w rest b' :
  den (seq [Bol; Chr (only 45%N); Star isspace; Plus isdecimal; Star isspace;
            Chr (only 45%N); Eol]) true w rest b'
  <-> (exists w1 ds w2,
         w = [45%N] ++ w1 ++ ds ++ w2 ++ [45%N]
         /\ blank w1 /\ ds <> [] /\ decimals ds /\ blank w2)
      /\ (rest = [] \/ rest = [NL]) /\ b' = false.
Proof.
  split.
  - intros Hd.
    apply den_seq_cons in Hd as (w0 & w' & b0 & -> & H0 & Hd).
    apply den_seq_cons in Hd as (h1 & w'' & b1 & -> & H1 & Hd).
    apply den_seq_cons in Hd as (w1 & w''' & b2 & -> & H2 & Hd).
    apply den_seq_cons in Hd as (ds & w'''' & b3 & -> & H3 & Hd).
    apply den_seq_cons in Hd as (w2 & w''''' & b4 & -> & H4 & Hd).
    apply den_seq_cons in Hd as (h2 & we & b5 & -> & H5 & He).
    cbn [seq] in He.
    apply den_bol_iff in H0 as (_ & -> & ->).
    apply den_only in H1 as [-> ->].
    apply den_star_iff in H2 as [? ->].
    apply den_plus_iff in H3 as (? & ? & ->).
    apply den_star_iff in H4 as [? ->].
    apply den_only in H5 as [-> ->].
    apply den_eol_iff in He as (-> & ? & ->).
    split; [|done]. exists w1, ds, w2. done.
  - intros [(w1 & ds & w2 & -> & ? & ? & ? & ?) [Hr ->]].
    apply den_seq_cons. eexists [], _, true. split; [reflexivity|].
    split; [constructor|].
    apply den_seq_cons. eexists [45%N], _, false. split; [reflexivity|].
    split; [apply den_only; done|].
    apply den_seq_cons. eexists w1, _, _. split; [reflexivity|].
    split; [apply den_star_iff; split; [done|reflexivity]|].
    apply den_seq_cons. eexists ds, _, false. split; [reflexivity|].
    split; [apply den_plus_iff; done|].
    apply den_seq_cons. eexists w2, _, _. split; [reflexivity|].
    split; [apply den_star_iff; split; [done|reflexivity]|].
    apply den_seq_cons. exists [45%N], [], false. split; [done|].
    split; [apply den_only; done|]. cbn [seq]. constructor. done.
Qed.

(** [re.match] of a pattern that ends in [$], on a trimmed line. *)
Lemma matches_stripped r line (P : str -> Prop) :
  (forall w rest b', den r true w rest b'
                     <-> P w /\ (rest = [] \/ rest = [NL]) /\ b' = false) ->
  matches r (strip line) = true <-> P (strip line).
Proof.
  intros Hr. rewrite matches_iff. split.
  - intros (w & rest & b' & Hs & Hd). apply Hr in Hd as (Hw & Hrest & _).
    destruct (stripped_end _ _ _ Hs Hrest) as [-> _]. done.
  - intros HP. exists (strip line), [], false. rewrite app_nil_r. split; [done|].
    apply Hr. auto.
Qed.

End U.
End LineKindFacts.

Import MatcherFacts LineKindFacts.

(** X29.  [is_copyright_line] accepts a line exactly when the line, in
    lower case and trimmed, contains one of the five phrases of
    [copyright_patterns], or the sign [©] or the word [copyright] followed
    on the same line by four decimal digits in a row. *)
Theorem is_copyright_line_spec `{UnicodeData} (line : str) :
  is_copyright_line line = true
  <-> exists pre w rest,
        strip (lower line) = pre ++ w ++ rest
        /\ (w ∈ copyright_phrases
            \/ exists y, ends_in_year y
                 /\ (w = [169%N] ++ y \/ w = py "copyright" ++ y)).
Proof.
  unfold is_copyright_line, copyright_patterns. cbn zeta.
  set (t := strip (lower line)). cbn [existsb].
  rewrite orb_false_r, !orb_true_iff.
  rewrite (search_year _ [169%N]) by (intros; apply den_only).
  rewrite (search_year _ (py "copyright"))
    by (intros; rewrite den_lit_iff; reflexivity).
  rewrite !search_lit. unfold copyright_phrases. split.
  - intros [(pre & y & rest & Ht & Hy)|[(pre & y & rest & Ht & Hy)|Hp]].
    + exists pre, ([169%N] ++ y), rest. split; [done|]. right. exists y. auto.
    + exists pre, (py "copyright" ++ y), rest. split; [done|]. right. exists y. auto.
    + destruct Hp as [(pre & rest & Ht)|[(pre & rest & Ht)|[(pre & rest & Ht)|
                      [(pre & rest & Ht)|(pre & rest & Ht)]]]];
        eexists pre, _, rest; (split; [exact Ht|]); left;
        repeat first [apply list_elem_of_here | apply list_elem_of_further].
  - intros (pre & w & rest & Ht & [Hw|(y & Hy & [-> | ->])]).
    + right. right.
      repeat (apply elem_of_cons in Hw as [->|Hw]; [eauto 8|]).
      apply elem_of_nil in Hw. done.
    + left. eauto.
    + right. left. eauto.
Qed.

(** X30.  [is_page_number] accepts a line exactly when the trimmed line is
    a non-empty run of digits, or one of: the word [page] or [pagina] in
    any case, then white space, then decimal digits; decimal digits, a
    slash and decimal digits, with optional white space around the slash;
    decimal digits between two hyphens, with optional white space around
    the digits.  Nothing may follow. *)
Theorem is_page_number_spec `{UnicodeData} (line : str) :
  is_page_number line = true
  <-> let t := strip line in
      (t <> [] /\ Forall (fun c => isdigit c = true) t)
      \/ (exists word ws ds,
            t = word ++ ws ++ ds
            /\ (same_letters (py "page") word \/ same_letters (py "pagina") word)
            /\ ws <> [] /\ blank ws /\ ds <> [] /\ decimals ds)
      \/ (exists d1 w1 w2 d2,
            t = d1 ++ w1 ++ [47%N] ++ w2 ++ d2
            /\ d1 <> [] /\ decimals d1 /\ blank w1 /\ blank w2
            /\ d2 <> [] /\ decimals d2)
      \/ (exists w1 ds w2,
            t = [45%N] ++ w1 ++ ds ++ w2 ++ [45%N]
            /\ blank w1 /\ ds <> [] /\ decimals ds /\ blank w2).
Proof.
  unfold is_page_number, page_patterns. cbn zeta. set (t := strip line).
  assert (Hdig : str_isdigit t = true
                 <-> t <> [] /\ Forall (fun c => isdigit c = true) t).
  { unfold str_isdigit. rewrite andb_true_iff, truthy_iff, forallb_forall, Forall_forall.
    split; intros [? Hf]; (split; [done|]); intros c Hc; apply Hf;
      apply list_elem_of_In; done. }
  assert (Hpat : existsb (fun pattern => matches pattern t)
                   [seq [Bol; lit_i (py "page"); Plus isspace; Plus isdecimal; Eol];
                    seq [Bol; lit_i (py "pagina"); Plus isspace; Plus isdecimal; Eol];
                    seq [Bol; Plus isdecimal; Star isspace; Chr (only 47%N);
                         Star isspace; Plus isdecimal; Eol];
                    seq [Bol; Chr (only 45%N); Star isspace; Plus isdecimal;
                         Star isspace; Chr (only 45%N); Eol]] = true
          <-> (exists word ws ds,
                 t = word ++ ws ++ ds
                 /\ (same_letters (py "page") word \/ same_letters (py "pagina") word)
                 /\ ws <> [] /\ blank ws /\ ds <> [] /\ decimals ds)
              \/ (exists d1 w1 w2 d2,
                    t = d1 ++ w1 ++ [47%N] ++ w2 ++ d2
                    /\ d1 <> [] /\ decimals d1 /\ blank w1 /\ blank w2
                    /\ d2 <> [] /\ decimals d2)
              \/ (exists w1 ds w2,
                    t = [45%N] ++ w1 ++ ds ++ w2 ++ [45%N]
                    /\ blank w1 /\ ds <> [] /\ decimals ds /\ blank w2)).
  { cbn [existsb]. rewrite orb_false_r, !orb_true_iff. subst t.
    rewrite (matches_stripped _ line _ (den_page (py "page"))).
    rewrite (matches_stripped _ line _ (den_page (py "pagina"))).
    rewrite (matches_stripped _ line _ den_fraction).
    rewrite (matches_stripped _ line _ den_dashes).
    split.
    - intros [(word & ws & ds & ? & ? & ?)|[(word & ws & ds & ? & ? & ?)|[?|?]]];
        [left; exists word, ws, ds; auto
        |left; exists word, ws, ds; auto|right; left; done|right; right; done].
    - intros [(word & ws & ds & ? & [?|?] & ?)|[?|?]];
        [left; exists word, ws, ds; auto
        |right; left; exists word, ws, ds; auto|right; right; left; done
        |right; right; right; done]. }
  destruct (str_isdigit t) eqn:E.
  - split; [intros _; left; apply Hdig; done|done].
  - rewrite Hpat. split; [intros Hp; right; exact Hp|].
    intros [Hd|Hp]; [apply Hdig in Hd; congruence|exact Hp].
Qed.

Import Re TextNormalizer.

(** ** When a second pass of the normalizer changes nothing *)

Module SecondPassFacts.

Lemma visible_sublist (a b : str) :
  a `sublist_of` b -> (length (visible a) <= length (visible b))%nat.
Proof.
  unfold visible. induction 1 as [|x l1 l2 _ IH|x l1 l2 _ IH]; cbn [List.filter].
  - done.
  - destruct (negb (isspace x)); cbn [length]; lia.
  - destruct (negb (isspace x)); cbn [length]; lia.
Qed.

Lemma visible_unbreak_le s : (length (visible (unbreak s)) <= length (visible s))%nat.
Proof. apply visible_sublist, sub_from_empty_sublist. Qed.

(** The substitution leaves the text as it is, or takes a hyphen away. *)
Lemma unbreak_takes_hyphen : forall n s,
  (length s <= n)%nat ->
  nobreak s \/ (length (visible (unbreak s)) < length (visible s))%nat.
Proof.
  induction n as [|n IH]; intros s Hn;
    destruct (unbreak_cases s) as [[-> ->]|[(c & t & -> & Hc & ->)|(pre & r & -> & Hr & ->)]];
    try (left; done); try (simpl in Hn; lia).
  - destruct (IH t ltac:(simpl in Hn; lia)) as [Ht|Ht].
    + left. split; done.
    + right. unfold visible in *. cbn [List.filter].
      destruct (negb (isspace c)); cbn [length]; lia.
  - right. pose proof (visible_unbreak_le r) as Hle.
    change (45%N :: pre ++ r) with ([45%N] ++ pre ++ r).
    rewrite !visible_app, !length_app. change (length (visible [45%N])) with 1%nat. lia.
Qed.

Section WithUnicode.
Context `{UnicodeData}.

Lemma remove_soft_hyphens_no_soft_hyphen s : 173%N ∉ remove_soft_hyphens s.
Proof. unfold remove_soft_hyphens. cbv zeta. apply replace_removes, not_elem_of_nil. Qed.

Lemma remove_soft_hyphens_no_ligature s :
  Forall (fun c => c ∉ s) ligature_chars ->
  Forall (fun c => c ∉ remove_soft_hyphens s) ligature_chars.
Proof.
  intros Hs. eapply Forall_impl; [exact Hs|].
  intros c Hc Hin. apply Hc, remove_soft_hyphens_chars, Hin.
Qed.

(** [normalize], step by step. *)
Lemma normalize_steps s lig un ws sh ocr :
  normalize s lig un ws sh ocr
  = (fun y => if ws then clean_whitespace y else y)
      ((fun x => if sh then remove_soft_hyphens x else x) (expanded s lig un)).
Proof. unfold normalize, expanded, fix_common_ocr_errors. destruct ocr; reflexivity. Qed.

(** The result of [normalize] holds no soft hyphen when they are removed,
    and is in the normal form of the white space when that is cleaned. *)
Lemma normalize_no_soft_hyphen s lig un ws ocr :
  173%N ∉ normalize s lig un ws true ocr.
Proof.
  rewrite normalize_steps. cbv beta.
  destruct ws; [apply clean_whitespace_no_soft_hyphen|];
    apply remove_soft_hyphens_no_soft_hyphen.
Qed.

Lemma normalize_whitespace_fix s lig un ws sh ocr :
  let r := normalize s lig un ws sh ocr in
  (if ws then clean_whitespace r else r) = r.
Proof.
  cbv zeta. rewrite normalize_steps. cbv beta.
  destruct ws; [apply clean_whitespace_idempotent|done].
Qed.

Lemma normalize_no_ligature s lig ws sh ocr :
  lig = true ->
  Forall (fun c => c ∉ normalize s lig false ws sh ocr) ligature_chars.
Proof.
  intros ->. rewrite normalize_steps. cbv beta. unfold expanded. cbv zeta.
  assert (H0 := normalize_ligatures_removes s).
  destruct sh, ws; auto using clean_whitespace_no_ligature, remove_soft_hyphens_no_ligature.
Qed.

Lemma expanded_fix s lig ws sh ocr :
  let r := normalize s lig false ws sh ocr in
  expanded r lig false = r.
Proof.
  cbv zeta. unfold expanded at 1. cbv zeta. destruct lig; [|done].
  apply normalize_ligatures_absent, normalize_no_ligature. done.
Qed.

End WithUnicode.
End SecondPassFacts.

Import SecondPassFacts.

(** C2, amended.  Let [r] be the result of [normalize].  A second pass
    with the same options returns [r] again exactly when soft-hyphen
    removal is off or [r] holds no hyphen that is followed, after optional
    white space, by a line break.  That is so whenever the text holds no
    soft hyphen U+00AD after the first two steps, which are the expansion
    of the ligatures and NFKC.  With [unicode_norm] off this holds for
    every text and all options; with [unicode_norm] on, it holds for the
    texts whose result the first two steps leave unchanged, NFKC being a
    table of the Unicode database and no code of the program. *)
Theorem normalize_idempotent_iff `{UnicodeData}
    (s : str) (ligatures unicode_norm whitespace soft_hyphens ocr_errors : bool) :
  let r := normalize s ligatures unicode_norm whitespace soft_hyphens ocr_errors in
  (unicode_norm = true -> expanded r ligatures unicode_norm = r) ->
  (normalize r ligatures unicode_norm whitespace soft_hyphens ocr_errors = r
   <-> (soft_hyphens = true -> nobreak r))
  /\ (soft_hyphens = true -> 173%N ∉ expanded s ligatures unicode_norm -> nobreak r)
  /\ (unicode_norm = false -> 173%N ∉ s -> 173%N ∉ expanded s ligatures unicode_norm).
Proof.
  cbv zeta. intros Hun.
  set (r := normalize s ligatures unicode_norm whitespace soft_hyphens ocr_errors).
  assert (E : expanded r ligatures unicode_norm = r).
  { destruct unicode_norm; [apply Hun; done|]. apply expanded_fix. }
  assert (W : (if whitespace then clean_whitespace r else r) = r)
    by apply normalize_whitespace_fix.
  split; [|split].
  - rewrite (normalize_steps r), E. cbv beta. destruct soft_hyphens.
    + assert (H173 : 173%N ∉ r) by apply normalize_no_soft_hyphen.
      rewrite (remove_soft_hyphens_unbreak r H173). split.
      * intros Hfix _.
        destruct (unbreak_takes_hyphen (length r) r ltac:(lia)) as [Hn|Hlt]; [done|].
        exfalso. apply (f_equal (fun x => length (visible x))) in Hfix.
        destruct whitespace; [rewrite visible_clean_whitespace in Hfix|]; lia.
      * intros Hn. rewrite (unbreak_fix r) by auto. exact W.
    + split; [done|]. intros _. exact W.
  - intros -> H173. subst r. rewrite normalize_steps. cbv beta.
    rewrite (remove_soft_hyphens_unbreak _ H173).
    assert (Hn : nobreak (unbreak (expanded s ligatures unicode_norm)))
      by (eapply unbreak_nobreak; done).
    destruct whitespace; [apply clean_whitespace_nobreak|]; done.
  - intros -> Hs. unfold expanded. cbv zeta.
    destruct ligatures; [apply normalize_ligatures_no_soft_hyphen|]; done.
Qed.

Lemma normalize_idempotent_iff_witness :
  let s := py "exam" ++ [173%N] ++ py "ple co-" ++ [NL] ++ py "op" in
  let r := normalize (H := ascii_tables) s true true true true false in
  r = py "example coop"
  /\ normalize (H := ascii_tables) r true true true true false = r.
Proof.
  cbv zeta. split; [vm_compute; reflexivity|].
  apply (normalize_idempotent_iff (H := ascii_tables)).
  - intros _. vm_compute. reflexivity.
  - intros _. vm_compute. repeat split; intros; reflexivity.
Defined.
